(** * Canonical motion front-end ([src/emc/task/emccanon.cc])

    A shallow embedding of the canonical machining functions that sit between
    the G-code interpreter and the trajectory queue, and the properties of them
    that the specification states.

    Conventions of the embedding.
    - A C [double] is a real number ([R]); comparisons are decided with
      [Rlt_dec] and [Req_dec_T].  Rounding is outside the model.
    - A C [int] is an integer ([Z]).
    - Nine coordinates x, y, z, a, b, c, u, v, w that the source passes one by
      one, by value or by reference, are passed as one [CANON_POSITION].
    - The file-scope objects [canon], [chained_points()] and [interp_list] are
      the members of one record, [World], threaded through every function.
    - What the file reads from its collaborators ([emcStatus], the axis
      configuration, constants of headers) is gathered in the record [Machine].
    - A function that can stop the program ([assert]) or leave the part of the
      source followed here returns a [Fault] instead of a new [World].

    Two small sources stand beside it: the HAL component [charge_pump], whose
    function is a function on booleans, and the entity [ioport] of the 7i43
    firmware, whose process is the registers after a rising edge of the clock
    and the values that the outputs settle to. *)

From Stdlib Require Import Reals Lra ZArith List Bool Lia.
Import ListNotations.

Open Scope R_scope.

(** ** Numbers *)

Definition Rltb (a b : R) : bool := if Rlt_dec a b then true else false.
Definition Rleb (a b : R) : bool := if Rle_dec a b then true else false.
Definition Reqb (a b : R) : bool := if Req_dec_T a b then true else false.

(** [a > b] and [a != b] of C. *)
Definition Rgtb (a b : R) : bool := Rltb b a.
Definition Rneb (a b : R) : bool := negb (Reqb a b).

(** A [double] used as a condition: true when it is not zero. *)
Definition nonzero (a : R) : bool := Rneb a 0.

(** [#define MIN(a,b) ((a)<(b)?(a):(b))] and its relatives. *)
Definition MIN (a b : R) : R := if Rltb a b then a else b.
Definition MIN3 (a b c : R) : R := MIN (MIN a b) c.
Definition MIN4 (a b c d : R) : R := MIN (MIN a b) (MIN c d).

(** [static const double tiny = 1e-7;] and [huge = 1e9]. *)
Definition tiny : R := / 10000000.
Definition huge : R := 1000000000.

(** [#define D2R(r) ((r)*M_PI/180.0)] *)
Definition D2R (r : R) : R := r * PI / 180.

(** ** Data *)

(** [CANON_POSITION]: nine coordinates. *)
Record CANON_POSITION : Type := mkPos {
  px : R; py : R; pz : R;
  pa : R; pb : R; pc : R;
  pu : R; pv : R; pw : R
}.

(** [PmCartesian] and [EmcPose] of the motion interface. *)
Record PmCartesian : Type := mkCart { cx : R; cy : R; cz : R }.

Record EmcPose : Type := mkPose {
  tran : PmCartesian;
  ea : R; eb : R; ec : R;
  eu : R; ev : R; ew : R
}.

Inductive CANON_UNITS : Type :=
  | CANON_UNITS_INCHES
  | CANON_UNITS_MM
  | CANON_UNITS_CM.

Inductive CANON_PLANE : Type :=
  | CANON_PLANE_XY
  | CANON_PLANE_YZ
  | CANON_PLANE_XZ.

(** Modelled from the spec: the declaration of [CANON_MOTION_MODE] is in
    [canon.hh]; the specification gives the motion mode the two values
    CONTINUOUS and EXACT_STOP, and the functions below only compare it with
    [CANON_CONTINUOUS]. *)
Inductive CANON_MOTION_MODE : Type :=
  | CANON_EXACT_STOP
  | CANON_CONTINUOUS.

Definition CANON_UNITS_eqb (u1 u2 : CANON_UNITS) : bool :=
  match u1, u2 with
  | CANON_UNITS_INCHES, CANON_UNITS_INCHES => true
  | CANON_UNITS_MM, CANON_UNITS_MM => true
  | CANON_UNITS_CM, CANON_UNITS_CM => true
  | _, _ => false
  end.

Definition CANON_MOTION_MODE_eqb (m1 m2 : CANON_MOTION_MODE) : bool :=
  match m1, m2 with
  | CANON_EXACT_STOP, CANON_EXACT_STOP => true
  | CANON_CONTINUOUS, CANON_CONTINUOUS => true
  | _, _ => false
  end.

(** [CanonConfig_t canon]: the members this file reads and writes.  The type
    is declared in [canon.hh]; [cartesian_move], [angular_move] and [synched]
    only ever receive 0 or 1 and are booleans here. *)
Record CanonConfig_t : Type := mkCanon {
  endPoint : CANON_POSITION;
  programOrigin : CANON_POSITION;
  toolOffset : EmcPose;
  xy_rotation : R;
  lengthUnits : CANON_UNITS;
  activePlane : CANON_PLANE;
  motionMode : CANON_MOTION_MODE;
  motionTolerance : R;
  naivecamTolerance : R;
  feed_mode : Z;
  linearFeedRate : R;
  angularFeedRate : R;
  spindleSpeed : R;
  css_maximum : R;
  css_numerator : R;
  cartesian_move : bool;
  angular_move : bool;
  synched : bool;
  block_delete : bool;
  optional_program_stop : bool
}.

(** Assignment to one member of [canon]; the other members keep their value. *)

Definition set_endPoint (v : CANON_POSITION) (c : CanonConfig_t) : CanonConfig_t :=
  mkCanon v (programOrigin c) (toolOffset c) (xy_rotation c) (lengthUnits c)
    (activePlane c) (motionMode c) (motionTolerance c) (naivecamTolerance c) (feed_mode
    c) (linearFeedRate c) (angularFeedRate c) (spindleSpeed c) (css_maximum c)
    (css_numerator c) (cartesian_move c) (angular_move c) (synched c) (block_delete c)
    (optional_program_stop c).

Definition set_programOrigin (v : CANON_POSITION) (c : CanonConfig_t) : CanonConfig_t :=
  mkCanon (endPoint c) v (toolOffset c) (xy_rotation c) (lengthUnits c) (activePlane c)
    (motionMode c) (motionTolerance c) (naivecamTolerance c) (feed_mode c)
    (linearFeedRate c) (angularFeedRate c) (spindleSpeed c) (css_maximum c)
    (css_numerator c) (cartesian_move c) (angular_move c) (synched c) (block_delete c)
    (optional_program_stop c).

Definition set_toolOffset (v : EmcPose) (c : CanonConfig_t) : CanonConfig_t :=
  mkCanon (endPoint c) (programOrigin c) v (xy_rotation c) (lengthUnits c) (activePlane
    c) (motionMode c) (motionTolerance c) (naivecamTolerance c) (feed_mode c)
    (linearFeedRate c) (angularFeedRate c) (spindleSpeed c) (css_maximum c)
    (css_numerator c) (cartesian_move c) (angular_move c) (synched c) (block_delete c)
    (optional_program_stop c).

Definition set_xy_rotation (v : R) (c : CanonConfig_t) : CanonConfig_t :=
  mkCanon (endPoint c) (programOrigin c) (toolOffset c) v (lengthUnits c) (activePlane
    c) (motionMode c) (motionTolerance c) (naivecamTolerance c) (feed_mode c)
    (linearFeedRate c) (angularFeedRate c) (spindleSpeed c) (css_maximum c)
    (css_numerator c) (cartesian_move c) (angular_move c) (synched c) (block_delete c)
    (optional_program_stop c).

Definition set_lengthUnits (v : CANON_UNITS) (c : CanonConfig_t) : CanonConfig_t :=
  mkCanon (endPoint c) (programOrigin c) (toolOffset c) (xy_rotation c) v (activePlane
    c) (motionMode c) (motionTolerance c) (naivecamTolerance c) (feed_mode c)
    (linearFeedRate c) (angularFeedRate c) (spindleSpeed c) (css_maximum c)
    (css_numerator c) (cartesian_move c) (angular_move c) (synched c) (block_delete c)
    (optional_program_stop c).

Definition set_activePlane (v : CANON_PLANE) (c : CanonConfig_t) : CanonConfig_t :=
  mkCanon (endPoint c) (programOrigin c) (toolOffset c) (xy_rotation c) (lengthUnits c)
    v (motionMode c) (motionTolerance c) (naivecamTolerance c) (feed_mode c)
    (linearFeedRate c) (angularFeedRate c) (spindleSpeed c) (css_maximum c)
    (css_numerator c) (cartesian_move c) (angular_move c) (synched c) (block_delete c)
    (optional_program_stop c).

Definition set_motionMode (v : CANON_MOTION_MODE) (c : CanonConfig_t) : CanonConfig_t :=
  mkCanon (endPoint c) (programOrigin c) (toolOffset c) (xy_rotation c) (lengthUnits c)
    (activePlane c) v (motionTolerance c) (naivecamTolerance c) (feed_mode c)
    (linearFeedRate c) (angularFeedRate c) (spindleSpeed c) (css_maximum c)
    (css_numerator c) (cartesian_move c) (angular_move c) (synched c) (block_delete c)
    (optional_program_stop c).

Definition set_motionTolerance (v : R) (c : CanonConfig_t) : CanonConfig_t :=
  mkCanon (endPoint c) (programOrigin c) (toolOffset c) (xy_rotation c) (lengthUnits c)
    (activePlane c) (motionMode c) v (naivecamTolerance c) (feed_mode c) (linearFeedRate
    c) (angularFeedRate c) (spindleSpeed c) (css_maximum c) (css_numerator c)
    (cartesian_move c) (angular_move c) (synched c) (block_delete c)
    (optional_program_stop c).

Definition set_naivecamTolerance (v : R) (c : CanonConfig_t) : CanonConfig_t :=
  mkCanon (endPoint c) (programOrigin c) (toolOffset c) (xy_rotation c) (lengthUnits c)
    (activePlane c) (motionMode c) (motionTolerance c) v (feed_mode c) (linearFeedRate
    c) (angularFeedRate c) (spindleSpeed c) (css_maximum c) (css_numerator c)
    (cartesian_move c) (angular_move c) (synched c) (block_delete c)
    (optional_program_stop c).

Definition set_feed_mode (v : Z) (c : CanonConfig_t) : CanonConfig_t :=
  mkCanon (endPoint c) (programOrigin c) (toolOffset c) (xy_rotation c) (lengthUnits c)
    (activePlane c) (motionMode c) (motionTolerance c) (naivecamTolerance c) v
    (linearFeedRate c) (angularFeedRate c) (spindleSpeed c) (css_maximum c)
    (css_numerator c) (cartesian_move c) (angular_move c) (synched c) (block_delete c)
    (optional_program_stop c).

Definition set_linearFeedRate (v : R) (c : CanonConfig_t) : CanonConfig_t :=
  mkCanon (endPoint c) (programOrigin c) (toolOffset c) (xy_rotation c) (lengthUnits c)
    (activePlane c) (motionMode c) (motionTolerance c) (naivecamTolerance c) (feed_mode
    c) v (angularFeedRate c) (spindleSpeed c) (css_maximum c) (css_numerator c)
    (cartesian_move c) (angular_move c) (synched c) (block_delete c)
    (optional_program_stop c).

Definition set_angularFeedRate (v : R) (c : CanonConfig_t) : CanonConfig_t :=
  mkCanon (endPoint c) (programOrigin c) (toolOffset c) (xy_rotation c) (lengthUnits c)
    (activePlane c) (motionMode c) (motionTolerance c) (naivecamTolerance c) (feed_mode
    c) (linearFeedRate c) v (spindleSpeed c) (css_maximum c) (css_numerator c)
    (cartesian_move c) (angular_move c) (synched c) (block_delete c)
    (optional_program_stop c).

Definition set_spindleSpeed (v : R) (c : CanonConfig_t) : CanonConfig_t :=
  mkCanon (endPoint c) (programOrigin c) (toolOffset c) (xy_rotation c) (lengthUnits c)
    (activePlane c) (motionMode c) (motionTolerance c) (naivecamTolerance c) (feed_mode
    c) (linearFeedRate c) (angularFeedRate c) v (css_maximum c) (css_numerator c)
    (cartesian_move c) (angular_move c) (synched c) (block_delete c)
    (optional_program_stop c).

Definition set_css_maximum (v : R) (c : CanonConfig_t) : CanonConfig_t :=
  mkCanon (endPoint c) (programOrigin c) (toolOffset c) (xy_rotation c) (lengthUnits c)
    (activePlane c) (motionMode c) (motionTolerance c) (naivecamTolerance c) (feed_mode
    c) (linearFeedRate c) (angularFeedRate c) (spindleSpeed c) v (css_numerator c)
    (cartesian_move c) (angular_move c) (synched c) (block_delete c)
    (optional_program_stop c).

Definition set_css_numerator (v : R) (c : CanonConfig_t) : CanonConfig_t :=
  mkCanon (endPoint c) (programOrigin c) (toolOffset c) (xy_rotation c) (lengthUnits c)
    (activePlane c) (motionMode c) (motionTolerance c) (naivecamTolerance c) (feed_mode
    c) (linearFeedRate c) (angularFeedRate c) (spindleSpeed c) (css_maximum c) v
    (cartesian_move c) (angular_move c) (synched c) (block_delete c)
    (optional_program_stop c).

Definition set_cartesian_move (v : bool) (c : CanonConfig_t) : CanonConfig_t :=
  mkCanon (endPoint c) (programOrigin c) (toolOffset c) (xy_rotation c) (lengthUnits c)
    (activePlane c) (motionMode c) (motionTolerance c) (naivecamTolerance c) (feed_mode
    c) (linearFeedRate c) (angularFeedRate c) (spindleSpeed c) (css_maximum c)
    (css_numerator c) v (angular_move c) (synched c) (block_delete c)
    (optional_program_stop c).

Definition set_angular_move (v : bool) (c : CanonConfig_t) : CanonConfig_t :=
  mkCanon (endPoint c) (programOrigin c) (toolOffset c) (xy_rotation c) (lengthUnits c)
    (activePlane c) (motionMode c) (motionTolerance c) (naivecamTolerance c) (feed_mode
    c) (linearFeedRate c) (angularFeedRate c) (spindleSpeed c) (css_maximum c)
    (css_numerator c) (cartesian_move c) v (synched c) (block_delete c)
    (optional_program_stop c).

Definition set_synched (v : bool) (c : CanonConfig_t) : CanonConfig_t :=
  mkCanon (endPoint c) (programOrigin c) (toolOffset c) (xy_rotation c) (lengthUnits c)
    (activePlane c) (motionMode c) (motionTolerance c) (naivecamTolerance c) (feed_mode
    c) (linearFeedRate c) (angularFeedRate c) (spindleSpeed c) (css_maximum c)
    (css_numerator c) (cartesian_move c) (angular_move c) v (block_delete c)
    (optional_program_stop c).

Definition set_block_delete (v : bool) (c : CanonConfig_t) : CanonConfig_t :=
  mkCanon (endPoint c) (programOrigin c) (toolOffset c) (xy_rotation c) (lengthUnits c)
    (activePlane c) (motionMode c) (motionTolerance c) (naivecamTolerance c) (feed_mode
    c) (linearFeedRate c) (angularFeedRate c) (spindleSpeed c) (css_maximum c)
    (css_numerator c) (cartesian_move c) (angular_move c) (synched c) v
    (optional_program_stop c).

Definition set_optional_program_stop (v : bool) (c : CanonConfig_t) : CanonConfig_t :=
  mkCanon (endPoint c) (programOrigin c) (toolOffset c) (xy_rotation c) (lengthUnits c)
    (activePlane c) (motionMode c) (motionTolerance c) (naivecamTolerance c) (feed_mode
    c) (linearFeedRate c) (angularFeedRate c) (spindleSpeed c) (css_maximum c)
    (css_numerator c) (cartesian_move c) (angular_move c) (synched c) (block_delete c) v.
(** [struct pt { double x, y, z, a, b, c, u, v, w; int line_no; }] *)
Record pt : Type := mkPt {
  pt_x : R; pt_y : R; pt_z : R;
  pt_a : R; pt_b : R; pt_c : R;
  pt_u : R; pt_v : R; pt_w : R;
  line_no : Z
}.

(** ** Messages of the interpreter list *)

Inductive EMC_MOTION_TYPE : Type :=
  | EMC_MOTION_TYPE_TRAVERSE
  | EMC_MOTION_TYPE_FEED
  | EMC_MOTION_TYPE_PROBING.

Inductive EMC_TRAJ_TERM_COND : Type :=
  | EMC_TRAJ_TERM_COND_STOP
  | EMC_TRAJ_TERM_COND_BLEND.

Record EMC_TRAJ_LINEAR_MOVE_t : Type := mkLinearMove {
  lm_type : EMC_MOTION_TYPE;
  lm_end : EmcPose;
  lm_vel : R;
  lm_ini_maxvel : R;
  lm_acc : R;
  lm_ini_maxjerk : R;
  lm_feed_mode : Z
}.

Record EMC_TRAJ_RIGID_TAP_t : Type := mkRigidTap {
  rt_pos : EmcPose;
  rt_vel : R;
  rt_ini_maxvel : R;
  rt_acc : R
}.

(** The spindle messages: a member that the function leaves as the message's
    constructor made it is [None]. *)
Record EMC_SPINDLE_t : Type := mkSpindle {
  sp_speed : R;
  sp_factor : option R;
  sp_xoffset : option R
}.

Record EMC_AUX_INPUT_WAIT_t : Type := mkInputWait {
  iw_index : Z;
  iw_input_type : Z;
  iw_wait_type : Z;
  iw_timeout : R
}.

Inductive NMLmsg : Type :=
  | EMC_TRAJ_LINEAR_MOVE (msg : EMC_TRAJ_LINEAR_MOVE_t)
  | EMC_TRAJ_RIGID_TAP (msg : EMC_TRAJ_RIGID_TAP_t)
  | EMC_TRAJ_SET_ROTATION (rotation : R)
  | EMC_TRAJ_SET_ORIGIN (origin : EmcPose)
  | EMC_TRAJ_SET_OFFSET (offset : EmcPose)
  | EMC_TRAJ_SET_TERM_COND (cond : EMC_TRAJ_TERM_COND) (tolerance : option R)
  | EMC_TRAJ_SET_SPINDLESYNC (feed_per_revolution : R) (velocity_mode : bool)
  | EMC_SPINDLE_ON (msg : EMC_SPINDLE_t)
  | EMC_SPINDLE_SPEED (msg : EMC_SPINDLE_t)
  | EMC_AUX_INPUT_WAIT (msg : EMC_AUX_INPUT_WAIT_t).

(** ** The collaborators *)

(** What the functions read and never write: the status buffer [emcStatus],
    the axis limits of the axis configuration, constants of [motion.h] and
    [canon.hh], and the content of the local [vel] of [getStraightVelocity]
    before its first assignment. *)
Record Machine : Type := mkMachine {
  axis_mask : Z;
  linearUnits : R;
  angularUnits : R;
  emcAxisGetMaxVelocity : Z -> R;
  emcAxisGetMaxAcceleration : Z -> R;
  emcAxisGetMaxJerk : Z -> R;
  synch_di : Z -> Z;
  input_timeout : Z;
  EMCMOT_MAX_DIO : Z;
  EMCMOT_MAX_AIO : Z;
  DIGITAL_INPUT : Z;
  ANALOG_INPUT : Z;
  vel_indeterminate : R
}.

(** ** The state *)

(** Modelled from the spec: [interp_list] is an object of [interpl.hh];
    [set_line_number] records a line number and [append] adds a message at the
    end, each message carrying the line number recorded last. *)
Record World : Type := mkWorld {
  canon : CanonConfig_t;
  chained_points : list pt;
  interp_line : Z;
  interp_list : list (Z * NMLmsg);
  programUnits : CANON_UNITS
}.

Definition with_canon (f : CanonConfig_t -> CanonConfig_t) (w : World) : World :=
  mkWorld (f (canon w)) (chained_points w) (interp_line w) (interp_list w)
    (programUnits w).

Definition with_chained_points (l : list pt) (w : World) : World :=
  mkWorld (canon w) l (interp_line w) (interp_list w) (programUnits w).

Definition with_programUnits (u : CANON_UNITS) (w : World) : World :=
  mkWorld (canon w) (chained_points w) (interp_line w) (interp_list w) u.

Definition interp_set_line_number (n : Z) (w : World) : World :=
  mkWorld (canon w) (chained_points w) n (interp_list w) (programUnits w).

Definition interp_append (msg : NMLmsg) (w : World) : World :=
  mkWorld (canon w) (chained_points w) (interp_line w)
    (interp_list w ++ [(interp_line w, msg)]) (programUnits w).

(** ** Results *)

Inductive fault : Type :=
  | assertion_failed       (* an [assert] does not hold: the program aborts *)
  | external_units_zero    (* the configured length or angle unit is 0 *)
  | back_of_empty_vector.  (* [back()] of an empty [std::vector] *)

Inductive result (A : Type) : Type :=
  | Ok (a : A) (w : World)
  | Fault (f : fault).

Arguments Ok {A} a w.
Arguments Fault {A} f.

Definition M (A : Type) : Type := World -> result A.

Definition ret {A : Type} (a : A) : M A := fun w => Ok a w.

Definition bind {A B : Type} (c : M A) (k : A -> M B) : M B :=
  fun w => match c w with
           | Ok a w' => k a w'
           | Fault f => Fault f
           end.

Definition fail {A : Type} (f : fault) : M A := fun _ => Fault f.

Definition get_canon : M CanonConfig_t := fun w => Ok (canon w) w.

Definition modify (f : World -> World) : M unit := fun w => Ok tt (f w).

Definition assert (b : bool) : M unit :=
  if b then ret tt else fail assertion_failed.

Notation "x <- c1 ;; c2" := (bind c1 (fun x => c2))
  (at level 61, c1 at next level, right associativity).
Notation "c1 ;; c2" := (bind c1 (fun _ => c2))
  (at level 61, right associativity).

(** ** Units *)

(** [GET_EXTERNAL_LENGTH_UNITS] and [GET_EXTERNAL_ANGLE_UNITS] return the unit
    of the status buffer.  When the unit is 0 the source reports an operator
    error through [CANON_ERROR], which calls [flush_segments] and so these two
    functions again, and then returns 1.0; that branch is the fault
    [external_units_zero] here and is not followed further. *)
Definition GET_EXTERNAL_LENGTH_UNITS (m : Machine) : M R :=
  let u := linearUnits m in
  if Reqb u 0 then fail external_units_zero else ret u.

Definition GET_EXTERNAL_ANGLE_UNITS (m : Machine) : M R :=
  let u := angularUnits m in
  if Reqb u 0 then fail external_units_zero else ret u.

Definition TO_EXT_LEN (m : Machine) (mm : R) : M R :=
  u <- GET_EXTERNAL_LENGTH_UNITS m;; ret (mm * u).

Definition TO_EXT_ANG (m : Machine) (deg : R) : M R :=
  u <- GET_EXTERNAL_ANGLE_UNITS m;; ret (deg * u).

Definition FROM_EXT_LEN (m : Machine) (ext : R) : M R :=
  u <- GET_EXTERNAL_LENGTH_UNITS m;; ret (ext / u).

Definition FROM_EXT_ANG (m : Machine) (ext : R) : M R :=
  u <- GET_EXTERNAL_ANGLE_UNITS m;; ret (ext / u).

(** The factor of [TO_PROG_LEN] and [FROM_PROG_LEN]. *)
Definition prog_len_factor (c : CanonConfig_t) : R :=
  match lengthUnits c with
  | CANON_UNITS_INCHES => 254 / 10
  | CANON_UNITS_CM => 10
  | CANON_UNITS_MM => 1
  end.

Definition TO_PROG_LEN (c : CanonConfig_t) (mm : R) : R := mm / prog_len_factor c.
Definition TO_PROG_ANG (deg : R) : R := deg.
Definition FROM_PROG_LEN (c : CanonConfig_t) (prog : R) : R := prog * prog_len_factor c.
Definition FROM_PROG_ANG (prog : R) : R := prog.

(** ** Offsets and rotation *)

Definition offset_x (c : CanonConfig_t) (x : R) : R :=
  x + px (programOrigin c) + cx (tran (toolOffset c)).
Definition offset_y (c : CanonConfig_t) (y : R) : R :=
  y + py (programOrigin c) + cy (tran (toolOffset c)).
Definition offset_z (c : CanonConfig_t) (z : R) : R :=
  z + pz (programOrigin c) + cz (tran (toolOffset c)).
Definition offset_a (c : CanonConfig_t) (a : R) : R :=
  a + pa (programOrigin c) + ea (toolOffset c).
Definition offset_b (c : CanonConfig_t) (b : R) : R :=
  b + pb (programOrigin c) + eb (toolOffset c).
Definition offset_c (c : CanonConfig_t) (c0 : R) : R :=
  c0 + pc (programOrigin c) + ec (toolOffset c).
Definition offset_u (c : CanonConfig_t) (u : R) : R :=
  u + pu (programOrigin c) + eu (toolOffset c).
Definition offset_v (c : CanonConfig_t) (v : R) : R :=
  v + pv (programOrigin c) + ev (toolOffset c).
Definition offset_w (c : CanonConfig_t) (w : R) : R :=
  w + pw (programOrigin c) + ew (toolOffset c).

Definition unoffset_x (c : CanonConfig_t) (x : R) : R :=
  x - px (programOrigin c) - cx (tran (toolOffset c)).
Definition unoffset_y (c : CanonConfig_t) (y : R) : R :=
  y - py (programOrigin c) - cy (tran (toolOffset c)).
Definition unoffset_z (c : CanonConfig_t) (z : R) : R :=
  z - pz (programOrigin c) - cz (tran (toolOffset c)).
Definition unoffset_a (c : CanonConfig_t) (a : R) : R :=
  a - pa (programOrigin c) - ea (toolOffset c).
Definition unoffset_b (c : CanonConfig_t) (b : R) : R :=
  b - pb (programOrigin c) - eb (toolOffset c).
Definition unoffset_c (c : CanonConfig_t) (c0 : R) : R :=
  c0 - pc (programOrigin c) - ec (toolOffset c).
Definition unoffset_u (c : CanonConfig_t) (u : R) : R :=
  u - pu (programOrigin c) - eu (toolOffset c).
Definition unoffset_v (c : CanonConfig_t) (v : R) : R :=
  v - pv (programOrigin c) - ev (toolOffset c).
Definition unoffset_w (c : CanonConfig_t) (w : R) : R :=
  w - pw (programOrigin c) - ew (toolOffset c).

(** [rotate(double &x, double &y, double theta)]: the new [x] and [y]. *)
Definition rotate (x y theta : R) : R * R :=
  let t := D2R theta in
  (x * cos t - y * sin t, x * sin t + y * cos t).

(** The nine [double &] arguments of the source are the members of one
    [CANON_POSITION] here, and the result holds their values on return. *)
Definition rotate_and_offset_pos (c : CanonConfig_t) (p : CANON_POSITION)
  : CANON_POSITION :=
  let (x, y) := rotate (px p) (py p) (xy_rotation c) in
  mkPos (offset_x c x) (offset_y c y) (offset_z c (pz p))
        (offset_a c (pa p)) (offset_b c (pb p)) (offset_c c (pc p))
        (offset_u c (pu p)) (offset_v c (pv p)) (offset_w c (pw p)).

Definition unoffset_and_unrotate_pos (c : CanonConfig_t) (pos : CANON_POSITION)
  : CANON_POSITION :=
  let (x, y) := rotate (unoffset_x c (px pos)) (unoffset_y c (py pos))
                       (- xy_rotation c) in
  mkPos x y (unoffset_z c (pz pos))
        (unoffset_a c (pa pos)) (unoffset_b c (pb pos)) (unoffset_c c (pc pos))
        (unoffset_u c (pu pos)) (unoffset_v c (pv pos)) (unoffset_w c (pw pos)).

Definition from_prog (c : CanonConfig_t) (p : CANON_POSITION) : CANON_POSITION :=
  mkPos (FROM_PROG_LEN c (px p)) (FROM_PROG_LEN c (py p)) (FROM_PROG_LEN c (pz p))
        (FROM_PROG_ANG (pa p)) (FROM_PROG_ANG (pb p)) (FROM_PROG_ANG (pc p))
        (FROM_PROG_LEN c (pu p)) (FROM_PROG_LEN c (pv p)) (FROM_PROG_LEN c (pw p)).

Definition to_ext_pose (m : Machine) (p : CANON_POSITION) : M EmcPose :=
  x <- TO_EXT_LEN m (px p);;
  y <- TO_EXT_LEN m (py p);;
  z <- TO_EXT_LEN m (pz p);;
  a <- TO_EXT_ANG m (pa p);;
  b <- TO_EXT_ANG m (pb p);;
  c <- TO_EXT_ANG m (pc p);;
  u <- TO_EXT_LEN m (pu p);;
  v <- TO_EXT_LEN m (pv p);;
  w <- TO_EXT_LEN m (pw p);;
  ret (mkPose (mkCart x y z) a b c u v w).

(** [emcStatus->motion.traj.axis_mask & (1<<n)], used as a condition. *)
Definition axis_valid (m : Machine) (n : Z) : bool :=
  negb (Z.land (axis_mask m) (Z.shiftl 1 n) =? 0)%Z.

Definition canonUpdateEndPoint (p : CANON_POSITION) : M unit :=
  modify (with_canon (set_endPoint p)).

Definition toExtVel (m : Machine) (vel : R) : M R :=
  c <- get_canon;;
  if cartesian_move c && negb (angular_move c) then TO_EXT_LEN m vel
  else if negb (cartesian_move c) && angular_move c then TO_EXT_ANG m vel
  else if cartesian_move c && angular_move c then TO_EXT_LEN m vel
  else TO_EXT_LEN m vel.

Definition toExtAcc (m : Machine) (acc : R) : M R := toExtVel m acc.

(** ** Kinematic envelope *)

(** [d = fabs(target - current); if(!axis_valid(n) || d < tiny) d = 0.0;] *)
Definition travel (m : Machine) (n : Z) (target current : R) : R :=
  let d := Rabs (target - current) in
  if negb (axis_valid m n) || Rltb d tiny then 0 else d.

(** The nine distances [dx .. dw] of a move from [e] to [p]; the axes are
    numbered x 0, y 1, z 2, a 3, b 4, c 5, u 6, v 7, w 8. *)
Definition travels (m : Machine) (p e : CANON_POSITION) : CANON_POSITION :=
  mkPos (travel m 0 (px p) (px e)) (travel m 1 (py p) (py e))
        (travel m 2 (pz p) (pz e))
        (travel m 3 (pa p) (pa e)) (travel m 4 (pb p) (pb e))
        (travel m 5 (pc p) (pc e))
        (travel m 6 (pu p) (pu e)) (travel m 7 (pv p) (pv e))
        (travel m 8 (pw p) (pw e)).

Definition is_cartesian_move (d : CANON_POSITION) : bool :=
  negb (Rleb (px d) 0 && Rleb (py d) 0 && Rleb (pz d) 0 &&
        Rleb (pu d) 0 && Rleb (pv d) 0 && Rleb (pw d) 0).

Definition is_angular_move (d : CANON_POSITION) : bool :=
  negb (Rleb (pa d) 0 && Rleb (pb d) 0 && Rleb (pc d) 0).

(** [(d ? limit : huge)] *)
Definition moving (d limit : R) : R := if nonzero d then limit else huge.

Definition linear_limit (limit : Z -> R) (d : CANON_POSITION) : R :=
  MIN4 (MIN3 (moving (px d) (limit 0%Z)) (moving (py d) (limit 1%Z))
             (moving (pz d) (limit 2%Z)))
       (moving (pu d) (limit 6%Z)) (moving (pv d) (limit 7%Z))
       (moving (pw d) (limit 8%Z)).

Definition angular_limit (limit : Z -> R) (d : CANON_POSITION) : R :=
  MIN3 (moving (pa d) (limit 3%Z)) (moving (pb d) (limit 4%Z))
       (moving (pc d) (limit 5%Z)).

(** [getStraightJerk], [getStraightAcceleration] and [getStraightVelocity]
    are three copies of one text that differ in the axis limit they ask for and
    in the value their local variable holds when no branch assigns it, a move to
    nowhere.  [straight_limit] is that text: it computes the distances, sets
    [canon.cartesian_move] and [canon.angular_move], and takes the minimum over
    the moving axes. *)
Definition straight_limit (m : Machine) (limit : Z -> R) (nowhere : R)
    (p : CANON_POSITION) : M R :=
  c <- get_canon;;
  let d := travels m p (endPoint c) in
  let cart := is_cartesian_move d in
  let ang := is_angular_move d in
  modify (with_canon (fun c => set_angular_move ang (set_cartesian_move cart c)));;
  if cart && negb ang then
    v <- FROM_EXT_LEN m (linear_limit limit d);;
    assert (Rgtb v 0);;
    ret v
  else if negb cart && ang then
    v <- FROM_EXT_ANG m (angular_limit limit d);;
    assert (Rgtb v 0);;
    ret v
  else if cart && ang then
    v <- FROM_EXT_LEN m (linear_limit limit d);;
    ang_v <- FROM_EXT_ANG m (angular_limit limit d);;
    let v := MIN v ang_v in
    assert (Rgtb v 0);;
    ret v
  else ret nowhere.

(** [jerk = 0.0; // if a move to nowhere] *)
Definition getStraightJerk (m : Machine) (p : CANON_POSITION) : M R :=
  straight_limit m (emcAxisGetMaxJerk m) 0 p.

(** [acc = 0.0; // if a move to nowhere] *)
Definition getStraightAcceleration (m : Machine) (p : CANON_POSITION) : M R :=
  straight_limit m (emcAxisGetMaxAcceleration m) 0 p.

(** [double vel;] has no initial value, and the function ends with
    [vel = MIN(vel, canon.linearFeedRate); return vel;]. *)
Definition getStraightVelocity (m : Machine) (p : CANON_POSITION) : M R :=
  vel <- straight_limit m (emcAxisGetMaxVelocity m) (vel_indeterminate m) p;;
  c <- get_canon;;
  ret (MIN vel (linearFeedRate c)).

(** ** Segment buffer *)

Definition pt_pos (q : pt) : CANON_POSITION :=
  mkPos (pt_x q) (pt_y q) (pt_z q) (pt_a q) (pt_b q) (pt_c q)
        (pt_u q) (pt_v q) (pt_w q).

Definition pos_pt (p : CANON_POSITION) (line_number : Z) : pt :=
  mkPt (px p) (py p) (pz p) (pa p) (pb p) (pc p) (pu p) (pv p) (pw p)
       line_number.

(** [chained_points().back()]: the last element, if there is one. *)
Fixpoint back (l : list pt) : option pt :=
  match l with
  | [] => None
  | [q] => Some q
  | _ :: l' => back l'
  end.

(** The feed clamp of [flush_segments] (and of [STRAIGHT_PROBE]). *)
Definition clamp_feed (c : CanonConfig_t) (vel : R) : R :=
  if cartesian_move c && negb (angular_move c) then
    if Rgtb vel (linearFeedRate c) then linearFeedRate c else vel
  else if negb (cartesian_move c) && angular_move c then
    if Rgtb vel (angularFeedRate c) then angularFeedRate c else vel
  else if cartesian_move c && angular_move c then
    if Rgtb vel (linearFeedRate c) then linearFeedRate c else vel
  else vel.

Definition flush_segments (m : Machine) : M unit :=
  fun w0 =>
  match back (chained_points w0) with
  | None => Ok tt w0
  | Some pos =>
    (let p := pt_pos pos in
     ini_maxvel <- getStraightVelocity m p;;
     c <- get_canon;;
     let vel := clamp_feed c ini_maxvel in
     x <- TO_EXT_LEN m (px p);;
     y <- TO_EXT_LEN m (py p);;
     z <- TO_EXT_LEN m (pz p);;
     u <- TO_EXT_LEN m (pu p);;
     v <- TO_EXT_LEN m (pv p);;
     w <- TO_EXT_LEN m (pw p);;
     a <- TO_EXT_ANG m (pa p);;
     b <- TO_EXT_ANG m (pb p);;
     c0 <- TO_EXT_ANG m (pc p);;
     ext_vel <- toExtVel m vel;;
     ext_ini_maxvel <- toExtVel m ini_maxvel;;
     jerk <- getStraightJerk m p;;
     ext_jerk <- TO_EXT_LEN m jerk;;
     acc <- getStraightAcceleration m p;;
     ext_acc <- toExtAcc m acc;;
     let linearMoveMsg :=
       mkLinearMove EMC_MOTION_TYPE_FEED
         (mkPose (mkCart x y z) a b c0 u v w)
         ext_vel ext_ini_maxvel ext_acc ext_jerk (feed_mode c) in
     c1 <- get_canon;;
     (if nonzero vel && nonzero acc || synched c1 then
        modify (interp_set_line_number (line_no pos));;
        modify (interp_append (EMC_TRAJ_LINEAR_MOVE linearMoveMsg))
      else ret tt);;
     canonUpdateEndPoint p;;
     modify (with_chained_points [])) w0
  end.

(** Modelled from the spec: [dot], [mag] and the arithmetic of [PM_CARTESIAN]
    are those of the pose-mathematics library: the inner product, the
    Euclidean length, and the operations coordinate by coordinate. *)
Definition dot (v1 v2 : PmCartesian) : R :=
  cx v1 * cx v2 + cy v1 * cy v2 + cz v1 * cz v2.

Definition mag (v : PmCartesian) : R := sqrt (dot v v).

Definition cart_add (v1 v2 : PmCartesian) : PmCartesian :=
  mkCart (cx v1 + cx v2) (cy v1 + cy v2) (cz v1 + cz v2).

Definition cart_sub (v1 v2 : PmCartesian) : PmCartesian :=
  mkCart (cx v1 - cx v2) (cy v1 - cy v2) (cz v1 - cz v2).

Definition cart_scale (s : R) (v : PmCartesian) : PmCartesian :=
  mkCart (s * cx v) (s * cy v) (s * cz v).

(** The body of the loop of [linkable]: the distance [D] of the buffered
    point [it] from the segment that runs from the end point to [(x, y, z)]. *)
Definition chord_distance (c : CanonConfig_t) (x y z : R) (it : pt) : R :=
  let e := endPoint c in
  let M0 := mkCart (x - px e) (y - py e) (z - pz e) in
  let B := mkCart (px e) (py e) (pz e) in
  let P := mkCart (pt_x it) (pt_y it) (pt_z it) in
  let t0 := dot M0 (cart_sub P B) / dot M0 M0 in
  let t0 := if Rltb t0 0 then 0 else t0 in
  let t0 := if Rgtb t0 1 then 1 else t0 in
  mag (cart_sub P (cart_add B (cart_scale t0 M0))).

Fixpoint linkable_loop (c : CanonConfig_t) (x y z : R) (its : list pt) : bool :=
  match its with
  | [] => true
  | it :: rest =>
    if Rgtb (chord_distance c x y z it) (naivecamTolerance c) then false
    else linkable_loop c x y z rest
  end.

Definition linkable (p : CANON_POSITION) : M bool :=
  fun w =>
  match back (chained_points w) with
  | None => Fault back_of_empty_vector
  | Some pos =>
    let c := canon w in
    if negb (CANON_MOTION_MODE_eqb (motionMode c) CANON_CONTINUOUS)
       || Reqb (naivecamTolerance c) 0 then Ok false w
    else if (100 <? length (chained_points w))%nat then Ok false w
    else if Rneb (pa p) (pt_a pos) then Ok false w
    else if Rneb (pb p) (pt_b pos) then Ok false w
    else if Rneb (pc p) (pt_c pos) then Ok false w
    else if Rneb (pu p) (pt_u pos) then Ok false w
    else if Rneb (pv p) (pt_v pos) then Ok false w
    else if Rneb (pw p) (pt_w pos) then Ok false w
    else if Reqb (px p) (px (endPoint c)) && Reqb (py p) (py (endPoint c))
            && Reqb (pz p) (pz (endPoint c)) then Ok false w
    else Ok (linkable_loop c (px p) (py p) (pz p) (chained_points w)) w
  end.

Definition is_empty (l : list pt) : bool :=
  match l with [] => true | _ => false end.

Definition see_segment (m : Machine) (line_number : Z) (p : CANON_POSITION)
  : M unit :=
  c <- get_canon;;
  let changed_abc := Rneb (pa p) (pa (endPoint c))
                     || Rneb (pb p) (pb (endPoint c))
                     || Rneb (pc p) (pc (endPoint c)) in
  let changed_uvw := Rneb (pu p) (pu (endPoint c))
                     || Rneb (pv p) (pv (endPoint c))
                     || Rneb (pw p) (pw (endPoint c)) in
  (fun w =>
     if negb (is_empty (chained_points w)) then
       (l <- linkable p;; if negb l then flush_segments m else ret tt) w
     else Ok tt w);;
  modify (fun w => with_chained_points
                     (chained_points w ++ [pos_pt p line_number]) w);;
  if changed_abc || changed_uvw then flush_segments m else ret tt.

Definition FINISH (m : Machine) : M unit := flush_segments m.

Definition STRAIGHT_FEED (m : Machine) (line_number : Z) (p : CANON_POSITION)
  : M unit :=
  c <- get_canon;;
  let p := from_prog c p in
  let p := rotate_and_offset_pos c p in
  see_segment m line_number p.

Definition RIGID_TAP (m : Machine) (line_number : Z) (x y z : R) : M unit :=
  c <- get_canon;;
  let q := rotate_and_offset_pos c (from_prog c (mkPos x y z 0 0 0 0 0 0)) in
  let e := endPoint c in
  let p := mkPos (px q) (py q) (pz q) (pa e) (pb e) (pc e) (pu e) (pv e) (pw e) in
  vel <- getStraightVelocity m p;;
  let ini_maxvel := vel in
  acc <- getStraightAcceleration m p;;
  pos <- to_ext_pose m p;;
  ext_vel <- toExtVel m vel;;
  ext_ini_maxvel <- toExtVel m ini_maxvel;;
  ext_acc <- toExtAcc m acc;;
  let rigidTapMsg := mkRigidTap pos ext_vel ext_ini_maxvel ext_acc in
  flush_segments m;;
  if nonzero vel && nonzero acc then
    modify (interp_set_line_number line_number);;
    modify (interp_append (EMC_TRAJ_RIGID_TAP rigidTapMsg))
  else ret tt.

(** ** Canonical state *)

(** The message that carries the spindle speed in constant-surface-speed
    mode: [speed], [factor] and [xoffset]. *)
Definition css_speed_msg (m : Machine) (c : CanonConfig_t) : M EMC_SPINDLE_t :=
  xoffset <- TO_EXT_LEN m (px (programOrigin c) + cx (tran (toolOffset c)));;
  ret (mkSpindle (css_maximum c) (Some (css_numerator c)) (Some xoffset)).

Definition send_origin_msg (m : Machine) : M unit :=
  flush_segments m;;
  c <- get_canon;;
  let o := programOrigin c in
  x <- TO_EXT_LEN m (px o);;
  y <- TO_EXT_LEN m (py o);;
  z <- TO_EXT_LEN m (pz o);;
  a <- TO_EXT_ANG m (pa o);;
  b <- TO_EXT_ANG m (pb o);;
  c0 <- TO_EXT_ANG m (pc o);;
  u <- TO_EXT_LEN m (pu o);;
  v <- TO_EXT_LEN m (pv o);;
  w <- TO_EXT_LEN m (pw o);;
  (if nonzero (css_maximum c) then
     msg <- css_speed_msg m c;;
     modify (interp_append (EMC_SPINDLE_SPEED msg))
   else ret tt);;
  modify (interp_append (EMC_TRAJ_SET_ORIGIN (mkPose (mkCart x y z) a b c0 u v w))).

Definition SET_XY_ROTATION (t : R) : M unit :=
  modify (interp_append (EMC_TRAJ_SET_ROTATION t));;
  modify (with_canon (set_xy_rotation t)).

Definition SET_ORIGIN_OFFSETS (m : Machine) (p : CANON_POSITION) : M unit :=
  c <- get_canon;;
  modify (with_canon (set_programOrigin (from_prog c p)));;
  send_origin_msg m.

Definition USE_LENGTH_UNITS (in_unit : CANON_UNITS) : M unit :=
  modify (with_canon (set_lengthUnits in_unit));;
  modify (with_programUnits in_unit).

Definition START_SPEED_FEED_SYNCH (m : Machine) (feed_per_revolution : R)
    (velocity_mode : bool) : M unit :=
  flush_segments m;;
  c <- get_canon;;
  fpr <- TO_EXT_LEN m (FROM_PROG_LEN c feed_per_revolution);;
  modify (interp_append (EMC_TRAJ_SET_SPINDLESYNC fpr velocity_mode));;
  modify (with_canon (set_synched true)).

Definition STOP_SPEED_FEED_SYNCH (m : Machine) : M unit :=
  flush_segments m;;
  modify (interp_append (EMC_TRAJ_SET_SPINDLESYNC 0 false));;
  modify (with_canon (set_synched false)).

Definition SET_FEED_MODE (m : Machine) (mode : Z) : M unit :=
  flush_segments m;;
  modify (with_canon (set_feed_mode mode));;
  if (mode =? 0)%Z then STOP_SPEED_FEED_SYNCH m else ret tt.

Definition SET_FEED_RATE (m : Machine) (rate : R) : M unit :=
  c <- get_canon;;
  if negb (feed_mode c =? 0)%Z then
    START_SPEED_FEED_SYNCH m rate true;;
    modify (with_canon (set_linearFeedRate rate))
  else
    let rate := rate / 60 in
    let newLinearFeedRate := FROM_PROG_LEN c rate in
    let newAngularFeedRate := FROM_PROG_ANG rate in
    (if Rneb newLinearFeedRate (linearFeedRate c)
        || Rneb newAngularFeedRate (angularFeedRate c)
     then flush_segments m else ret tt);;
    modify (with_canon (set_linearFeedRate newLinearFeedRate));;
    modify (with_canon (set_angularFeedRate newAngularFeedRate)).

Definition SET_MOTION_CONTROL_MODE (m : Machine) (mode : CANON_MOTION_MODE)
    (tolerance : R) : M unit :=
  flush_segments m;;
  modify (with_canon (set_motionMode mode));;
  modify (with_canon (fun c => set_motionTolerance (FROM_PROG_LEN c tolerance) c));;
  match mode with
  | CANON_CONTINUOUS =>
    c <- get_canon;;
    t <- TO_EXT_LEN m (motionTolerance c);;
    modify (interp_append (EMC_TRAJ_SET_TERM_COND EMC_TRAJ_TERM_COND_BLEND (Some t)))
  | _ =>
    modify (interp_append (EMC_TRAJ_SET_TERM_COND EMC_TRAJ_TERM_COND_STOP None))
  end.

Definition SET_NAIVECAM_TOLERANCE (tolerance : R) : M unit :=
  modify (with_canon (fun c => set_naivecamTolerance (FROM_PROG_LEN c tolerance) c)).

Definition SELECT_PLANE (in_plane : CANON_PLANE) : M unit :=
  modify (with_canon (set_activePlane in_plane)).

Definition SET_BLOCK_DELETE (state : bool) : M unit :=
  modify (with_canon (set_block_delete state)).

Definition SET_OPTIONAL_PROGRAM_STOP (state : bool) : M unit :=
  modify (with_canon (set_optional_program_stop state)).

Definition USE_TOOL_LENGTH_OFFSET (m : Machine) (offset : EmcPose) : M unit :=
  flush_segments m;;
  modify (with_canon (fun c =>
    set_toolOffset
      (mkPose (mkCart (FROM_PROG_LEN c (cx (tran offset)))
                      (FROM_PROG_LEN c (cy (tran offset)))
                      (FROM_PROG_LEN c (cz (tran offset))))
              (FROM_PROG_ANG (ea offset)) (FROM_PROG_ANG (eb offset))
              (FROM_PROG_ANG (ec offset))
              (FROM_PROG_LEN c (eu offset)) (FROM_PROG_LEN c (ev offset))
              (FROM_PROG_LEN c (ew offset))) c));;
  c <- get_canon;;
  let o := toolOffset c in
  x <- TO_EXT_LEN m (cx (tran o));;
  y <- TO_EXT_LEN m (cy (tran o));;
  z <- TO_EXT_LEN m (cz (tran o));;
  a <- TO_EXT_ANG m (ea o);;
  b <- TO_EXT_ANG m (eb o);;
  c0 <- TO_EXT_ANG m (ec o);;
  u <- TO_EXT_LEN m (eu o);;
  v <- TO_EXT_LEN m (ev o);;
  w <- TO_EXT_LEN m (ew o);;
  (if nonzero (css_maximum c) then
     msg <- css_speed_msg m c;;
     modify (interp_append (EMC_SPINDLE_SPEED msg))
   else ret tt);;
  modify (interp_append (EMC_TRAJ_SET_OFFSET (mkPose (mkCart x y z) a b c0 u v w))).

(** ** Spindle *)

Definition SET_SPINDLE_MODE (css_max : R) : M unit :=
  modify (with_canon (set_css_maximum css_max)).

Definition START_SPINDLE_CLOCKWISE (m : Machine) : M unit :=
  flush_segments m;;
  c <- get_canon;;
  (if nonzero (css_maximum c) then
     (if CANON_UNITS_eqb (lengthUnits c) CANON_UNITS_INCHES then
        e <- TO_EXT_LEN m (254 / 10);;
        modify (with_canon (set_css_numerator (12 / (2 * PI) * spindleSpeed c * e)))
      else
        e <- TO_EXT_LEN m 1;;
        modify (with_canon (set_css_numerator (1000 / (2 * PI) * spindleSpeed c * e))));;
     c <- get_canon;;
     msg <- css_speed_msg m c;;
     modify (interp_append (EMC_SPINDLE_ON msg))
   else
     modify (with_canon (set_css_numerator 0));;
     modify (interp_append (EMC_SPINDLE_ON (mkSpindle (spindleSpeed c) None None)))).

Definition START_SPINDLE_COUNTERCLOCKWISE (m : Machine) : M unit :=
  flush_segments m;;
  c <- get_canon;;
  (if nonzero (css_maximum c) then
     (if CANON_UNITS_eqb (lengthUnits c) CANON_UNITS_INCHES then
        modify (with_canon (set_css_numerator (-12 / (2 * PI) * spindleSpeed c)))
      else
        modify (with_canon (set_css_numerator (-1000 / (2 * PI) * spindleSpeed c))));;
     c <- get_canon;;
     msg <- css_speed_msg m c;;
     modify (interp_append (EMC_SPINDLE_ON msg))
   else
     modify (with_canon (set_css_numerator 0));;
     modify (interp_append (EMC_SPINDLE_ON (mkSpindle (- spindleSpeed c) None None)))).

Definition SET_SPINDLE_SPEED (m : Machine) (r : R) : M unit :=
  modify (with_canon (set_spindleSpeed r));;
  flush_segments m;;
  c <- get_canon;;
  (if nonzero (css_maximum c) then
     (if CANON_UNITS_eqb (lengthUnits c) CANON_UNITS_INCHES then
        modify (with_canon (set_css_numerator (12 / (2 * PI) * spindleSpeed c)))
      else
        modify (with_canon (set_css_numerator (1000 / (2 * PI) * spindleSpeed c))));;
     c <- get_canon;;
     msg <- css_speed_msg m c;;
     modify (interp_append (EMC_SPINDLE_SPEED msg))
   else
     modify (with_canon (set_css_numerator 0));;
     modify (interp_append (EMC_SPINDLE_SPEED (mkSpindle (spindleSpeed c) None None)))).

(** ** Inputs *)

(** [int GET_EXTERNAL_DIGITAL_INPUT(int index, int def)]: a read of the
    status buffer. *)
Definition GET_EXTERNAL_DIGITAL_INPUT (m : Machine) (index def : Z) : Z :=
  if ((index <? 0) || (index >=? EMCMOT_MAX_DIO m))%Z then (-1)%Z
  else if (input_timeout m =? 1)%Z then (-1)%Z
  else if negb (synch_di m index =? 0)%Z then 1%Z else 0%Z.

Definition WAIT (m : Machine) (index input_type wait_type : Z) (timeout : R)
  : M Z :=
  let bad_index :=
    if (input_type =? DIGITAL_INPUT m)%Z then
      ((index <? 0) || (index >=? EMCMOT_MAX_DIO m))%Z
    else if (input_type =? ANALOG_INPUT m)%Z then
      ((index <? 0) || (index >=? EMCMOT_MAX_AIO m))%Z
    else false in
  if bad_index then ret (-1)%Z
  else
    flush_segments m;;
    modify (interp_append
              (EMC_AUX_INPUT_WAIT (mkInputWait index input_type wait_type timeout)));;
    ret 0%Z.

(** ** Well-configured machines *)

(** A machine whose units and whose limits of the nine axes are positive, as
    an ini file sets them; on it no [assert] of the envelope functions
    fails. *)
Definition machine_ok (m : Machine) : Prop :=
  0 < linearUnits m /\ 0 < angularUnits m /\
  forall n : Z, (0 <= n <= 8)%Z ->
    0 < emcAxisGetMaxVelocity m n /\
    0 < emcAxisGetMaxAcceleration m n /\
    0 < emcAxisGetMaxJerk m n.

(** The world after [straight_limit] has set [canon.cartesian_move] and
    [canon.angular_move] for a move to [p]. *)
Definition classified (m : Machine) (p : CANON_POSITION) (w : World) : World :=
  let d := travels m p (endPoint (canon w)) in
  with_canon (fun c => set_angular_move (is_angular_move d)
                         (set_cartesian_move (is_cartesian_move d) c)) w.

(** ** The machine and the state of the end-to-end scenarios *)

(** The setup of the scenarios of the specification: the axis mask holds x, y
    and z only, the units are 1, every maximum velocity is 100, every maximum
    acceleration 1000 and every maximum jerk 10000.  The scenarios do not use
    the inputs; the remaining members are given some value. *)
Definition scenario_machine : Machine :=
  mkMachine 7 1 1 (fun _ => 100) (fun _ => 1000) (fun _ => 10000)
            (fun _ => 0%Z) 0 64 16 1 0 0.

Definition zero_position : CANON_POSITION := mkPos 0 0 0 0 0 0 0 0 0.

Definition zero_pose : EmcPose := mkPose (mkCart 0 0 0) 0 0 0 0 0 0.

(** The state [INIT_CANON] leaves (origin, tool offset, rotation, end point,
    feed mode and feed rates 0, millimetres, continuous mode) with the
    naive-cam tolerance 0.1 of the scenarios, an empty buffer and an empty
    interpreter list. *)
Definition scenario_canon : CanonConfig_t :=
  mkCanon zero_position zero_position zero_pose 0 CANON_UNITS_MM CANON_PLANE_XY
          CANON_CONTINUOUS 0 (1 / 10) 0 0 0 0 0 0 false false false true true.

Definition scenario_world : World :=
  mkWorld scenario_canon [] 0 [] CANON_UNITS_MM.

(** The scenario state with the feed rate 10 and the feed to (10, 0, 0) of
    line 10 waiting in the buffer. *)
Definition pending_world : World :=
  with_chained_points [mkPt 10 0 0 0 0 0 0 0 0 10]
    (with_canon (fun c => set_angularFeedRate 10 (set_linearFeedRate 10 c))
       scenario_world).

(** ** A move to nowhere *)

(** An axis does not count in a move from [current] to [target]: it is absent
    from the axis mask, or its distance is below [tiny]. *)
Definition axis_still (m : Machine) (n : Z) (target current : R) : Prop :=
  axis_valid m n = false \/ Rabs (target - current) < tiny.

(** No axis counts in the move from [e] to [p]. *)
Definition no_motion (m : Machine) (p e : CANON_POSITION) : Prop :=
  axis_still m 0 (px p) (px e) /\ axis_still m 1 (py p) (py e) /\
  axis_still m 2 (pz p) (pz e) /\
  axis_still m 3 (pa p) (pa e) /\ axis_still m 4 (pb p) (pb e) /\
  axis_still m 5 (pc p) (pc e) /\
  axis_still m 6 (pu p) (pu e) /\ axis_still m 7 (pv p) (pv e) /\
  axis_still m 8 (pw p) (pw e).

(** The scenario state with the feed rate 10 and nothing in the buffer. *)
Definition feeding_world : World :=
  with_canon (fun c => set_angularFeedRate 10 (set_linearFeedRate 10 c))
    scenario_world.

(** ** Scenario 1 *)

(** The end point of the feed of scenario 1. *)
Definition feed_target : CANON_POSITION := mkPos 10 0 0 0 0 0 0 0 0.

(** [SET_FEED_RATE(600)], [STRAIGHT_FEED(10, 10, 0, 0, ...)], and the flush
    of [FINISH]. *)
Definition scenario1_program (m : Machine) : M unit :=
  SET_FEED_RATE m 600;;
  STRAIGHT_FEED m 10 feed_target;;
  FINISH m.

(** The linear move the program appends, and the state it ends in. *)
Definition scenario1_move : EMC_TRAJ_LINEAR_MOVE_t :=
  mkLinearMove EMC_MOTION_TYPE_FEED (mkPose (mkCart 10 0 0) 0 0 0 0 0 0)
               10 10 1000 10000 0.

Definition scenario1_final : World :=
  mkWorld
    (set_endPoint feed_target
       (set_angular_move false (set_cartesian_move true (canon feeding_world))))
    [] 10 [(10%Z, EMC_TRAJ_LINEAR_MOVE scenario1_move)] CANON_UNITS_MM.

(** ** Predicates of the properties *)

(** The index of an input wait that [WAIT] rejects. *)
Definition bad_wait_index (m : Machine) (index input_type : Z) : Prop :=
  (input_type = DIGITAL_INPUT m /\ (index < 0 \/ index >= EMCMOT_MAX_DIO m))%Z \/
  (input_type = ANALOG_INPUT m /\ (index < 0 \/ index >= EMCMOT_MAX_AIO m))%Z.

(** The internal target of [RIGID_TAP(line, x, y, z)]: the converted,
    rotated and offset [x], [y], [z], and the other six coordinates of the
    end point. *)
Definition tap_target (c : CanonConfig_t) (x y z : R) : CANON_POSITION :=
  let q := rotate_and_offset_pos c (from_prog c (mkPos x y z 0 0 0 0 0 0)) in
  let e := endPoint c in
  mkPos (px q) (py q) (pz q) (pa e) (pb e) (pc e) (pu e) (pv e) (pw e).

(** An assignment [s] to [canon] that [flush_segments] does not see: it keeps
    the members the flush reads and commutes with the assignments the flush
    makes. *)
Definition unseen_by_flush (s : CanonConfig_t -> CanonConfig_t) : Prop :=
  (forall c, endPoint (s c) = endPoint c) /\
  (forall c, linearFeedRate (s c) = linearFeedRate c) /\
  (forall c, angularFeedRate (s c) = angularFeedRate c) /\
  (forall c, feed_mode (s c) = feed_mode c) /\
  (forall c, synched (s c) = synched c) /\
  (forall c, cartesian_move (s c) = cartesian_move c) /\
  (forall c, angular_move (s c) = angular_move c) /\
  (forall b c, s (set_cartesian_move b c) = set_cartesian_move b (s c)) /\
  (forall b c, s (set_angular_move b c) = set_angular_move b (s c)) /\
  (forall p c, s (set_endPoint p c) = set_endPoint p (s c)).

(** Two worlds that differ by the assignment [s] and by the messages that
    were on the interpreter list before: [pre] in the first, [post] in the
    second, followed by the same messages in both. *)
Definition similar (s : CanonConfig_t -> CanonConfig_t)
    (pre post : list (Z * NMLmsg)) (w w2 : World) : Prop :=
  canon w2 = s (canon w) /\
  chained_points w2 = chained_points w /\
  interp_line w2 = interp_line w /\
  exists tail, interp_list w = pre ++ tail /\ interp_list w2 = post ++ tail.

Definition similar_result {A : Type} (s : CanonConfig_t -> CanonConfig_t)
    (pre post : list (Z * NMLmsg)) (r r2 : result A) : Prop :=
  match r, r2 with
  | Ok a w, Ok a2 w2 => a = a2 /\ similar s pre post w w2
  | Fault f, Fault f2 => f = f2
  | _, _ => False
  end.

(** A function that leaves the segment buffer as it is, and one that
    leaves it empty, whenever it returns. *)
Definition keeps_buffer {A : Type} (c : M A) : Prop :=
  forall (w w' : World) (a : A), c w = Ok a w' -> chained_points w' = chained_points w.

Definition empties_buffer {A : Type} (c : M A) : Prop :=
  forall (w w' : World) (a : A), c w = Ok a w' -> chained_points w' = [].

(** ** Linkable, in the words of the specification *)

(** The distance of [P] from the segment that spans from [B] to [Q]: with
    [M = Q - B], the projection parameter [t = <M, P - B> / <M, M>] clamped to
    [0, 1], and [D = |P - (B + t M)|]. *)
Definition distance_to_segment (B Q P : PmCartesian) : R :=
  let M0 := cart_sub Q B in
  let t := Rmax 0 (Rmin 1 (dot M0 (cart_sub P B) / dot M0 M0)) in
  mag (cart_sub P (cart_add B (cart_scale t M0))).

Definition xyz_of_pos (p : CANON_POSITION) : PmCartesian :=
  mkCart (px p) (py p) (pz p).

Definition xyz_of_pt (q : pt) : PmCartesian :=
  mkCart (pt_x q) (pt_y q) (pt_z q).

(** The candidate [p] is linkable to the buffer of [w], the buffer being
    allowed fewer than [size_limit] entries. *)
Definition linkable_spec (size_limit : nat) (w : World) (p : CANON_POSITION) : Prop :=
  motionMode (canon w) = CANON_CONTINUOUS /\
  0 < naivecamTolerance (canon w) /\
  (length (chained_points w) < size_limit)%nat /\
  (exists pos, back (chained_points w) = Some pos /\
               pa p = pt_a pos /\ pb p = pt_b pos /\ pc p = pt_c pos /\
               pu p = pt_u pos /\ pv p = pt_v pos /\ pw p = pt_w pos) /\
  xyz_of_pos p <> xyz_of_pos (endPoint (canon w)) /\
  forall P, In P (chained_points w) ->
            distance_to_segment (xyz_of_pos (endPoint (canon w))) (xyz_of_pos p)
                                (xyz_of_pt P)
            <= naivecamTolerance (canon w).

(** The scenario state with the feed rate 10 and one hundred feeds to
    (1, 0, 0) in the buffer, and a further feed to (2, 0, 0). *)
Definition full_world : World :=
  with_chained_points (repeat (mkPt 1 0 0 0 0 0 0 0 0 10) 100) feeding_world.

Definition next_target : CANON_POSITION := mkPos 2 0 0 0 0 0 0 0 0.

(** ** Constant surface speed *)

(** The numerator the specification gives for a program in inches. *)
Definition css_numerator_inches (spindleSpeed : R) : R :=
  (254 / 10 * 12) / (2 * PI) * spindleSpeed.

(** The scenario state with a program in inches, the spindle speed 1000 and
    constant surface speed with the maximum 3000. *)
Definition css_inch_world : World :=
  with_canon (fun c => set_spindleSpeed 1000
                         (set_css_maximum 3000
                            (set_lengthUnits CANON_UNITS_INCHES c)))
    scenario_world.

(** ** Further functions of [emccanon.cc] *)

(** [static void to_prog(CANON_POSITION &e)] *)
Definition to_prog (c : CanonConfig_t) (e : CANON_POSITION) : CANON_POSITION :=
  mkPos (TO_PROG_LEN c (px e)) (TO_PROG_LEN c (py e)) (TO_PROG_LEN c (pz e))
        (TO_PROG_ANG (pa e)) (TO_PROG_ANG (pb e)) (TO_PROG_ANG (pc e))
        (TO_PROG_LEN c (pu e)) (TO_PROG_LEN c (pv e)) (TO_PROG_LEN c (pw e)).

(** ** Axes of a move *)

(** The coordinate of axis [n] (x 0, y 1, z 2, a 3, b 4, c 5, u 6, v 7, w 8). *)
Definition coordinate (p : CANON_POSITION) (n : Z) : R :=
  match n with
  | 0%Z => px p | 1%Z => py p | 2%Z => pz p
  | 3%Z => pa p | 4%Z => pb p | 5%Z => pc p
  | 6%Z => pu p | 7%Z => pv p | _ => pw p
  end.

(** Axis [n] takes part in the move from [e] to [p]: it is in the axis mask
    and its distance is at least [tiny]. *)
Definition axis_moves (m : Machine) (p e : CANON_POSITION) (n : Z) : Prop :=
  axis_valid m n = true /\ tiny <= Rabs (coordinate p n - coordinate e n).

(** The axes a, b and c are the angular ones. *)
Definition angular_axis (n : Z) : bool := ((3 <=? n) && (n <=? 5))%Z.

(** The external unit of the limits of axis [n]. *)
Definition axis_units (m : Machine) (n : Z) : R :=
  if angular_axis n then angularUnits m else linearUnits m.

(** Two machines that differ in the limits of their axes at most. *)
Definition same_but_limits (m1 m2 : Machine) : Prop :=
  axis_mask m1 = axis_mask m2 /\
  linearUnits m1 = linearUnits m2 /\
  angularUnits m1 = angularUnits m2 /\
  vel_indeterminate m1 = vel_indeterminate m2.

(** The scenario machine with every maximum velocity lowered to 50. *)
Definition slow_machine : Machine :=
  mkMachine 7 1 1 (fun _ => 50) (fun _ => 1000) (fun _ => 10000)
            (fun _ => 0%Z) 0 64 16 1 0 0.

(** ** The move of a flush *)

(** The position [p] in external units, as [to_ext_pose] and [flush_segments]
    compute it. *)
Definition external_pose (m : Machine) (p : CANON_POSITION) : EmcPose :=
  mkPose (mkCart (px p * linearUnits m) (py p * linearUnits m)
                 (pz p * linearUnits m))
         (pa p * angularUnits m) (pb p * angularUnits m) (pc p * angularUnits m)
         (pu p * linearUnits m) (pv p * linearUnits m) (pw p * linearUnits m).

(** The unit [toExtVel] multiplies by, from the kind of the last move. *)
Definition velocity_units (m : Machine) (c : CanonConfig_t) : R :=
  if negb (cartesian_move c) && angular_move c then angularUnits m
  else linearUnits m.

(** Every buffered point has the a, b, c, u, v, w of the end point. *)
Definition buffer_on_end_point_axes (w : World) : Prop :=
  forall P, In P (chained_points w) ->
    pt_a P = pa (endPoint (canon w)) /\ pt_b P = pb (endPoint (canon w)) /\
    pt_c P = pc (endPoint (canon w)) /\
    pt_u P = pu (endPoint (canon w)) /\ pt_v P = pv (endPoint (canon w)) /\
    pt_w P = pw (endPoint (canon w)).

(** The position at which the moves seen so far end: the last buffered
    point, or the end point when the buffer is empty. *)
Definition pending_position (w : World) : CANON_POSITION :=
  match back (chained_points w) with
  | Some q => pt_pos q
  | None => endPoint (canon w)
  end.

(** The rotary and the auxiliary coordinates of [p] are those of [e]. *)
Definition same_abc_uvw (p e : CANON_POSITION) : Prop :=
  pa p = pa e /\ pb p = pb e /\ pc p = pc e /\
  pu p = pu e /\ pv p = pv e /\ pw p = pw e.

(** [chained_points().push_back(pos)]. *)
Definition push_point (p : CANON_POSITION) (line_number : Z) (w : World) : World :=
  with_chained_points (chained_points w ++ [pos_pt p line_number]) w.

(** The test [changed_abc || changed_uvw] of [see_segment]. *)
Definition changed_abc_uvw (p e : CANON_POSITION) : bool :=
  (Rneb (pa p) (pa e) || Rneb (pb p) (pb e) || Rneb (pc p) (pc e))
  || (Rneb (pu p) (pu e) || Rneb (pv p) (pv e) || Rneb (pw p) (pw e)).

(** The scenario state with the feed rate 10 and a feed to the end point
    itself waiting in the buffer. *)
Definition still_world : World :=
  with_chained_points [mkPt 0 0 0 0 0 0 0 0 0 10] feeding_world.

(** ** Reading the canonical state *)

Definition GET_EXTERNAL_TOOL_LENGTH_XOFFSET : M R :=
  c <- get_canon;; ret (TO_PROG_LEN c (cx (tran (toolOffset c)))).

Definition GET_EXTERNAL_TOOL_LENGTH_YOFFSET : M R :=
  c <- get_canon;; ret (TO_PROG_LEN c (cy (tran (toolOffset c)))).

Definition GET_EXTERNAL_TOOL_LENGTH_ZOFFSET : M R :=
  c <- get_canon;; ret (TO_PROG_LEN c (cz (tran (toolOffset c)))).

Definition GET_EXTERNAL_TOOL_LENGTH_AOFFSET : M R :=
  c <- get_canon;; ret (TO_PROG_ANG (ea (toolOffset c))).

Definition GET_EXTERNAL_TOOL_LENGTH_BOFFSET : M R :=
  c <- get_canon;; ret (TO_PROG_ANG (eb (toolOffset c))).

Definition GET_EXTERNAL_TOOL_LENGTH_COFFSET : M R :=
  c <- get_canon;; ret (TO_PROG_ANG (ec (toolOffset c))).

Definition GET_EXTERNAL_TOOL_LENGTH_UOFFSET : M R :=
  c <- get_canon;; ret (TO_PROG_LEN c (eu (toolOffset c))).

Definition GET_EXTERNAL_TOOL_LENGTH_VOFFSET : M R :=
  c <- get_canon;; ret (TO_PROG_LEN c (ev (toolOffset c))).

Definition GET_EXTERNAL_TOOL_LENGTH_WOFFSET : M R :=
  c <- get_canon;; ret (TO_PROG_LEN c (ew (toolOffset c))).

(** [chained_points().clear()], then the end point from the position
    [emcStatus->motion.traj.position] that the status buffer reports, here
    [traj_position]. *)
Definition GET_EXTERNAL_POSITION (m : Machine) (traj_position : EmcPose)
  : M CANON_POSITION :=
  modify (with_chained_points []);;
  let pos := traj_position in
  x <- FROM_EXT_LEN m (cx (tran pos));;
  y <- FROM_EXT_LEN m (cy (tran pos));;
  z <- FROM_EXT_LEN m (cz (tran pos));;
  a <- FROM_EXT_ANG m (ea pos);;
  b <- FROM_EXT_ANG m (eb pos);;
  c0 <- FROM_EXT_ANG m (ec pos);;
  u <- FROM_EXT_LEN m (eu pos);;
  v <- FROM_EXT_LEN m (ev pos);;
  w <- FROM_EXT_LEN m (ew pos);;
  canonUpdateEndPoint (mkPos x y z a b c0 u v w);;
  c <- get_canon;;
  ret (to_prog c (unoffset_and_unrotate_pos c (endPoint c))).

Definition GET_EXTERNAL_FEED_RATE : M R :=
  c <- get_canon;;
  let feed := TO_PROG_LEN c (linearFeedRate c) in
  let feed := feed * 60 in
  ret feed.

Definition GET_EXTERNAL_MOTION_CONTROL_MODE : M CANON_MOTION_MODE :=
  c <- get_canon;; ret (motionMode c).

Definition GET_EXTERNAL_MOTION_CONTROL_TOLERANCE : M R :=
  c <- get_canon;; ret (TO_PROG_LEN c (motionTolerance c)).

(** The length unit of the program and the feed mode of the scenario state
    replaced. *)
Definition inch_world : World :=
  with_canon (set_lengthUnits CANON_UNITS_INCHES) scenario_world.

(** A tool offset and a pose that the machine reports, for the examples. *)
Definition sample_offset : EmcPose := mkPose (mkCart 1 0 2) 0 0 0 0 0 3.

(** ** Traverse *)

Definition STRAIGHT_TRAVERSE (m : Machine) (line_number : Z) (p : CANON_POSITION)
  : M unit :=
  flush_segments m;;
  c <- get_canon;;
  let p := from_prog c p in
  let p := rotate_and_offset_pos c p in
  vel <- getStraightVelocity m p;;
  acc <- getStraightAcceleration m p;;
  jerk <- getStraightJerk m p;;
  ext_jerk <- TO_EXT_LEN m jerk;;
  pos <- to_ext_pose m p;;
  ext_vel <- toExtVel m vel;;
  ext_acc <- toExtAcc m acc;;
  let linearMoveMsg :=
    mkLinearMove EMC_MOTION_TYPE_TRAVERSE pos ext_vel ext_vel ext_acc ext_jerk 0 in
  c1 <- get_canon;;
  let old_feed_mode := feed_mode c1 in
  (if negb (feed_mode c1 =? 0)%Z then STOP_SPEED_FEED_SYNCH m else ret tt);;
  (if nonzero vel && nonzero acc then
     modify (interp_set_line_number line_number);;
     modify (interp_append (EMC_TRAJ_LINEAR_MOVE linearMoveMsg))
   else ret tt);;
  (if negb (old_feed_mode =? 0)%Z then
     c2 <- get_canon;; START_SPEED_FEED_SYNCH m (linearFeedRate c2) true
   else ret tt);;
  canonUpdateEndPoint p.

(** The scenario state with the feed rate 10, the feed mode 1 and the feed to
    (10, 0, 0) of line 10 waiting in the buffer. *)
Definition synched_world : World :=
  with_canon (set_feed_mode 1) pending_world.

(** ** The charge pump *)

(** [FUNCTION(_)] of the component [charge_pump]: one call, from the pin
    [enable] and the value of the pin [out] to the new value of [out]. *)
Definition charge_pump (enable out : bool) : bool :=
  if enable then negb out else false.

(** One call for every value of [enable] in turn. *)
Definition charge_pump_calls (enables : list bool) (out : bool) : bool :=
  fold_left (fun o e => charge_pump e o) enables out.

(** ** The i/o port of the 7i43 firmware *)

(** The nine values of [STD_LOGIC]. *)
Inductive STD_LOGIC : Type :=
  | SL_U | SL_X | SL_0 | SL_1 | SL_Z | SL_W | SL_L | SL_H | SL_DONT_CARE.

(** The condition [s = '1']. *)
Definition is_1 (s : STD_LOGIC) : bool :=
  match s with SL_1 => true | _ => false end.

(** The two registers of the entity [ioport]; a vector is the list of its
    elements, index 0 first. *)
Record ioport : Type := mkIoport {
  outreg : list STD_LOGIC;
  ddrreg : list STD_LOGIC
}.

(** The registers after a rising edge of [clk].  Of the assignments to
    [ddrreg] in one run of the process the last one takes effect. *)
Definition ioport_rising_edge (Width : nat) (clear loadport loadddr : STD_LOGIC)
    (ibus : list STD_LOGIC) (r : ioport) : ioport :=
  let outreg1 := if is_1 loadport then ibus else outreg r in
  let ddrreg1 := if is_1 loadddr then ibus else ddrreg r in
  let ddrreg2 := if is_1 clear then repeat SL_0 Width else ddrreg1 in
  mkIoport outreg1 ddrreg2.

(** The value [tsoutreg] settles to, element by element. *)
Definition tsoutreg (r : ioport) : list STD_LOGIC :=
  map (fun d_o : STD_LOGIC * STD_LOGIC =>
         if is_1 (fst d_o) then snd d_o else SL_Z)
      (combine (ddrreg r) (outreg r)).

(** [portdata <= tsoutreg]. *)
Definition portdata (r : ioport) : list STD_LOGIC := tsoutreg r.

Definition obus (Width : nat) (readddr : STD_LOGIC) (r : ioport) : list STD_LOGIC :=
  if is_1 readddr then ddrreg r else repeat SL_Z Width.

(** ** Messages of feeds *)

(** Every entry of [l] is a linear move of the type feed. *)
Definition feed_moves (l : list (Z * NMLmsg)) : Prop :=
  Forall (fun e => exists msg, snd e = EMC_TRAJ_LINEAR_MOVE msg /\
                               lm_type msg = EMC_MOTION_TYPE_FEED) l.

(** ** The origin *)

(** The spindle speed message of a state with constant surface speed, when
    the program origin is [o]; no message without constant surface speed. *)
Definition css_update (m : Machine) (c : CanonConfig_t) (o : CANON_POSITION)
    (line : Z) : list (Z * NMLmsg) :=
  if nonzero (css_maximum c) then
    [(line, EMC_SPINDLE_SPEED
              (mkSpindle (css_maximum c) (Some (css_numerator c))
                 (Some ((px o + cx (tran (toolOffset c))) * linearUnits m))))]
  else [].

(** The scenario state with constant surface speed and a feed waiting in the
    buffer. *)
Definition css_pending_world : World :=
  with_canon (set_css_maximum 3000) pending_world.

(** ** Points on a segment *)

(** [P] lies on the straight segment from [B] to [Q]. *)
Definition on_segment (B Q P : PmCartesian) : Prop :=
  exists t, 0 <= t <= 1 /\ P = cart_add B (cart_scale t (cart_sub Q B)).

(** * Properties *)

(** ** Deciding comparisons of reals *)

Lemma Rltb_true (a b : R) : a < b -> Rltb a b = true.
Proof. intros H; unfold Rltb; destruct (Rlt_dec a b); [reflexivity | contradiction]. Qed.

Lemma Rltb_false (a b : R) : b <= a -> Rltb a b = false.
Proof. intros H; unfold Rltb; destruct (Rlt_dec a b); [lra | reflexivity]. Qed.

Lemma Rltb_spec (a b : R) : Rltb a b = true <-> a < b.
Proof. unfold Rltb; destruct (Rlt_dec a b); split; intros; try easy. Qed.

Lemma Rleb_true (a b : R) : a <= b -> Rleb a b = true.
Proof. intros H; unfold Rleb; destruct (Rle_dec a b); [reflexivity | contradiction]. Qed.

Lemma Rleb_false (a b : R) : b < a -> Rleb a b = false.
Proof. intros H; unfold Rleb; destruct (Rle_dec a b); [lra | reflexivity]. Qed.

Lemma Reqb_true (a b : R) : a = b -> Reqb a b = true.
Proof. intros H; unfold Reqb; destruct (Req_dec_T a b); [reflexivity | contradiction]. Qed.

Lemma Reqb_false (a b : R) : a <> b -> Reqb a b = false.
Proof. intros H; unfold Reqb; destruct (Req_dec_T a b); [contradiction | reflexivity]. Qed.

Lemma Reqb_spec (a b : R) : Reqb a b = true <-> a = b.
Proof. unfold Reqb; destruct (Req_dec_T a b); split; intros; try easy. Qed.

Lemma Rneb_false_iff (a b : R) : Rneb a b = false <-> a = b.
Proof.
  unfold Rneb. rewrite negb_false_iff. apply Reqb_spec.
Qed.

Lemma Rgtb_false_iff (a b : R) : Rgtb a b = false <-> a <= b.
Proof.
  unfold Rgtb, Rltb. destruct (Rlt_dec b a); split; intros; try easy; lra.
Qed.

Lemma MIN_pos (a b : R) : 0 < a -> 0 < b -> 0 < MIN a b.
Proof. intros Ha Hb; unfold MIN; destruct (Rltb a b); assumption. Qed.

Lemma huge_pos : 0 < huge.
Proof. unfold huge; lra. Qed.

Lemma moving_pos (d limit : R) : 0 < limit -> 0 < moving d limit.
Proof.
  intros H; unfold moving; destruct (nonzero d); [assumption | apply huge_pos].
Qed.

(** ** Running the monad *)

Lemma bind_Ok {A B : Type} (c : M A) (k : A -> M B) (w : World) (b : B) (w' : World) :
  bind c k w = Ok b w' ->
  exists a w1, c w = Ok a w1 /\ k a w1 = Ok b w'.
Proof.
  unfold bind. destruct (c w) as [a w1 | f]; intros H.
  - exists a, w1. split; [reflexivity | exact H].
  - discriminate H.
Qed.

Lemma bind_run {A B : Type} (c : M A) (k : A -> M B) (w w1 : World) (a : A)
    (r : result B) :
  c w = Ok a w1 -> k a w1 = r -> bind c k w = r.
Proof. intros H1 H2; unfold bind; rewrite H1; exact H2. Qed.

Lemma bind_Fault {A B : Type} (c : M A) (k : A -> M B) (w : World) (f : fault) :
  c w = Fault f -> bind c k w = Fault f.
Proof. intros H; unfold bind; rewrite H; reflexivity. Qed.

Lemma bind_returns {A : Type} (c : M A) (k : A -> M unit) (w w1 : World) (a : A) :
  c w = Ok a w1 ->
  (exists w2, k a w1 = Ok tt w2) ->
  exists w2, bind c k w = Ok tt w2.
Proof.
  intros H1 (w2 & H2). exists w2. unfold bind. rewrite H1. exact H2.
Qed.

(** Split a run that ended well into the runs of its steps. *)
Ltac bind_inv H :=
  repeat match type of H with
         | bind _ _ _ = Ok _ _ =>
           let a := fresh "a" in
           let w := fresh "w" in
           let E := fresh "E" in
           apply bind_Ok in H; destruct H as (a & w & E & H)
         end.

(** ** Units on a well-configured machine *)

Lemma GET_EXTERNAL_LENGTH_UNITS_run (m : Machine) (w : World) :
  linearUnits m <> 0 ->
  GET_EXTERNAL_LENGTH_UNITS m w = Ok (linearUnits m) w.
Proof.
  intros H. unfold GET_EXTERNAL_LENGTH_UNITS. now rewrite Reqb_false.
Qed.

Lemma GET_EXTERNAL_ANGLE_UNITS_run (m : Machine) (w : World) :
  angularUnits m <> 0 ->
  GET_EXTERNAL_ANGLE_UNITS m w = Ok (angularUnits m) w.
Proof.
  intros H. unfold GET_EXTERNAL_ANGLE_UNITS. now rewrite Reqb_false.
Qed.

Lemma TO_EXT_LEN_run (m : Machine) (mm : R) (w : World) :
  linearUnits m <> 0 -> TO_EXT_LEN m mm w = Ok (mm * linearUnits m) w.
Proof.
  intros H. unfold TO_EXT_LEN.
  eapply bind_run; [apply GET_EXTERNAL_LENGTH_UNITS_run, H | reflexivity].
Qed.

Lemma TO_EXT_ANG_run (m : Machine) (deg : R) (w : World) :
  angularUnits m <> 0 -> TO_EXT_ANG m deg w = Ok (deg * angularUnits m) w.
Proof.
  intros H. unfold TO_EXT_ANG.
  eapply bind_run; [apply GET_EXTERNAL_ANGLE_UNITS_run, H | reflexivity].
Qed.

Lemma FROM_EXT_LEN_run (m : Machine) (ext : R) (w : World) :
  linearUnits m <> 0 -> FROM_EXT_LEN m ext w = Ok (ext / linearUnits m) w.
Proof.
  intros H. unfold FROM_EXT_LEN.
  eapply bind_run; [apply GET_EXTERNAL_LENGTH_UNITS_run, H | reflexivity].
Qed.

Lemma FROM_EXT_ANG_run (m : Machine) (ext : R) (w : World) :
  angularUnits m <> 0 -> FROM_EXT_ANG m ext w = Ok (ext / angularUnits m) w.
Proof.
  intros H. unfold FROM_EXT_ANG.
  eapply bind_run; [apply GET_EXTERNAL_ANGLE_UNITS_run, H | reflexivity].
Qed.

(** The unit functions only read: when they return, the world is the one
    they were called in and the unit is not zero. *)
Lemma GET_EXTERNAL_LENGTH_UNITS_Ok (m : Machine) (w w' : World) (u : R) :
  GET_EXTERNAL_LENGTH_UNITS m w = Ok u w' ->
  w' = w /\ u = linearUnits m /\ linearUnits m <> 0.
Proof.
  unfold GET_EXTERNAL_LENGTH_UNITS, Reqb, fail, ret.
  destruct (Req_dec_T (linearUnits m) 0); intros H; inversion H; auto.
Qed.

Lemma GET_EXTERNAL_ANGLE_UNITS_Ok (m : Machine) (w w' : World) (u : R) :
  GET_EXTERNAL_ANGLE_UNITS m w = Ok u w' ->
  w' = w /\ u = angularUnits m /\ angularUnits m <> 0.
Proof.
  unfold GET_EXTERNAL_ANGLE_UNITS, Reqb, fail, ret.
  destruct (Req_dec_T (angularUnits m) 0); intros H; inversion H; auto.
Qed.

Lemma TO_EXT_LEN_Ok (m : Machine) (mm : R) (w w' : World) (r : R) :
  TO_EXT_LEN m mm w = Ok r w' ->
  w' = w /\ r = mm * linearUnits m /\ linearUnits m <> 0.
Proof.
  unfold TO_EXT_LEN. intros H. bind_inv H.
  apply GET_EXTERNAL_LENGTH_UNITS_Ok in E. destruct E as (-> & -> & Hu).
  inversion H; auto.
Qed.

Lemma TO_EXT_ANG_Ok (m : Machine) (deg : R) (w w' : World) (r : R) :
  TO_EXT_ANG m deg w = Ok r w' ->
  w' = w /\ r = deg * angularUnits m /\ angularUnits m <> 0.
Proof.
  unfold TO_EXT_ANG. intros H. bind_inv H.
  apply GET_EXTERNAL_ANGLE_UNITS_Ok in E. destruct E as (-> & -> & Hu).
  inversion H; auto.
Qed.

Lemma FROM_EXT_LEN_Ok (m : Machine) (ext : R) (w w' : World) (r : R) :
  FROM_EXT_LEN m ext w = Ok r w' ->
  w' = w /\ r = ext / linearUnits m /\ linearUnits m <> 0.
Proof.
  unfold FROM_EXT_LEN. intros H. bind_inv H.
  apply GET_EXTERNAL_LENGTH_UNITS_Ok in E. destruct E as (-> & -> & Hu).
  inversion H; auto.
Qed.

Lemma FROM_EXT_ANG_Ok (m : Machine) (ext : R) (w w' : World) (r : R) :
  FROM_EXT_ANG m ext w = Ok r w' ->
  w' = w /\ r = ext / angularUnits m /\ angularUnits m <> 0.
Proof.
  unfold FROM_EXT_ANG. intros H. bind_inv H.
  apply GET_EXTERNAL_ANGLE_UNITS_Ok in E. destruct E as (-> & -> & Hu).
  inversion H; auto.
Qed.

Lemma toExtVel_Ok (m : Machine) (vel : R) (w w' : World) (r : R) :
  toExtVel m vel w = Ok r w' ->
  w' = w /\
  r = vel * (if negb (cartesian_move (canon w)) && angular_move (canon w)
             then angularUnits m else linearUnits m).
Proof.
  unfold toExtVel. intros H. bind_inv H.
  unfold get_canon in E. inversion E; subst a w0; clear E.
  destruct (cartesian_move (canon w)), (angular_move (canon w)); simpl in *;
    first [apply TO_EXT_LEN_Ok in H | apply TO_EXT_ANG_Ok in H];
    destruct H as (-> & -> & _); auto.
Qed.

Lemma toExtVel_run (m : Machine) (vel : R) (w : World) :
  linearUnits m <> 0 -> angularUnits m <> 0 ->
  toExtVel m vel w =
  Ok (vel * (if negb (cartesian_move (canon w)) && angular_move (canon w)
             then angularUnits m else linearUnits m)) w.
Proof.
  intros Hl Ha. unfold toExtVel.
  eapply bind_run; [reflexivity | ].
  destruct (cartesian_move (canon w)), (angular_move (canon w)); simpl;
    first [apply TO_EXT_LEN_run, Hl | apply TO_EXT_ANG_run, Ha].
Qed.

(** ** The envelope functions *)

Lemma classified_endPoint (m : Machine) (p : CANON_POSITION) (w : World) :
  endPoint (canon (classified m p w)) = endPoint (canon w).
Proof. reflexivity. Qed.

Lemma classified_twice (m : Machine) (p : CANON_POSITION) (w : World) :
  classified m p (classified m p w) = classified m p w.
Proof. reflexivity. Qed.

Lemma linear_limit_pos (limit : Z -> R) (d : CANON_POSITION) :
  (forall n : Z, (0 <= n <= 8)%Z -> 0 < limit n) -> 0 < linear_limit limit d.
Proof.
  intros H. unfold linear_limit, MIN4, MIN3.
  repeat apply MIN_pos; apply moving_pos, H; lia.
Qed.

Lemma angular_limit_pos (limit : Z -> R) (d : CANON_POSITION) :
  (forall n : Z, (0 <= n <= 8)%Z -> 0 < limit n) -> 0 < angular_limit limit d.
Proof.
  intros H. unfold angular_limit, MIN3.
  repeat apply MIN_pos; apply moving_pos, H; lia.
Qed.

Lemma assert_run (b : bool) (w : World) : b = true -> assert b w = Ok tt w.
Proof. intros ->; reflexivity. Qed.

Lemma assert_Ok (b : bool) (w w' : World) (u : unit) :
  assert b w = Ok u w' -> w' = w /\ b = true.
Proof.
  destruct b; unfold assert, ret, fail; intros H; inversion H; auto.
Qed.

(** When an envelope function returns, all it has changed are the two flags
    of the kind of move. *)
Lemma straight_limit_Ok (m : Machine) (limit : Z -> R) (nowhere : R)
    (p : CANON_POSITION) (w w' : World) (v : R) :
  straight_limit m limit nowhere p w = Ok v w' -> w' = classified m p w.
Proof.
  unfold straight_limit. intros H. bind_inv H.
  unfold get_canon in E. inversion E; subst a w0; clear E.
  unfold modify in E0. inversion E0; subst a0 w1; clear E0.
  fold (classified m p w) in H.
  destruct (is_cartesian_move (travels m p (endPoint (canon w))));
    destruct (is_angular_move (travels m p (endPoint (canon w))));
    simpl in H; bind_inv H;
    repeat match goal with
           | E : FROM_EXT_LEN _ _ _ = Ok _ _ |- _ =>
             apply FROM_EXT_LEN_Ok in E; destruct E as (-> & -> & ?)
           | E : FROM_EXT_ANG _ _ _ = Ok _ _ |- _ =>
             apply FROM_EXT_ANG_Ok in E; destruct E as (-> & -> & ?)
           | E : assert _ _ = Ok _ _ |- _ =>
             apply assert_Ok in E; destruct E as (-> & ?)
           end;
    inversion H; reflexivity.
Qed.

(** On a well-configured machine an envelope function returns. *)
Lemma straight_limit_run (m : Machine) (limit : Z -> R) (nowhere : R)
    (p : CANON_POSITION) (w : World) :
  0 < linearUnits m -> 0 < angularUnits m ->
  (forall n : Z, (0 <= n <= 8)%Z -> 0 < limit n) ->
  exists v, straight_limit m limit nowhere p w = Ok v (classified m p w).
Proof.
  intros Hl Ha Hlim.
  assert (Hl0 : linearUnits m <> 0) by lra.
  assert (Ha0 : angularUnits m <> 0) by lra.
  pose proof (linear_limit_pos limit (travels m p (endPoint (canon w))) Hlim) as Hlin.
  pose proof (angular_limit_pos limit (travels m p (endPoint (canon w))) Hlim) as Hang.
  assert (Hlin' : 0 < linear_limit limit (travels m p (endPoint (canon w)))
                      / linearUnits m)
    by (apply Rdiv_lt_0_compat; assumption).
  assert (Hang' : 0 < angular_limit limit (travels m p (endPoint (canon w)))
                      / angularUnits m)
    by (apply Rdiv_lt_0_compat; assumption).
  unfold straight_limit.
  destruct (is_cartesian_move (travels m p (endPoint (canon w)))) eqn:Hc;
    destruct (is_angular_move (travels m p (endPoint (canon w)))) eqn:Hg;
    eexists;
    (eapply bind_run; [reflexivity | ]);
    (eapply bind_run; [reflexivity | ]);
    fold (classified m p w); rewrite Hc, Hg; simpl.
  - eapply bind_run; [apply FROM_EXT_LEN_run, Hl0 | ].
    eapply bind_run; [apply FROM_EXT_ANG_run, Ha0 | ].
    eapply bind_run; [apply assert_run, Rltb_true, MIN_pos; assumption | ].
    reflexivity.
  - eapply bind_run; [apply FROM_EXT_LEN_run, Hl0 | ].
    eapply bind_run; [apply assert_run, Rltb_true; assumption | ].
    reflexivity.
  - eapply bind_run; [apply FROM_EXT_ANG_run, Ha0 | ].
    eapply bind_run; [apply assert_run, Rltb_true; assumption | ].
    reflexivity.
  - reflexivity.
Qed.

(** A move to nowhere takes no branch: the value is the one the local variable
    held, and no [assert] is reached. *)
Lemma straight_limit_nowhere (m : Machine) (limit : Z -> R) (nowhere : R)
    (p : CANON_POSITION) (w : World) :
  is_cartesian_move (travels m p (endPoint (canon w))) = false ->
  is_angular_move (travels m p (endPoint (canon w))) = false ->
  straight_limit m limit nowhere p w = Ok nowhere (classified m p w).
Proof.
  intros Hc Ha. unfold straight_limit.
  eapply bind_run; [reflexivity | ].
  eapply bind_run; [reflexivity | ].
  fold (classified m p w). rewrite Hc, Ha. reflexivity.
Qed.

Lemma getStraightVelocity_Ok (m : Machine) (p : CANON_POSITION) (w w' : World)
    (v : R) :
  getStraightVelocity m p w = Ok v w' -> w' = classified m p w.
Proof.
  unfold getStraightVelocity. intros H. bind_inv H.
  apply straight_limit_Ok in E. subst w0.
  unfold get_canon in E0. inversion E0; subst. inversion H; reflexivity.
Qed.

Lemma getStraightAcceleration_Ok (m : Machine) (p : CANON_POSITION) (w w' : World)
    (v : R) :
  getStraightAcceleration m p w = Ok v w' -> w' = classified m p w.
Proof. unfold getStraightAcceleration. apply straight_limit_Ok. Qed.

Lemma getStraightJerk_Ok (m : Machine) (p : CANON_POSITION) (w w' : World)
    (v : R) :
  getStraightJerk m p w = Ok v w' -> w' = classified m p w.
Proof. unfold getStraightJerk. apply straight_limit_Ok. Qed.

Lemma getStraightVelocity_run (m : Machine) (p : CANON_POSITION) (w : World) :
  machine_ok m ->
  exists v, getStraightVelocity m p w = Ok v (classified m p w).
Proof.
  intros (Hl & Ha & Hlim).
  destruct (straight_limit_run m (emcAxisGetMaxVelocity m) (vel_indeterminate m)
              p w Hl Ha) as (v & Hv).
  { intros n Hn. apply (Hlim n Hn). }
  unfold getStraightVelocity. eexists.
  eapply bind_run; [exact Hv | ].
  eapply bind_run; reflexivity.
Qed.

Lemma getStraightAcceleration_run (m : Machine) (p : CANON_POSITION) (w : World) :
  machine_ok m ->
  exists v, getStraightAcceleration m p w = Ok v (classified m p w).
Proof.
  intros (Hl & Ha & Hlim). unfold getStraightAcceleration.
  apply straight_limit_run; try assumption.
  intros n Hn. apply (Hlim n Hn).
Qed.

Lemma getStraightJerk_run (m : Machine) (p : CANON_POSITION) (w : World) :
  machine_ok m ->
  exists v, getStraightJerk m p w = Ok v (classified m p w).
Proof.
  intros (Hl & Ha & Hlim). unfold getStraightJerk.
  apply straight_limit_run; try assumption.
  intros n Hn. apply (Hlim n Hn).
Qed.

(** ** Flushing the segment buffer *)

Lemma back_None (l : list pt) : back l = None -> l = [].
Proof.
  induction l as [| q l IH]; [reflexivity | ].
  simpl. destruct l as [| q' l']; [discriminate | ].
  intros H. apply IH in H. discriminate H.
Qed.

Lemma back_Some_nonempty (l : list pt) (q : pt) : back l = Some q -> l <> [].
Proof. intros H ->. discriminate H. Qed.

Lemma back_app (l : list pt) (q : pt) : back (l ++ [q]) = Some q.
Proof.
  induction l as [| q0 l IH]; [reflexivity | ].
  simpl. destruct (l ++ [q]) eqn:E; [ | exact IH].
  destruct l; discriminate E.
Qed.

Lemma flush_segments_empty (m : Machine) (w : World) :
  chained_points w = [] -> flush_segments m w = Ok tt w.
Proof. intros H. unfold flush_segments. rewrite H. reflexivity. Qed.

(** One step of a run whose next function only reads or simply writes. *)
Ltac run_one :=
  match goal with
  | |- get_canon _ = _ => reflexivity
  | |- modify _ _ = _ => reflexivity
  | |- canonUpdateEndPoint _ _ = _ => reflexivity
  | |- ret _ _ = _ => reflexivity
  | |- TO_EXT_LEN _ _ _ = _ => apply TO_EXT_LEN_run; assumption
  | |- TO_EXT_ANG _ _ _ = _ => apply TO_EXT_ANG_run; assumption
  | |- FROM_EXT_LEN _ _ _ = _ => apply FROM_EXT_LEN_run; assumption
  | |- FROM_EXT_ANG _ _ _ = _ => apply FROM_EXT_ANG_run; assumption
  | |- toExtVel _ _ _ = _ => apply toExtVel_run; assumption
  | |- toExtAcc _ _ _ = _ => apply toExtVel_run; assumption
  | H : ?c ?w = Ok _ _ |- ?c ?w = _ => exact H
  | |- bind _ _ _ = _ => eapply bind_run; [run_one | cbv beta; run_one]
  end.

Ltac run_steps := repeat (eapply bind_run; [run_one | cbv beta]).

(** After a flush that returns, the buffer is empty. *)
Lemma flush_segments_Ok (m : Machine) (w w1 : World) (u : unit) :
  flush_segments m w = Ok u w1 -> chained_points w1 = [].
Proof.
  unfold flush_segments. intros H.
  destruct (back (chained_points w)) as [pos | ] eqn:Hb.
  - cbv zeta in H. bind_inv H. unfold modify in H. inversion H. reflexivity.
  - inversion H; subst. apply back_None, Hb.
Qed.

(** On a well-configured machine a flush returns. *)
Lemma flush_segments_run (m : Machine) (w : World) :
  machine_ok m -> exists w1, flush_segments m w = Ok tt w1.
Proof.
  intros Hok. pose proof Hok as (Hl & Ha & _).
  assert (Hl0 : linearUnits m <> 0) by lra.
  assert (Ha0 : angularUnits m <> 0) by lra.
  unfold flush_segments.
  destruct (back (chained_points w)) as [pos | ]; [ | eexists; reflexivity].
  cbv zeta.
  destruct (getStraightVelocity_run m (pt_pos pos) w Hok) as (vel & Hv).
  destruct (getStraightJerk_run m (pt_pos pos) (classified m (pt_pos pos) w) Hok)
    as (jerk & Hj).
  rewrite classified_twice in Hj.
  destruct (getStraightAcceleration_run m (pt_pos pos)
              (classified m (pt_pos pos) w) Hok) as (acc & Hacc).
  rewrite classified_twice in Hacc.
  set (w' := classified m (pt_pos pos) w) in *.
  repeat (eapply bind_returns; [run_one | cbv beta]).
  match goal with
  | |- context [if ?b then _ else ret tt] => destruct b
  end; eexists; run_steps; reflexivity.
Qed.

Lemma scenario_machine_ok : machine_ok scenario_machine.
Proof.
  unfold machine_ok, scenario_machine; simpl.
  split; [lra | ]. split; [lra | ].
  intros n _. repeat split; lra.
Defined.

(** C6: after [flush_segments] returns the segment buffer is empty, and a
    second flush right after the first emits nothing and changes nothing: two
    flushes in a row are one flush.  On a well-configured machine the flush
    does return. *)
Theorem flush_segments_idempotent (m : Machine) (w : World) :
  (forall (u : unit) (w1 : World),
      flush_segments m w = Ok u w1 ->
      chained_points w1 = [] /\ flush_segments m w1 = Ok tt w1) /\
  (flush_segments m;; flush_segments m) w = flush_segments m w /\
  (machine_ok m -> exists w1, flush_segments m w = Ok tt w1).
Proof.
  assert (H1 : forall (u : unit) (w1 : World),
             flush_segments m w = Ok u w1 ->
             chained_points w1 = [] /\ flush_segments m w1 = Ok tt w1).
  { intros u w1 H. apply flush_segments_Ok in H.
    split; [exact H | apply flush_segments_empty, H]. }
  split; [exact H1 | ]. split.
  - unfold bind. destruct (flush_segments m w) as [u w1 | f] eqn:E.
    + destruct (H1 u w1 eq_refl) as (_ & H2). rewrite H2. destruct u. reflexivity.
    + reflexivity.
  - apply flush_segments_run.
Qed.

Lemma flush_segments_idempotent_witness :
  machine_ok scenario_machine /\
  exists w1, flush_segments scenario_machine pending_world = Ok tt w1 /\
             chained_points w1 = [] /\
             flush_segments scenario_machine w1 = Ok tt w1.
Proof.
  split; [exact scenario_machine_ok | ].
  destruct (flush_segments_idempotent scenario_machine pending_world)
    as (H1 & _ & H3).
  destruct (H3 scenario_machine_ok) as (w1 & Hw1).
  exists w1. split; [exact Hw1 | exact (H1 tt w1 Hw1)].
Defined.

(** ** Offsets and rotation *)

Lemma D2R_opp (theta : R) : D2R (- theta) = - D2R theta.
Proof. unfold D2R. lra. Qed.

Lemma rotate_back (x y theta : R) :
  let (x1, y1) := rotate x y theta in rotate x1 y1 (- theta) = (x, y).
Proof.
  unfold rotate. rewrite D2R_opp, cos_neg, sin_neg.
  set (s := sin (D2R theta)). set (c := cos (D2R theta)).
  assert (H : s * s + c * c = 1).
  { pose proof (sin2_cos2 (D2R theta)) as H. unfold Rsqr in H. exact H. }
  f_equal.
  - replace ((x * c - y * s) * c - (x * s + y * c) * - s)
      with (x * (s * s + c * c)) by ring.
    rewrite H. ring.
  - replace ((x * c - y * s) * - s + (x * s + y * c) * c)
      with (y * (s * s + c * c)) by ring.
    rewrite H. ring.
Qed.


(** ** Inputs *)

(** C10: the value of [GET_EXTERNAL_DIGITAL_INPUT] does not depend on [def];
    it is -1 exactly when the index is out of range or the input timed out, and
    0 or 1 otherwise. *)
Theorem GET_EXTERNAL_DIGITAL_INPUT_ignores_def (m : Machine) (index def1 def2 : Z) :
  GET_EXTERNAL_DIGITAL_INPUT m index def1 = GET_EXTERNAL_DIGITAL_INPUT m index def2 /\
  (GET_EXTERNAL_DIGITAL_INPUT m index def1 = (-1)%Z <->
   (index < 0 \/ index >= EMCMOT_MAX_DIO m \/ input_timeout m = 1)%Z) /\
  (GET_EXTERNAL_DIGITAL_INPUT m index def1 = (-1)%Z \/
   GET_EXTERNAL_DIGITAL_INPUT m index def1 = 0%Z \/
   GET_EXTERNAL_DIGITAL_INPUT m index def1 = 1%Z).
Proof.
  unfold GET_EXTERNAL_DIGITAL_INPUT.
  destruct (Z.ltb_spec index 0); destruct (Z.geb_spec index (EMCMOT_MAX_DIO m));
    destruct (Z.eqb_spec (input_timeout m) 1);
    destruct (Z.eqb_spec (synch_di m index) 0); simpl;
    (split; [reflexivity | split; [split; [intros; lia | intros; try reflexivity; try lia] | auto]]).
Qed.

(** ** The velocity of a move to nowhere *)

Lemma travel_still (m : Machine) (n : Z) (target current : R) :
  axis_still m n target current -> travel m n target current = 0.
Proof.
  unfold axis_still, travel. intros [H | H].
  - rewrite H. reflexivity.
  - rewrite (Rltb_true _ _ H). rewrite orb_true_r. reflexivity.
Qed.

Lemma travels_no_motion (m : Machine) (p e : CANON_POSITION) :
  no_motion m p e -> travels m p e = zero_position.
Proof.
  unfold no_motion, travels, zero_position.
  intros (H0 & H1 & H2 & H3 & H4 & H5 & H6 & H7 & H8).
  rewrite !travel_still by assumption. reflexivity.
Qed.

Lemma zero_position_not_cartesian : is_cartesian_move zero_position = false.
Proof.
  unfold is_cartesian_move, zero_position; cbn [px py pz pu pv pw].
  rewrite (Rleb_true 0 0) by lra. reflexivity.
Qed.

Lemma zero_position_not_angular : is_angular_move zero_position = false.
Proof.
  unfold is_angular_move, zero_position; cbn [pa pb pc].
  rewrite (Rleb_true 0 0) by lra. reflexivity.
Qed.

(** What [getStraightVelocity] returns for a move to nowhere: no [assert] is
    reached, and the value is the smaller of the content of the local [vel],
    which no statement has assigned, and the linear feed rate. *)
Lemma getStraightVelocity_nowhere (m : Machine) (p : CANON_POSITION) (w : World) :
  no_motion m p (endPoint (canon w)) ->
  getStraightVelocity m p w =
  Ok (MIN (vel_indeterminate m) (linearFeedRate (canon w))) (classified m p w).
Proof.
  intros H. apply travels_no_motion in H.
  unfold getStraightVelocity.
  eapply bind_run.
  - apply straight_limit_nowhere; rewrite H;
      [apply zero_position_not_cartesian | apply zero_position_not_angular].
  - eapply bind_run; reflexivity.
Qed.

Lemma no_motion_same (m : Machine) (p : CANON_POSITION) : no_motion m p p.
Proof.
  assert (H : forall x : R, Rabs (x - x) < tiny).
  { intros x. replace (x - x) with 0 by ring. rewrite Rabs_R0. unfold tiny. lra. }
  unfold no_motion, axis_still. repeat split; right; apply H.
Qed.

(** C8: at the end point itself, with the feed rate 10 and the local [vel]
    holding 0 on entry, [getStraightVelocity] returns 0 and not the feed rate. *)
Theorem getStraightVelocity_nowhere_below_feed_rate :
  no_motion scenario_machine zero_position (endPoint (canon feeding_world)) /\
  linearFeedRate (canon feeding_world) = 10 /\
  getStraightVelocity scenario_machine zero_position feeding_world =
  Ok 0 (classified scenario_machine zero_position feeding_world).
Proof.
  split; [apply no_motion_same | ]. split; [reflexivity | ].
  rewrite getStraightVelocity_nowhere by apply no_motion_same.
  f_equal. unfold MIN. cbn [vel_indeterminate scenario_machine].
  now rewrite Rltb_true by (cbn; lra).
Qed.

(** ** Scenario 1: a feed rate, one straight feed, a flush *)

(** Decide the comparisons of a goal whose numbers are given. *)
Ltac rdec1 :=
  match goal with
  | |- context [Rltb ?a ?b] =>
    first [rewrite (Rltb_true a b) by lra | rewrite (Rltb_false a b) by lra]
  | |- context [Rleb ?a ?b] =>
    first [rewrite (Rleb_true a b) by lra | rewrite (Rleb_false a b) by lra]
  | |- context [Reqb ?a ?b] =>
    first [rewrite (Reqb_true a b) by lra | rewrite (Reqb_false a b) by lra]
  end.

Ltac rdec :=
  unfold nonzero; unfold Rgtb, Rneb;
  repeat first [rdec1 | progress cbn [negb andb orb]].

Lemma scenario_travels :
  travels scenario_machine feed_target zero_position = feed_target.
Proof.
  unfold travels, travel, feed_target, zero_position.
  cbn [px py pz pa pb pc pu pv pw].
  replace (axis_valid scenario_machine 0) with true by reflexivity.
  replace (axis_valid scenario_machine 1) with true by reflexivity.
  replace (axis_valid scenario_machine 2) with true by reflexivity.
  replace (axis_valid scenario_machine 3) with false by reflexivity.
  replace (axis_valid scenario_machine 4) with false by reflexivity.
  replace (axis_valid scenario_machine 5) with false by reflexivity.
  replace (axis_valid scenario_machine 6) with false by reflexivity.
  replace (axis_valid scenario_machine 7) with false by reflexivity.
  replace (axis_valid scenario_machine 8) with false by reflexivity.
  cbn [negb orb].
  replace (0 - 0) with 0 by ring. replace (10 - 0) with 10 by ring.
  rewrite Rabs_R0. rewrite (Rabs_pos_eq 10) by lra.
  unfold tiny. rdec. reflexivity.
Qed.

Lemma feed_target_limit (c : R) :
  0 < c -> c < huge -> linear_limit (fun _ => c) feed_target = c.
Proof.
  unfold huge. intros H1 H2.
  unfold linear_limit, MIN4, MIN3, MIN, moving, feed_target, huge.
  cbn [px py pz pa pb pc pu pv pw]. rdec. reflexivity.
Qed.

(** Reduce the projections and assignments of the records. *)
Ltac canon_simpl :=
  cbn [canon chained_points interp_line interp_list programUnits
       with_canon with_chained_points with_programUnits
       interp_set_line_number interp_append
       endPoint programOrigin toolOffset xy_rotation lengthUnits activePlane
       motionMode motionTolerance naivecamTolerance feed_mode linearFeedRate
       angularFeedRate spindleSpeed css_maximum css_numerator cartesian_move
       angular_move synched block_delete optional_program_stop
       set_endPoint set_programOrigin set_toolOffset set_xy_rotation
       set_lengthUnits set_activePlane set_motionMode set_motionTolerance
       set_naivecamTolerance set_feed_mode set_linearFeedRate
       set_angularFeedRate set_spindleSpeed set_css_maximum set_css_numerator
       set_cartesian_move set_angular_move set_synched set_block_delete
       set_optional_program_stop
       px py pz pa pb pc pu pv pw cx cy cz tran ea eb ec eu ev ew
       pt_x pt_y pt_z pt_a pt_b pt_c pt_u pt_v pt_w line_no pt_pos pos_pt
       axis_mask linearUnits angularUnits emcAxisGetMaxVelocity
       emcAxisGetMaxAcceleration emcAxisGetMaxJerk synch_di input_timeout
       EMCMOT_MAX_DIO EMCMOT_MAX_AIO DIGITAL_INPUT ANALOG_INPUT vel_indeterminate
       scenario_machine scenario_canon scenario_world feeding_world pending_world
       zero_position zero_pose classified
       prog_len_factor CANON_UNITS_eqb CANON_MOTION_MODE_eqb
       back is_empty app length negb andb orb].

Lemma scenario_units : linearUnits scenario_machine <> 0 /\ angularUnits scenario_machine <> 0.
Proof. cbn; split; lra. Qed.

Lemma SET_FEED_RATE_scenario :
  SET_FEED_RATE scenario_machine 600 scenario_world = Ok tt feeding_world.
Proof.
  unfold SET_FEED_RATE.
  eapply bind_run; [reflexivity | ].
  canon_simpl. cbn [Z.eqb].
  eapply bind_run.
  - unfold FROM_PROG_LEN, FROM_PROG_ANG. canon_simpl. rdec.
    apply flush_segments_empty. reflexivity.
  - eapply bind_run; [reflexivity | ].
    unfold modify, FROM_PROG_LEN, FROM_PROG_ANG. canon_simpl.
    replace (600 / 60 * 1) with 10 by lra. replace (600 / 60) with 10 by lra.
    reflexivity.
Qed.

Lemma feed_target_internal :
  rotate_and_offset_pos (canon feeding_world)
    (from_prog (canon feeding_world) feed_target) = feed_target.
Proof.
  unfold rotate_and_offset_pos, from_prog, rotate, feed_target,
    FROM_PROG_LEN, FROM_PROG_ANG,
    offset_x, offset_y, offset_z, offset_a, offset_b, offset_c,
    offset_u, offset_v, offset_w.
  canon_simpl.
  replace (D2R 0) with 0 by (unfold D2R; lra).
  rewrite cos_0, sin_0. f_equal; lra.
Qed.

Lemma STRAIGHT_FEED_scenario :
  STRAIGHT_FEED scenario_machine 10 feed_target feeding_world = Ok tt pending_world.
Proof.
  unfold STRAIGHT_FEED.
  eapply bind_run; [reflexivity | ]. cbv zeta.
  rewrite feed_target_internal.
  unfold see_segment.
  eapply bind_run; [reflexivity | ].
  unfold feed_target. canon_simpl. rdec.
  eapply bind_run; [reflexivity | ].
  eapply bind_run; [reflexivity | ].
  reflexivity.
Qed.


Lemma feed_target_cartesian : is_cartesian_move feed_target = true.
Proof.
  unfold is_cartesian_move, feed_target. canon_simpl. rdec. reflexivity.
Qed.

Lemma feed_target_not_angular : is_angular_move feed_target = false.
Proof.
  unfold is_angular_move, feed_target. canon_simpl. rdec. reflexivity.
Qed.

Lemma scenario_straight_limit (c nowhere : R) (w : World) :
  0 < c -> c < huge -> endPoint (canon w) = zero_position ->
  straight_limit scenario_machine (fun _ => c) nowhere feed_target w =
  Ok (c / 1) (classified scenario_machine feed_target w).
Proof.
  intros H1 H2 He. unfold straight_limit.
  eapply bind_run; [reflexivity | ].
  eapply bind_run; [reflexivity | ].
  fold (classified scenario_machine feed_target w).
  rewrite He, scenario_travels, feed_target_cartesian, feed_target_not_angular.
  cbn [negb andb].
  eapply bind_run; [apply FROM_EXT_LEN_run, scenario_units | ].
  rewrite feed_target_limit by assumption.
  eapply bind_run; [apply assert_run | reflexivity].
  unfold Rgtb. apply Rltb_true. cbn [linearUnits scenario_machine]. lra.
Qed.

Lemma classified_scenario (w : World) :
  endPoint (canon w) = zero_position ->
  cartesian_move (canon (classified scenario_machine feed_target w)) = true /\
  angular_move (canon (classified scenario_machine feed_target w)) = false.
Proof.
  intros He. unfold classified. cbv zeta.
  rewrite He, scenario_travels, feed_target_cartesian, feed_target_not_angular.
  split; reflexivity.
Qed.

Lemma FINISH_scenario :
  FINISH scenario_machine pending_world = Ok tt scenario1_final.
Proof.
  unfold FINISH, flush_segments.
  canon_simpl. cbv zeta. fold feed_target.
  destruct scenario_units as (Hl & Ha).
  assert (Hv : getStraightVelocity scenario_machine feed_target pending_world =
               Ok 10 (classified scenario_machine feed_target pending_world)).
  { unfold getStraightVelocity.
    eapply bind_run; [apply (scenario_straight_limit 100); unfold huge; try lra; reflexivity | ].
    eapply bind_run; [reflexivity | ].
    unfold ret. f_equal. unfold MIN. canon_simpl. rdec. reflexivity. }
  pose proof (scenario_straight_limit 10000 0
                (classified scenario_machine feed_target pending_world)) as Hj.
  rewrite classified_twice in Hj.
  specialize (Hj ltac:(lra) ltac:(unfold huge; lra) eq_refl).
  pose proof (scenario_straight_limit 1000 0
                (classified scenario_machine feed_target pending_world)) as Hc.
  rewrite classified_twice in Hc.
  specialize (Hc ltac:(lra) ltac:(unfold huge; lra) eq_refl).
  fold (getStraightJerk scenario_machine feed_target) in Hj.
  destruct (classified_scenario pending_world eq_refl) as (Hcm & Ham).
  set (w' := classified scenario_machine feed_target pending_world) in *.
  run_steps.
  assert (Hf : linearFeedRate (canon w') = 10) by reflexivity.
  assert (Hs : synched (canon w') = false) by reflexivity.
  assert (Hm : feed_mode (canon w') = 0%Z) by reflexivity.
  unfold clamp_feed. rewrite Hcm, Ham, Hf, Hs, Hm. canon_simpl. rdec.
  unfold w', classified. cbv zeta.
  change (endPoint (canon pending_world)) with zero_position.
  rewrite scenario_travels, feed_target_cartesian, feed_target_not_angular.
  unfold bind, canonUpdateEndPoint, modify, scenario1_final, scenario1_move.
  canon_simpl.
  replace (10 * 1) with 10 by lra. replace (0 * 1) with 0 by lra.
  replace (1000 / 1 * 1) with 1000 by lra.
  replace (10000 / 1 * 1) with 10000 by lra.
  reflexivity.
Qed.

Lemma scenario1_run :
  scenario1_program scenario_machine scenario_world = Ok tt scenario1_final.
Proof.
  unfold scenario1_program.
  eapply bind_run; [apply SET_FEED_RATE_scenario | ].
  eapply bind_run; [apply STRAIGHT_FEED_scenario | ].
  apply FINISH_scenario.
Qed.

(** C1, as the code has it: the program of scenario 1 appends exactly one
    linear move, of line 10, with [end.tran.x] 10, [vel] 10, [acc] 1000,
    [ini_maxjerk] 10000 and feed mode 0, and leaves the buffer empty; its
    [ini_maxvel] is 10, the velocity already limited by the feed rate in
    [getStraightVelocity]. *)
Theorem scenario1_emits_one_feed_move :
  exists (w' : World) (msg : EMC_TRAJ_LINEAR_MOVE_t),
    scenario1_program scenario_machine scenario_world = Ok tt w' /\
    chained_points w' = [] /\
    interp_list w' = [(10%Z, EMC_TRAJ_LINEAR_MOVE msg)] /\
    lm_type msg = EMC_MOTION_TYPE_FEED /\
    cx (tran (lm_end msg)) = 10 /\
    lm_vel msg = 10 /\
    lm_ini_maxvel msg = 10 /\
    lm_acc msg = 1000 /\
    lm_ini_maxjerk msg = 10000 /\
    lm_feed_mode msg = 0%Z.
Proof.
  exists scenario1_final, scenario1_move.
  split; [apply scenario1_run | ].
  repeat split; reflexivity.
Qed.

(** C1, as the claim has it, does not hold: no run of the program of
    scenario 1 ends with one linear move whose [ini_maxvel] is the envelope
    velocity 100. *)
Lemma scenario1_ini_maxvel_is_not_envelope :
  ~ exists (w' : World) (msg : EMC_TRAJ_LINEAR_MOVE_t),
      scenario1_program scenario_machine scenario_world = Ok tt w' /\
      interp_list w' = [(10%Z, EMC_TRAJ_LINEAR_MOVE msg)] /\
      cx (tran (lm_end msg)) = 10 /\
      lm_vel msg = 10 /\
      lm_ini_maxvel msg = 100 /\
      lm_acc msg = 1000 /\
      lm_ini_maxjerk msg = 10000 /\
      lm_feed_mode msg = 0%Z.
Proof.
  intros (w' & msg & Hrun & Hl & _ & _ & Hi & _).
  rewrite scenario1_run in Hrun. injection Hrun as <-.
  unfold scenario1_final in Hl. cbn [interp_list] in Hl.
  injection Hl as <-.
  unfold scenario1_move in Hi. cbn [lm_ini_maxvel] in Hi. lra.
Qed.

(** ** Waiting for an input *)

Lemma WAIT_bad_index (m : Machine) (index input_type wait_type : Z) (timeout : R)
    (w : World) :
  DIGITAL_INPUT m <> ANALOG_INPUT m ->
  bad_wait_index m index input_type ->
  WAIT m index input_type wait_type timeout w = Ok (-1)%Z w.
Proof.
  intros Hd [(-> & H) | (-> & H)]; unfold WAIT.
  - rewrite Z.eqb_refl.
    replace ((index <? 0) || (index >=? EMCMOT_MAX_DIO m))%Z with true; [reflexivity | ].
    symmetry. apply orb_true_iff. rewrite Z.ltb_lt, Z.geb_le. lia.
  - destruct (Z.eqb_spec (ANALOG_INPUT m) (DIGITAL_INPUT m)) as [E | _];
      [congruence | ].
    rewrite Z.eqb_refl.
    replace ((index <? 0) || (index >=? EMCMOT_MAX_AIO m))%Z with true; [reflexivity | ].
    symmetry. apply orb_true_iff. rewrite Z.ltb_lt, Z.geb_le. lia.
Qed.

Lemma WAIT_good_index (m : Machine) (index input_type wait_type : Z) (timeout : R) :
  ~ bad_wait_index m index input_type ->
  WAIT m index input_type wait_type timeout =
  (flush_segments m;;
   modify (interp_append
             (EMC_AUX_INPUT_WAIT (mkInputWait index input_type wait_type timeout)));;
   ret 0%Z).
Proof.
  intros H. unfold WAIT, bad_wait_index in *.
  destruct (Z.eqb_spec input_type (DIGITAL_INPUT m)) as [E1 | E1].
  - destruct (Z.ltb_spec index 0); [exfalso; apply H; lia | ].
    destruct (Z.geb_spec index (EMCMOT_MAX_DIO m)); [exfalso; apply H; lia | ].
    reflexivity.
  - destruct (Z.eqb_spec input_type (ANALOG_INPUT m)) as [E2 | E2]; [ | reflexivity].
    destruct (Z.ltb_spec index 0); [exfalso; apply H; lia | ].
    destruct (Z.geb_spec index (EMCMOT_MAX_AIO m)); [exfalso; apply H; lia | ].
    reflexivity.
Qed.

(** C9: with a digital input type and an index outside [0, EMCMOT_MAX_DIO),
    or an analog input type and an index outside [0, EMCMOT_MAX_AIO), [WAIT]
    returns -1 in the world it was called in: no message, the same buffer, the
    same canonical state.  In every other case it flushes the buffer, appends
    one input-wait message that carries the index, the input type, the wait
    type and the timeout, and returns 0; on a well-configured machine it does
    return. *)
Theorem WAIT_atomic_on_error (m : Machine) (index input_type wait_type : Z)
    (timeout : R) (w : World) :
  DIGITAL_INPUT m <> ANALOG_INPUT m ->
  (bad_wait_index m index input_type ->
   WAIT m index input_type wait_type timeout w = Ok (-1)%Z w) /\
  (~ bad_wait_index m index input_type ->
   (forall (u : unit) (w1 : World),
       flush_segments m w = Ok u w1 ->
       exists w',
         WAIT m index input_type wait_type timeout w = Ok 0%Z w' /\
         chained_points w' = [] /\
         canon w' = canon w1 /\
         interp_list w' =
         interp_list w1 ++
         [(interp_line w1,
           EMC_AUX_INPUT_WAIT (mkInputWait index input_type wait_type timeout))]) /\
   (machine_ok m ->
    exists w', WAIT m index input_type wait_type timeout w = Ok 0%Z w')).
Proof.
  intros Hd. split; [apply WAIT_bad_index, Hd | ].
  intros Hg. rewrite (WAIT_good_index m index input_type wait_type timeout Hg).
  split.
  - intros u w1 H. destruct u.
    eexists. split.
    + eapply bind_run; [exact H | ].
      eapply bind_run; reflexivity.
    + apply flush_segments_Ok in H. cbn [interp_append chained_points canon interp_list].
      auto.
  - intros Hok. destruct (flush_segments_run m w Hok) as (w1 & H).
    eexists. eapply bind_run; [exact H | ].
    eapply bind_run; reflexivity.
Qed.

Lemma WAIT_atomic_on_error_witness :
  DIGITAL_INPUT scenario_machine <> ANALOG_INPUT scenario_machine /\
  bad_wait_index scenario_machine 64 1 /\
  WAIT scenario_machine 64 1 0 5 pending_world = Ok (-1)%Z pending_world /\
  ~ bad_wait_index scenario_machine 3 1 /\
  exists w', WAIT scenario_machine 3 1 0 5 pending_world = Ok 0%Z w'.
Proof.
  assert (Hd : DIGITAL_INPUT scenario_machine <> ANALOG_INPUT scenario_machine)
    by (cbn; lia).
  assert (Hb : bad_wait_index scenario_machine 64 1)
    by (left; cbn; lia).
  assert (Hg : ~ bad_wait_index scenario_machine 3 1)
    by (unfold bad_wait_index; cbn; lia).
  split; [exact Hd | ]. split; [exact Hb | ].
  split; [exact (proj1 (WAIT_atomic_on_error scenario_machine 64 1 0 5 pending_world Hd) Hb) | ].
  split; [exact Hg | ].
  exact (proj2 (proj2 (WAIT_atomic_on_error scenario_machine 3 1 0 5 pending_world Hd) Hg)
           scenario_machine_ok).
Defined.

(** ** Rigid tapping *)

Lemma to_ext_pose_Ok (m : Machine) (p : CANON_POSITION) (w w' : World)
    (pose : EmcPose) :
  to_ext_pose m p w = Ok pose w' ->
  w' = w /\
  pose = mkPose (mkCart (px p * linearUnits m) (py p * linearUnits m)
                        (pz p * linearUnits m))
                (pa p * angularUnits m) (pb p * angularUnits m)
                (pc p * angularUnits m)
                (pu p * linearUnits m) (pv p * linearUnits m)
                (pw p * linearUnits m).
Proof.
  unfold to_ext_pose. intros H. bind_inv H.
  repeat match goal with
         | E : TO_EXT_LEN _ _ _ = Ok _ _ |- _ =>
           apply TO_EXT_LEN_Ok in E; destruct E as (-> & -> & ?)
         | E : TO_EXT_ANG _ _ _ = Ok _ _ |- _ =>
           apply TO_EXT_ANG_Ok in E; destruct E as (-> & -> & ?)
         end.
  inversion H. auto.
Qed.

Lemma to_ext_pose_run (m : Machine) (p : CANON_POSITION) (w : World) :
  linearUnits m <> 0 -> angularUnits m <> 0 ->
  exists pose, to_ext_pose m p w = Ok pose w.
Proof.
  intros Hl Ha. unfold to_ext_pose. eexists. run_steps. reflexivity.
Qed.

Lemma RIGID_TAP_Ok (m : Machine) (line_number : Z) (x y z : R) (w w' : World)
    (u : unit) :
  RIGID_TAP m line_number x y z w = Ok u w' ->
  exists w1,
    flush_segments m (classified m (tap_target (canon w) x y z) w) = Ok tt w1 /\
    canon w' = canon w1 /\
    chained_points w' = [] /\
    (interp_list w' = interp_list w1 \/
     exists msg,
       interp_list w' = interp_list w1 ++ [(line_number, EMC_TRAJ_RIGID_TAP msg)] /\
       ea (rt_pos msg) = pa (endPoint (canon w)) * angularUnits m /\
       eb (rt_pos msg) = pb (endPoint (canon w)) * angularUnits m /\
       ec (rt_pos msg) = pc (endPoint (canon w)) * angularUnits m /\
       eu (rt_pos msg) = pu (endPoint (canon w)) * linearUnits m /\
       ev (rt_pos msg) = pv (endPoint (canon w)) * linearUnits m /\
       ew (rt_pos msg) = pw (endPoint (canon w)) * linearUnits m).
Proof.
  unfold RIGID_TAP. intros H.
  apply bind_Ok in H. destruct H as (c & w0 & E & H).
  unfold get_canon in E. inversion E; subst c w0; clear E.
  cbv zeta in H. fold (tap_target (canon w) x y z) in H.
  set (p := tap_target (canon w) x y z) in *.
  bind_inv H.
  apply getStraightVelocity_Ok in E. subst w0.
  apply getStraightAcceleration_Ok in E0. rewrite classified_twice in E0. subst w1.
  apply to_ext_pose_Ok in E1. destruct E1 as (-> & ->).
  apply toExtVel_Ok in E2. destruct E2 as (-> & ->).
  apply toExtVel_Ok in E3. destruct E3 as (-> & ->).
  apply toExtVel_Ok in E4. destruct E4 as (-> & ->).
  destruct a5. exists w6. split; [exact E5 | ].
  apply flush_segments_Ok in E5.
  destruct (nonzero a && nonzero a0).
  - bind_inv H. unfold modify in *. inversion E; subst. inversion H; subst.
    cbn [canon chained_points interp_list interp_append interp_set_line_number
         interp_line].
    split; [reflexivity | ]. split; [exact E5 | ].
    right. eexists. split; [reflexivity | ].
    cbn [rt_pos ea eb ec eu ev ew]. unfold p, tap_target.
    cbn [pa pb pc pu pv pw]. repeat split; reflexivity.
  - inversion H; subst. auto.
Qed.

Lemma RIGID_TAP_run (m : Machine) (line_number : Z) (x y z : R) (w : World) :
  machine_ok m -> exists w', RIGID_TAP m line_number x y z w = Ok tt w'.
Proof.
  intros Hok. pose proof Hok as (Hl & Ha & _).
  assert (Hl0 : linearUnits m <> 0) by lra.
  assert (Ha0 : angularUnits m <> 0) by lra.
  unfold RIGID_TAP.
  eapply bind_returns; [reflexivity | ].
  cbv zeta. fold (tap_target (canon w) x y z).
  set (p := tap_target (canon w) x y z).
  destruct (getStraightVelocity_run m p w Hok) as (vel & Hv).
  destruct (getStraightAcceleration_run m p (classified m p w) Hok) as (acc & Hacc).
  rewrite classified_twice in Hacc.
  destruct (to_ext_pose_run m p (classified m p w) Hl0 Ha0) as (pose & Hp).
  destruct (flush_segments_run m (classified m p w) Hok) as (w1 & Hf).
  repeat (eapply bind_returns; [run_one | cbv beta]).
  destruct (nonzero vel && nonzero acc); eexists; run_steps; reflexivity.
Qed.

(** C7: [RIGID_TAP] does not move the end point.  When it returns, the end
    point is the one the flush inside it left, the buffer is empty, and the
    rigid-tap message, if one was appended, has the a, b, c, u, v, w of the
    end point of the call, in external units.  On a well-configured machine
    the function does return. *)
Theorem RIGID_TAP_keeps_endPoint (m : Machine) (line_number : Z) (x y z : R)
    (w : World) :
  (forall (u : unit) (w' : World),
      RIGID_TAP m line_number x y z w = Ok u w' ->
      exists w1,
        flush_segments m (classified m (tap_target (canon w) x y z) w) = Ok tt w1 /\
        endPoint (canon w') = endPoint (canon w1) /\
        chained_points w' = [] /\
        (interp_list w' = interp_list w1 \/
         exists msg,
           interp_list w' =
           interp_list w1 ++ [(line_number, EMC_TRAJ_RIGID_TAP msg)] /\
           ea (rt_pos msg) = pa (endPoint (canon w)) * angularUnits m /\
           eb (rt_pos msg) = pb (endPoint (canon w)) * angularUnits m /\
           ec (rt_pos msg) = pc (endPoint (canon w)) * angularUnits m /\
           eu (rt_pos msg) = pu (endPoint (canon w)) * linearUnits m /\
           ev (rt_pos msg) = pv (endPoint (canon w)) * linearUnits m /\
           ew (rt_pos msg) = pw (endPoint (canon w)) * linearUnits m)) /\
  (machine_ok m -> exists w', RIGID_TAP m line_number x y z w = Ok tt w').
Proof.
  split.
  - intros u w' H. apply RIGID_TAP_Ok in H.
    destruct H as (w1 & H1 & H2 & H3 & H4).
    exists w1. rewrite H2. auto.
  - apply RIGID_TAP_run.
Qed.

Lemma RIGID_TAP_keeps_endPoint_witness :
  machine_ok scenario_machine /\
  exists w' w1,
    RIGID_TAP scenario_machine 11 0 0 (-5) pending_world = Ok tt w' /\
    flush_segments scenario_machine
      (classified scenario_machine (tap_target (canon pending_world) 0 0 (-5))
         pending_world) = Ok tt w1 /\
    endPoint (canon w') = endPoint (canon w1).
Proof.
  split; [exact scenario_machine_ok | ].
  destruct (RIGID_TAP_keeps_endPoint scenario_machine 11 0 0 (-5) pending_world)
    as (H1 & H2).
  destruct (H2 scenario_machine_ok) as (w' & Hw').
  destruct (H1 tt w' Hw') as (w1 & Hf & He & _).
  exists w', w1. split; [exact Hw' | ]. split; [exact Hf | exact He].
Defined.

(** ** Mutators and the segment buffer *)

Section Unseen.

Variable s : CanonConfig_t -> CanonConfig_t.
Variables pre post : list (Z * NMLmsg).
Hypothesis Hs : unseen_by_flush s.

Lemma bind_get_canon {A : Type} (k : CanonConfig_t -> M A) (w : World) :
  bind get_canon k w = k (canon w) w.
Proof. reflexivity. Qed.

Lemma similar_bind {A B : Type} (c : M A) (k : A -> M B) (w w2 : World) :
  similar_result s pre post (c w) (c w2) ->
  (forall a w w2, similar s pre post w w2 -> similar_result s pre post (k a w) (k a w2)) ->
  similar_result s pre post (bind c k w) (bind c k w2).
Proof.
  intros Hc Hk. unfold bind.
  destruct (c w) as [a w1 | f], (c w2) as [a2 w3 | f2]; simpl in Hc;
    try contradiction.
  - destruct Hc as (<- & Hw). apply Hk, Hw.
  - exact Hc.
Qed.

Lemma similar_ret {A : Type} (a : A) (w w2 : World) :
  similar s pre post w w2 -> similar_result s pre post (ret a w) (ret a w2).
Proof. intros H. simpl. auto. Qed.

Lemma similar_units (m : Machine) (w w2 : World) :
  similar s pre post w w2 ->
  similar_result s pre post (GET_EXTERNAL_LENGTH_UNITS m w) (GET_EXTERNAL_LENGTH_UNITS m w2) /\
  similar_result s pre post (GET_EXTERNAL_ANGLE_UNITS m w) (GET_EXTERNAL_ANGLE_UNITS m w2).
Proof.
  intros H. unfold GET_EXTERNAL_LENGTH_UNITS, GET_EXTERNAL_ANGLE_UNITS.
  split.
  - destruct (Reqb (linearUnits m) 0); simpl; auto.
  - destruct (Reqb (angularUnits m) 0); simpl; auto.
Qed.

Lemma similar_TO_EXT_LEN (m : Machine) (x : R) (w w2 : World) :
  similar s pre post w w2 -> similar_result s pre post (TO_EXT_LEN m x w) (TO_EXT_LEN m x w2).
Proof.
  intros H. unfold TO_EXT_LEN. apply similar_bind.
  - apply similar_units, H.
  - intros; apply similar_ret; assumption.
Qed.

Lemma similar_TO_EXT_ANG (m : Machine) (x : R) (w w2 : World) :
  similar s pre post w w2 -> similar_result s pre post (TO_EXT_ANG m x w) (TO_EXT_ANG m x w2).
Proof.
  intros H. unfold TO_EXT_ANG. apply similar_bind.
  - apply similar_units, H.
  - intros; apply similar_ret; assumption.
Qed.

Lemma similar_FROM_EXT_LEN (m : Machine) (x : R) (w w2 : World) :
  similar s pre post w w2 -> similar_result s pre post (FROM_EXT_LEN m x w) (FROM_EXT_LEN m x w2).
Proof.
  intros H. unfold FROM_EXT_LEN. apply similar_bind.
  - apply similar_units, H.
  - intros; apply similar_ret; assumption.
Qed.

Lemma similar_FROM_EXT_ANG (m : Machine) (x : R) (w w2 : World) :
  similar s pre post w w2 -> similar_result s pre post (FROM_EXT_ANG m x w) (FROM_EXT_ANG m x w2).
Proof.
  intros H. unfold FROM_EXT_ANG. apply similar_bind.
  - apply similar_units, H.
  - intros; apply similar_ret; assumption.
Qed.

Lemma similar_assert (b : bool) (w w2 : World) :
  similar s pre post w w2 -> similar_result s pre post (assert b w) (assert b w2).
Proof. intros H. destruct b; simpl; auto. Qed.

Lemma similar_with_canon (f : CanonConfig_t -> CanonConfig_t) (w w2 : World) :
  (forall c, s (f c) = f (s c)) ->
  similar s pre post w w2 -> similar s pre post (with_canon f w) (with_canon f w2).
Proof.
  intros Hf (Hc & Hp & Hl & tail & H1 & H2).
  unfold similar. cbn [canon chained_points interp_line interp_list with_canon].
  rewrite Hc, Hf. repeat split; try assumption. exists tail. auto.
Qed.

Ltac sim_step :=
  match goal with
  | |- similar_result _ _ _ (TO_EXT_LEN _ _ _) _ => apply similar_TO_EXT_LEN
  | |- similar_result _ _ _ (TO_EXT_ANG _ _ _) _ => apply similar_TO_EXT_ANG
  | |- similar_result _ _ _ (FROM_EXT_LEN _ _ _) _ => apply similar_FROM_EXT_LEN
  | |- similar_result _ _ _ (FROM_EXT_ANG _ _ _) _ => apply similar_FROM_EXT_ANG
  | |- similar_result _ _ _ (assert _ _) _ => apply similar_assert
  | |- similar_result _ _ _ (ret _ _) _ => apply similar_ret
  | |- similar_result _ _ _ (bind _ _ _) _ => apply similar_bind; [ | intros ]
  end.

Lemma similar_toExtVel (m : Machine) (v : R) (w w2 : World) :
  similar s pre post w w2 -> similar_result s pre post (toExtVel m v w) (toExtVel m v w2).
Proof.
  intros H. unfold toExtVel. rewrite !bind_get_canon.
  destruct Hs as (_ & _ & _ & _ & _ & Hcm & Ham & _).
  destruct H as (Hc & H'). rewrite Hc, Hcm, Ham.
  assert (H : similar s pre post w w2) by (split; assumption).
  destruct (cartesian_move (canon w)), (angular_move (canon w));
    cbn [andb negb]; sim_step; exact H.
Qed.

Lemma similar_straight_limit (m : Machine) (limit : Z -> R) (nowhere : R)
    (p : CANON_POSITION) (w w2 : World) :
  similar s pre post w w2 ->
  similar_result s pre post (straight_limit m limit nowhere p w) (straight_limit m limit nowhere p w2).
Proof.
  intros H. unfold straight_limit. rewrite !bind_get_canon.
  pose proof Hs as (Hep & _ & _ & _ & _ & _ & _ & Hsc & Hsa & _).
  pose proof H as (Hc & _). rewrite Hc, Hep.
  set (d := travels m p (endPoint (canon w))).
  apply similar_bind.
  - simpl. split; [reflexivity | ].
    apply similar_with_canon; [ | exact H].
    intros c. rewrite Hsa, Hsc. reflexivity.
  - intros _ w1 w3 H1.
    destruct (is_cartesian_move d), (is_angular_move d); cbn [andb negb];
      repeat first [assumption | sim_step | progress cbv zeta].
Qed.

Lemma similar_getStraightVelocity (m : Machine) (p : CANON_POSITION)
    (w w2 : World) :
  similar s pre post w w2 ->
  similar_result s pre post (getStraightVelocity m p w) (getStraightVelocity m p w2).
Proof.
  intros H. unfold getStraightVelocity.
  apply similar_bind; [apply similar_straight_limit, H | ].
  intros v w1 w3 H1. rewrite !bind_get_canon.
  destruct Hs as (_ & Hlf & _).
  pose proof H1 as (Hc & _). rewrite Hc, Hlf. apply similar_ret, H1.
Qed.

Lemma similar_interp_append (msg : NMLmsg) (w w2 : World) :
  similar s pre post w w2 -> similar s pre post (interp_append msg w) (interp_append msg w2).
Proof.
  intros (Hc & Hp & Hl & tail & H1 & H2).
  unfold similar. cbn [canon chained_points interp_line interp_list interp_append].
  repeat split; try assumption.
  exists (tail ++ [(interp_line w, msg)]).
  rewrite H1, H2, Hl, !app_assoc. auto.
Qed.

Lemma similar_interp_set_line_number (n : Z) (w w2 : World) :
  similar s pre post w w2 -> similar s pre post (interp_set_line_number n w) (interp_set_line_number n w2).
Proof.
  intros (Hc & Hp & Hl & tail & H1 & H2).
  unfold similar.
  cbn [canon chained_points interp_line interp_list interp_set_line_number].
  repeat split; try assumption. exists tail. auto.
Qed.

Lemma similar_with_chained_points (l : list pt) (w w2 : World) :
  similar s pre post w w2 -> similar s pre post (with_chained_points l w) (with_chained_points l w2).
Proof.
  intros (Hc & Hp & Hl & tail & H1 & H2).
  unfold similar.
  cbn [canon chained_points interp_line interp_list with_chained_points].
  repeat split; try assumption. exists tail. auto.
Qed.

(** A flush of two similar worlds: both stop with the same fault, or both
    return, in similar worlds. *)
Lemma similar_flush_segments (m : Machine) (w w2 : World) :
  similar s pre post w w2 -> similar_result s pre post (flush_segments m w) (flush_segments m w2).
Proof.
  intros H. unfold flush_segments.
  pose proof H as (Hc & Hp & _). rewrite Hp.
  destruct (back (chained_points w)) as [pos | ]; [ | simpl; auto].
  cbv zeta.
  pose proof Hs as (_ & Hlf & Haf & Hfm & Hsy & Hcm & Ham & _ & _ & Hse).
  apply similar_bind; [apply similar_getStraightVelocity, H | ].
  intros vel w1 w3 H1.
  rewrite !bind_get_canon.
  pose proof H1 as (Hc1 & _). rewrite Hc1.
  unfold clamp_feed. rewrite Hlf, Haf, Hfm, Hcm, Ham.
  fold (clamp_feed (canon w1) vel).
  unfold getStraightJerk, getStraightAcceleration, toExtAcc.
  repeat (apply similar_bind;
          [ match goal with
            | |- similar_result _ _ _ (TO_EXT_LEN _ _ _) _ =>
              apply similar_TO_EXT_LEN
            | |- similar_result _ _ _ (TO_EXT_ANG _ _ _) _ =>
              apply similar_TO_EXT_ANG
            | |- similar_result _ _ _ (toExtVel _ _ _) _ =>
              apply similar_toExtVel
            | |- similar_result _ _ _ (straight_limit _ _ _ _ _) _ =>
              apply similar_straight_limit
            end; assumption
          | intros ]).
  rewrite !bind_get_canon.
  match goal with
  | Hw : similar _ _ _ ?wa ?wb |- context [synched (canon ?wb)] =>
    pose proof Hw as (Hcw & _); rewrite Hcw, Hsy
  end.
  apply similar_bind.
  - match goal with
    | |- context [if ?b then _ else _] => destruct b
    end.
    + apply similar_bind.
      * simpl. split; [reflexivity | ].
        apply similar_interp_set_line_number. assumption.
      * intros. simpl. split; [reflexivity | ].
        apply similar_interp_append. assumption.
    + apply similar_ret. assumption.
  - intros. apply similar_bind.
    + simpl. split; [reflexivity | ].
      apply similar_with_canon; [intros; apply Hse | assumption].
    + intros. simpl. split; [reflexivity | ].
      apply similar_with_chained_points. assumption.
Qed.

End Unseen.

Lemma set_xy_rotation_unseen (t : R) : unseen_by_flush (set_xy_rotation t).
Proof. unfold unseen_by_flush. repeat split. Qed.

Lemma set_lengthUnits_unseen (u : CANON_UNITS) : unseen_by_flush (set_lengthUnits u).
Proof. unfold unseen_by_flush. repeat split. Qed.

(** ** Functions that keep or empty the segment buffer *)

Lemma keeps_bind {A B : Type} (c : M A) (k : A -> M B) :
  keeps_buffer c -> (forall a, keeps_buffer (k a)) -> keeps_buffer (bind c k).
Proof.
  intros Hc Hk w w' b H. apply bind_Ok in H. destruct H as (a & w1 & H1 & H2).
  rewrite (Hk a w1 w' b H2). apply (Hc w w1 a H1).
Qed.

Lemma empties_then_keeps {A B : Type} (c : M A) (k : A -> M B) :
  empties_buffer c -> (forall a, keeps_buffer (k a)) -> empties_buffer (bind c k).
Proof.
  intros Hc Hk w w' b H. apply bind_Ok in H. destruct H as (a & w1 & H1 & H2).
  rewrite (Hk a w1 w' b H2). apply (Hc w w1 a H1).
Qed.

Lemma then_empties {A B : Type} (c : M A) (k : A -> M B) :
  (forall a, empties_buffer (k a)) -> empties_buffer (bind c k).
Proof.
  intros Hk w w' b H. apply bind_Ok in H. destruct H as (a & w1 & H1 & H2).
  apply (Hk a w1 w' b H2).
Qed.

Lemma keeps_ret {A : Type} (a : A) : keeps_buffer (ret a).
Proof. intros w w' a' H. inversion H. reflexivity. Qed.

Lemma keeps_get_canon : keeps_buffer get_canon.
Proof. intros w w' a' H. inversion H. reflexivity. Qed.

Lemma keeps_with_canon (f : CanonConfig_t -> CanonConfig_t) :
  keeps_buffer (modify (with_canon f)).
Proof. intros w w' a' H. inversion H. reflexivity. Qed.

Lemma keeps_interp_append (msg : NMLmsg) : keeps_buffer (modify (interp_append msg)).
Proof. intros w w' a' H. inversion H. reflexivity. Qed.

Lemma keeps_TO_EXT_LEN (m : Machine) (x : R) : keeps_buffer (TO_EXT_LEN m x).
Proof. intros w w' a' H. apply TO_EXT_LEN_Ok in H. destruct H as (-> & _). reflexivity. Qed.

Lemma keeps_TO_EXT_ANG (m : Machine) (x : R) : keeps_buffer (TO_EXT_ANG m x).
Proof. intros w w' a' H. apply TO_EXT_ANG_Ok in H. destruct H as (-> & _). reflexivity. Qed.

Lemma flush_segments_empties (m : Machine) : empties_buffer (flush_segments m).
Proof. intros w w' a H. apply (flush_segments_Ok m w w' a H). Qed.

Ltac buffer_step :=
  match goal with
  | |- keeps_buffer (ret _) => apply keeps_ret
  | |- keeps_buffer get_canon => apply keeps_get_canon
  | |- keeps_buffer (modify (with_canon _)) => apply keeps_with_canon
  | |- keeps_buffer (modify (interp_append _)) => apply keeps_interp_append
  | |- keeps_buffer (TO_EXT_LEN _ _) => apply keeps_TO_EXT_LEN
  | |- keeps_buffer (TO_EXT_ANG _ _) => apply keeps_TO_EXT_ANG
  | |- keeps_buffer (bind _ _) => apply keeps_bind; [ | intros ]
  | |- keeps_buffer (if ?b then _ else _) => destruct b
  | |- empties_buffer (flush_segments _) => apply flush_segments_empties
  | |- empties_buffer (bind (flush_segments _) _) =>
    apply empties_then_keeps; [apply flush_segments_empties | intros ]
  end.

Lemma keeps_css_speed_msg (m : Machine) (c : CanonConfig_t) :
  keeps_buffer (css_speed_msg m c).
Proof. unfold css_speed_msg. repeat buffer_step. Qed.

Lemma STOP_SPEED_FEED_SYNCH_empties (m : Machine) :
  empties_buffer (STOP_SPEED_FEED_SYNCH m).
Proof. unfold STOP_SPEED_FEED_SYNCH. repeat buffer_step. Qed.

Lemma SET_FEED_MODE_empties (m : Machine) (mode : Z) :
  empties_buffer (SET_FEED_MODE m mode).
Proof.
  unfold SET_FEED_MODE. destruct (mode =? 0)%Z.
  - apply then_empties; intros. apply then_empties; intros.
    apply STOP_SPEED_FEED_SYNCH_empties.
  - repeat buffer_step.
Qed.

Lemma SET_MOTION_CONTROL_MODE_empties (m : Machine) (mode : CANON_MOTION_MODE)
    (tolerance : R) :
  empties_buffer (SET_MOTION_CONTROL_MODE m mode tolerance).
Proof. unfold SET_MOTION_CONTROL_MODE. destruct mode; repeat buffer_step. Qed.

Lemma USE_TOOL_LENGTH_OFFSET_empties (m : Machine) (offset : EmcPose) :
  empties_buffer (USE_TOOL_LENGTH_OFFSET m offset).
Proof.
  unfold USE_TOOL_LENGTH_OFFSET.
  repeat first [buffer_step | apply keeps_css_speed_msg].
Qed.

Lemma send_origin_msg_empties (m : Machine) : empties_buffer (send_origin_msg m).
Proof.
  unfold send_origin_msg.
  repeat first [buffer_step | apply keeps_css_speed_msg].
Qed.

Lemma SET_ORIGIN_OFFSETS_empties (m : Machine) (p : CANON_POSITION) :
  empties_buffer (SET_ORIGIN_OFFSETS m p).
Proof.
  unfold SET_ORIGIN_OFFSETS.
  apply then_empties; intros. apply then_empties; intros.
  apply send_origin_msg_empties.
Qed.

Lemma flush_after_unseen (m : Machine) (s : CanonConfig_t -> CanonConfig_t)
    (post : list (Z * NMLmsg)) (w w' w1 : World) :
  unseen_by_flush s ->
  similar s (interp_list w) post w w' ->
  flush_segments m w = Ok tt w1 ->
  exists w1' moves,
    flush_segments m w' = Ok tt w1' /\
    interp_list w1 = interp_list w ++ moves /\
    interp_list w1' = post ++ moves /\
    endPoint (canon w1') = endPoint (canon w1) /\
    chained_points w1' = [].
Proof.
  intros Hs Hsim Hf.
  pose proof (similar_flush_segments s (interp_list w) post Hs m w w' Hsim) as H.
  rewrite Hf in H.
  destruct (flush_segments m w') as [u w1' | f]; simpl in H; [ | contradiction].
  destruct H as (<- & Hc & Hp & _ & moves & H1 & H2).
  exists w1', moves. split; [reflexivity | ].
  split; [exact H1 | ]. split; [exact H2 | ]. split.
  - rewrite Hc. apply Hs.
  - rewrite Hp. apply (flush_segments_Ok m w w1 tt Hf).
Qed.




(** ** The fusion predicate and the size of the buffer *)

Lemma chord_distance_spec (c : CanonConfig_t) (x y z : R) (it : pt) :
  chord_distance c x y z it =
  distance_to_segment (xyz_of_pos (endPoint c)) (mkCart x y z) (xyz_of_pt it).
Proof.
  unfold chord_distance, distance_to_segment, xyz_of_pos, xyz_of_pt.
  cbv zeta. unfold cart_sub at 1 3 4. cbn [cx cy cz].
  set (t := dot _ _ / dot _ _).
  replace (if Rgtb (if Rltb t 0 then 0 else t) 1 then 1
           else if Rltb t 0 then 0 else t)
    with (Rmax 0 (Rmin 1 t)); [reflexivity | ].
  unfold Rmax, Rmin, Rgtb, Rltb.
  destruct (Rle_dec 1 t), (Rlt_dec t 0); try lra;
    repeat match goal with
           | |- context [Rle_dec ?a ?b] => destruct (Rle_dec a b)
           | |- context [Rlt_dec ?a ?b] => destruct (Rlt_dec a b)
           end; lra.
Qed.

Lemma mag_nonneg (v : PmCartesian) : 0 <= mag v.
Proof. unfold mag. apply sqrt_pos. Qed.

Lemma linkable_loop_Forall (c : CanonConfig_t) (x y z : R) (its : list pt) :
  linkable_loop c x y z its = true <->
  forall P, In P its -> chord_distance c x y z P <= naivecamTolerance c.
Proof.
  induction its as [| it its IH]; simpl.
  - split; [intros _ P [] | reflexivity].
  - destruct (Rgtb (chord_distance c x y z it) (naivecamTolerance c)) eqn:E.
    + split; [discriminate | ]. intros H.
      assert (Hle : chord_distance c x y z it <= naivecamTolerance c)
        by (apply H; left; reflexivity).
      apply Rgtb_false_iff in Hle. congruence.
    + apply Rgtb_false_iff in E. rewrite IH. split.
      * intros H P [<- | HP]; [exact E | apply H, HP].
      * intros H P HP. apply H. right. exact HP.
Qed.

Lemma back_In (l : list pt) (q : pt) : back l = Some q -> In q l.
Proof.
  induction l as [| q0 l IH]; [discriminate | ].
  simpl. destruct l as [| q1 l'].
  - intros H. inversion H. left. reflexivity.
  - intros H. right. apply IH, H.
Qed.

Lemma xyz_eq_iff (p e : CANON_POSITION) :
  Reqb (px p) (px e) && Reqb (py p) (py e) && Reqb (pz p) (pz e) = true <->
  xyz_of_pos p = xyz_of_pos e.
Proof.
  unfold xyz_of_pos. rewrite !andb_true_iff, !Reqb_spec. split.
  - intros ((-> & ->) & ->). reflexivity.
  - intros H. inversion H. auto.
Qed.

Lemma linkable_Ok (p : CANON_POSITION) (w w' : World) (l : bool) :
  linkable p w = Ok l w' -> w' = w.
Proof.
  unfold linkable. destruct (back (chained_points w)); [ | discriminate].
  repeat match goal with
         | |- context [if ?b then _ else _] => destruct b
         end; intros H; inversion H; reflexivity.
Qed.

Lemma linkable_characterised (w : World) (p : CANON_POSITION) :
  chained_points w <> [] ->
  exists l, linkable p w = Ok l w /\ (l = true <-> linkable_spec 101 w p).
Proof.
  intros Hne. unfold linkable, linkable_spec.
  destruct (back (chained_points w)) as [pos | ] eqn:Hb;
    [ | apply back_None in Hb; contradiction].
  pose proof (back_In _ _ Hb) as Hin.
  destruct (CANON_MOTION_MODE_eqb (motionMode (canon w)) CANON_CONTINUOUS) eqn:Em;
    cbn [negb orb].
  2: { exists false. split; [reflexivity | ]. split; [discriminate | ].
       intros (H & _). rewrite H in Em. discriminate Em. }
  assert (Hm : motionMode (canon w) = CANON_CONTINUOUS)
    by (destruct (motionMode (canon w)); [discriminate | reflexivity]).
  destruct (Reqb (naivecamTolerance (canon w)) 0) eqn:Et.
  { exists false. split; [reflexivity | ]. split; [discriminate | ].
    intros (_ & H & _). apply Reqb_spec in Et. lra. }
  assert (Ht : naivecamTolerance (canon w) <> 0).
  { intros H. apply Reqb_spec in H. congruence. }
  destruct (100 <? length (chained_points w))%nat eqn:El.
  { exists false. split; [reflexivity | ]. split; [discriminate | ].
    intros (_ & _ & H & _). apply Nat.ltb_lt in El. lia. }
  apply Nat.ltb_ge in El.
  destruct (Rneb (pa p) (pt_a pos)) eqn:Ea.
  { exists false. split; [reflexivity | ]. split; [discriminate | ].
    intros (_ & _ & _ & (pos' & Hb' & H & _) & _).
    inversion Hb'; subst pos'.
    apply Rneb_false_iff in H. congruence. }
  destruct (Rneb (pb p) (pt_b pos)) eqn:Eb.
  { exists false. split; [reflexivity | ]. split; [discriminate | ].
    intros (_ & _ & _ & (pos' & Hb' & _ & H & _) & _).
    inversion Hb'; subst pos'.
    apply Rneb_false_iff in H. congruence. }
  destruct (Rneb (pc p) (pt_c pos)) eqn:Ec.
  { exists false. split; [reflexivity | ]. split; [discriminate | ].
    intros (_ & _ & _ & (pos' & Hb' & _ & _ & H & _) & _).
    inversion Hb'; subst pos'.
    apply Rneb_false_iff in H. congruence. }
  destruct (Rneb (pu p) (pt_u pos)) eqn:Eu.
  { exists false. split; [reflexivity | ]. split; [discriminate | ].
    intros (_ & _ & _ & (pos' & Hb' & _ & _ & _ & H & _) & _).
    inversion Hb'; subst pos'.
    apply Rneb_false_iff in H. congruence. }
  destruct (Rneb (pv p) (pt_v pos)) eqn:Ev.
  { exists false. split; [reflexivity | ]. split; [discriminate | ].
    intros (_ & _ & _ & (pos' & Hb' & _ & _ & _ & _ & H & _) & _).
    inversion Hb'; subst pos'.
    apply Rneb_false_iff in H. congruence. }
  destruct (Rneb (pw p) (pt_w pos)) eqn:Ew.
  { exists false. split; [reflexivity | ]. split; [discriminate | ].
    intros (_ & _ & _ & (pos' & Hb' & _ & _ & _ & _ & _ & H) & _).
    inversion Hb'; subst pos'.
    apply Rneb_false_iff in H. congruence. }
  apply Rneb_false_iff in Ea, Eb, Ec, Eu, Ev, Ew.
  destruct (Reqb (px p) (px (endPoint (canon w)))
            && Reqb (py p) (py (endPoint (canon w)))
            && Reqb (pz p) (pz (endPoint (canon w)))) eqn:Ex.
  { exists false. split; [reflexivity | ]. split; [discriminate | ].
    intros (_ & _ & _ & _ & H & _). apply xyz_eq_iff in Ex. contradiction. }
  assert (Hx : xyz_of_pos p <> xyz_of_pos (endPoint (canon w))).
  { intros H. apply xyz_eq_iff in H. congruence. }
  eexists. split; [reflexivity | ].
  rewrite linkable_loop_Forall. split.
  - intros H.
    assert (H' : forall P, In P (chained_points w) ->
                 distance_to_segment (xyz_of_pos (endPoint (canon w)))
                   (xyz_of_pos p) (xyz_of_pt P) <= naivecamTolerance (canon w)).
    { intros P HP. specialize (H P HP). rewrite chord_distance_spec in H. exact H. }
    split; [exact Hm | ]. split.
    + specialize (H' pos Hin).
      unfold distance_to_segment in H'. cbv zeta in H'.
      pose proof (mag_nonneg
        (cart_sub (xyz_of_pt pos)
           (cart_add (xyz_of_pos (endPoint (canon w)))
              (cart_scale
                 (Rmax 0
                    (Rmin 1
                       (dot (cart_sub (xyz_of_pos p) (xyz_of_pos (endPoint (canon w))))
                          (cart_sub (xyz_of_pt pos) (xyz_of_pos (endPoint (canon w)))) /
                        dot (cart_sub (xyz_of_pos p) (xyz_of_pos (endPoint (canon w))))
                          (cart_sub (xyz_of_pos p) (xyz_of_pos (endPoint (canon w)))))))
                 (cart_sub (xyz_of_pos p) (xyz_of_pos (endPoint (canon w)))))))).
      lra.
    + split; [lia | ]. split; [exists pos; auto 10 | ]. split; assumption.
  - intros (_ & _ & _ & _ & _ & H) P HP. rewrite chord_distance_spec. apply H, HP.
Qed.

Lemma linkable_true_size (p : CANON_POSITION) (w w' : World) :
  linkable p w = Ok true w' -> (length (chained_points w) <= 100)%nat.
Proof.
  intros H. destruct (chained_points w) as [| q l] eqn:E.
  - simpl. lia.
  - assert (Hne : chained_points w <> []) by (rewrite E; discriminate).
    destruct (linkable_characterised w p Hne) as (b & Hb & Hs).
    rewrite Hb in H. inversion H; subst b.
    destruct Hs as (Hs & _). destruct (Hs eq_refl) as (_ & _ & Hl & _).
    rewrite E in Hl. lia.
Qed.

Lemma see_segment_bound (m : Machine) (line_number : Z) (p : CANON_POSITION)
    (w w' : World) (u : unit) :
  see_segment m line_number p w = Ok u w' ->
  (length (chained_points w') <= 101)%nat.
Proof.
  unfold see_segment. intros H.
  apply bind_Ok in H. destruct H as (c & w0 & E & H).
  unfold get_canon in E. inversion E; subst c w0; clear E.
  cbv zeta in H.
  apply bind_Ok in H. destruct H as (u1 & w1 & E1 & H).
  apply bind_Ok in H. destruct H as (u2 & w2 & E2 & H).
  assert (H1 : (length (chained_points w1) <= 100)%nat).
  { destruct (is_empty (chained_points w)) eqn:Ee; cbn [negb] in E1.
    - inversion E1; subst. destruct (chained_points w1); [simpl; lia | discriminate].
    - apply bind_Ok in E1. destruct E1 as (l & w3 & El & E1).
      pose proof (linkable_Ok _ _ _ _ El) as ->.
      destruct l; cbn [negb] in E1.
      + inversion E1; subst. apply (linkable_true_size p w1 w1 El).
      + apply flush_segments_Ok in E1. rewrite E1. simpl. lia. }
  unfold modify in E2. inversion E2; subst u2 w2; clear E2.
  match type of H with
  | (if ?b then _ else _) _ = _ => destruct b
  end.
  - apply flush_segments_Ok in H. rewrite H. simpl. lia.
  - inversion H; subst.
    cbn [chained_points with_chained_points]. rewrite length_app. simpl. lia.
Qed.

Lemma back_repeat (q : pt) (n : nat) : back (repeat q (S n)) = Some q.
Proof.
  induction n as [| n IH]; [reflexivity | ].
  change (repeat q (S (S n))) with (q :: repeat q (S n)).
  simpl in *. exact IH.
Qed.

Lemma full_world_distance :
  distance_to_segment (xyz_of_pos (endPoint (canon full_world)))
    (xyz_of_pos next_target) (xyz_of_pt (mkPt 1 0 0 0 0 0 0 0 0 10)) = 0.
Proof.
  unfold distance_to_segment, xyz_of_pos, xyz_of_pt, next_target.
  change (endPoint (canon full_world)) with zero_position.
  unfold zero_position. cbn [px py pz pt_x pt_y pt_z].
  unfold cart_sub, cart_add, cart_scale, dot. cbn [cx cy cz].
  replace ((2 - 0) * (1 - 0) + (0 - 0) * (0 - 0) + (0 - 0) * (0 - 0)) with 2 by lra.
  replace ((2 - 0) * (2 - 0) + (0 - 0) * (0 - 0) + (0 - 0) * (0 - 0)) with 4 by lra.
  replace (Rmax 0 (Rmin 1 (2 / 4))) with (1 / 2).
  2: { unfold Rmax, Rmin.
       destruct (Rle_dec 1 (2 / 4)); [lra | ].
       destruct (Rle_dec 0 (2 / 4)); lra. }
  unfold mag, dot. cbn [cx cy cz].
  match goal with
  | |- sqrt ?e = 0 => replace e with 0 by lra
  end.
  apply sqrt_0.
Qed.

Lemma full_world_linkable : linkable_spec 101 full_world next_target.
Proof.
  unfold linkable_spec.
  change (chained_points full_world) with (repeat (mkPt 1 0 0 0 0 0 0 0 0 10) 100).
  split; [reflexivity | ].
  split; [cbn; lra | ].
  split; [rewrite repeat_length; lia | ].
  split.
  - exists (mkPt 1 0 0 0 0 0 0 0 0 10).
    split; [apply (back_repeat _ 99) | ]. repeat split; reflexivity.
  - split.
    + unfold xyz_of_pos, next_target. cbn. intros H. inversion H. lra.
    + intros P HP. apply repeat_spec in HP. subst P.
      rewrite full_world_distance. cbn. lra.
Qed.

Lemma full_world_nonempty : chained_points full_world <> [].
Proof. discriminate. Qed.

Lemma linkable_full_world : linkable next_target full_world = Ok true full_world.
Proof.
  destruct (linkable_characterised full_world next_target full_world_nonempty)
    as (l & Hl & Hs).
  rewrite Hl. f_equal. apply Hs, full_world_linkable.
Qed.

(** C2, as the code has it.  On a buffer that is not empty, [linkable]
    returns, changes nothing, and answers true exactly when the motion mode is
    continuous, the naive-cam tolerance is positive, the buffer holds at most
    100 entries (fewer than 101), a, b, c, u, v, w equal those of the last
    entry, (x, y, z) is not the end point, and every buffered point is within
    the tolerance of the segment from the end point to the candidate.  After
    [see_segment] the buffer holds at most 101 entries. *)
Theorem linkable_iff_and_buffer_bound (m : Machine) (w : World) (p : CANON_POSITION) :
  (chained_points w <> [] ->
   exists l, linkable p w = Ok l w /\ (l = true <-> linkable_spec 101 w p)) /\
  (forall (line_number : Z) (u : unit) (w' : World),
      see_segment m line_number p w = Ok u w' ->
      (length (chained_points w') <= 101)%nat).
Proof.
  split.
  - apply linkable_characterised.
  - intros line_number u w'. apply see_segment_bound.
Qed.

Lemma linkable_iff_and_buffer_bound_witness :
  chained_points full_world <> [] /\
  exists l, linkable next_target full_world = Ok l full_world /\
            (l = true <-> linkable_spec 101 full_world next_target).
Proof.
  split; [exact full_world_nonempty | ].
  exact (proj1 (linkable_iff_and_buffer_bound scenario_machine full_world next_target)
           full_world_nonempty).
Defined.

(** C2, as the claim has it, does not hold: with 100 entries in the buffer
    a further collinear feed is linkable, although the size is not below 100,
    and [see_segment] leaves 101 entries in the buffer. *)
Lemma linkable_with_100_buffered :
  length (chained_points full_world) = 100%nat /\
  linkable next_target full_world = Ok true full_world /\
  ~ linkable_spec 100 full_world next_target /\
  exists w',
    see_segment scenario_machine 11 next_target full_world = Ok tt w' /\
    length (chained_points w') = 101%nat.
Proof.
  split; [apply repeat_length | ].
  split; [apply linkable_full_world | ].
  split.
  - intros (_ & _ & H & _).
    change (chained_points full_world)
      with (repeat (mkPt 1 0 0 0 0 0 0 0 0 10) 100) in H.
    rewrite repeat_length in H. lia.
  - unfold see_segment. eexists. split.
    + eapply bind_run; [reflexivity | ]. cbv zeta.
      eapply bind_run.
      * change (is_empty (chained_points full_world)) with false. cbn [negb].
        eapply bind_run; [apply linkable_full_world | reflexivity].
      * eapply bind_run; [reflexivity | ].
        change (endPoint (canon full_world)) with zero_position.
        unfold next_target. canon_simpl. rdec. reflexivity.
    + cbn [chained_points with_chained_points].
      rewrite length_app.
      change (chained_points full_world)
        with (repeat (mkPt 1 0 0 0 0 0 0 0 0 10) 100).
      rewrite repeat_length. reflexivity.
Qed.

(** ** The numerator of constant surface speed *)

Lemma START_SPINDLE_CLOCKWISE_css_inch :
  exists w',
    START_SPINDLE_CLOCKWISE scenario_machine css_inch_world = Ok tt w' /\
    css_numerator (canon w') = 12 / (2 * PI) * 1000 * (254 / 10 * 1).
Proof.
  destruct scenario_units as (Hl & Ha).
  unfold START_SPINDLE_CLOCKWISE. eexists. split.
  - eapply bind_run; [apply flush_segments_empty; reflexivity | ].
    eapply bind_run; [reflexivity | ].
    unfold css_inch_world. canon_simpl. rdec.
    unfold css_speed_msg. run_steps. reflexivity.
  - reflexivity.
Qed.

Lemma START_SPINDLE_COUNTERCLOCKWISE_css_inch :
  exists w',
    START_SPINDLE_COUNTERCLOCKWISE scenario_machine css_inch_world = Ok tt w' /\
    css_numerator (canon w') = -12 / (2 * PI) * 1000.
Proof.
  destruct scenario_units as (Hl & Ha).
  unfold START_SPINDLE_COUNTERCLOCKWISE. eexists. split.
  - eapply bind_run; [apply flush_segments_empty; reflexivity | ].
    eapply bind_run; [reflexivity | ].
    unfold css_inch_world. canon_simpl. rdec.
    unfold css_speed_msg. run_steps. reflexivity.
  - reflexivity.
Qed.

Lemma SET_SPINDLE_SPEED_css_inch :
  exists w',
    SET_SPINDLE_SPEED scenario_machine 1000 css_inch_world = Ok tt w' /\
    css_numerator (canon w') = 12 / (2 * PI) * 1000.
Proof.
  destruct scenario_units as (Hl & Ha).
  unfold SET_SPINDLE_SPEED. eexists. split.
  - eapply bind_run; [reflexivity | ].
    eapply bind_run; [apply flush_segments_empty; reflexivity | ].
    eapply bind_run; [reflexivity | ].
    unfold css_inch_world. canon_simpl. rdec.
    unfold css_speed_msg. run_steps. reflexivity.
  - reflexivity.
Qed.

Lemma inv_two_PI_pos : 0 < / (2 * PI).
Proof. apply Rinv_0_lt_compat. pose proof PI_RGT_0. lra. Qed.

(** C3: with a program in inches, the spindle speed 1000 and constant
    surface speed on, [START_SPINDLE_CLOCKWISE] sets [css_numerator] to
    (25.4 * 12) / (2 pi) * 1000, but [START_SPINDLE_COUNTERCLOCKWISE] sets it to
    -12 / (2 pi) * 1000 and [SET_SPINDLE_SPEED] to 12 / (2 pi) * 1000, without
    the factor 25.4. *)
Theorem css_numerator_inches_differs :
  0 < css_maximum (canon css_inch_world) /\
  lengthUnits (canon css_inch_world) = CANON_UNITS_INCHES /\
  spindleSpeed (canon css_inch_world) = 1000 /\
  (exists w',
      START_SPINDLE_CLOCKWISE scenario_machine css_inch_world = Ok tt w' /\
      css_numerator (canon w') = css_numerator_inches 1000) /\
  (exists w',
      START_SPINDLE_COUNTERCLOCKWISE scenario_machine css_inch_world = Ok tt w' /\
      css_numerator (canon w') = -12 / (2 * PI) * 1000 /\
      css_numerator (canon w') <> - css_numerator_inches 1000) /\
  (exists w',
      SET_SPINDLE_SPEED scenario_machine 1000 css_inch_world = Ok tt w' /\
      css_numerator (canon w') = 12 / (2 * PI) * 1000 /\
      css_numerator (canon w') <> css_numerator_inches 1000 /\
      css_numerator (canon w') <> - css_numerator_inches 1000).
Proof.
  pose proof inv_two_PI_pos as Hp.
  split; [cbn; lra | ]. split; [reflexivity | ]. split; [reflexivity | ].
  split; [ | split].
  - destruct START_SPINDLE_CLOCKWISE_css_inch as (w' & H1 & H2).
    exists w'. split; [exact H1 | ]. rewrite H2.
    unfold css_numerator_inches, Rdiv. ring.
  - destruct START_SPINDLE_COUNTERCLOCKWISE_css_inch as (w' & H1 & H2).
    exists w'. split; [exact H1 | ]. split; [exact H2 | ]. rewrite H2.
    unfold css_numerator_inches, Rdiv. intros H. nra.
  - destruct SET_SPINDLE_SPEED_css_inch as (w' & H1 & H2).
    exists w'. split; [exact H1 | ]. split; [exact H2 | ]. rewrite H2.
    unfold css_numerator_inches, Rdiv. split; intros H; nra.
Qed.

(** ** Units, rotation and the envelope, further *)

Lemma prog_len_factor_pos (c : CanonConfig_t) : 0 < prog_len_factor c.
Proof. unfold prog_len_factor. destruct (lengthUnits c); lra. Qed.

Lemma TO_PROG_LEN_FROM_PROG_LEN (c : CanonConfig_t) (x : R) :
  TO_PROG_LEN c (FROM_PROG_LEN c x) = x.
Proof.
  pose proof (prog_len_factor_pos c) as Hf.
  unfold TO_PROG_LEN, FROM_PROG_LEN. field. lra.
Qed.

Lemma FROM_PROG_LEN_TO_PROG_LEN (c : CanonConfig_t) (x : R) :
  FROM_PROG_LEN c (TO_PROG_LEN c x) = x.
Proof.
  pose proof (prog_len_factor_pos c) as Hf.
  unfold TO_PROG_LEN, FROM_PROG_LEN. field. lra.
Qed.

Lemma from_prog_to_prog (c : CanonConfig_t) (p : CANON_POSITION) :
  from_prog c (to_prog c p) = p.
Proof.
  destruct p as [x y z a b c0 u v w].
  unfold to_prog, from_prog, TO_PROG_ANG, FROM_PROG_ANG.
  cbn [px py pz pa pb pc pu pv pw].
  rewrite !FROM_PROG_LEN_TO_PROG_LEN. reflexivity.
Qed.

Lemma to_prog_from_prog (c : CanonConfig_t) (p : CANON_POSITION) :
  to_prog c (from_prog c p) = p.
Proof.
  destruct p as [x y z a b c0 u v w].
  unfold to_prog, from_prog, TO_PROG_ANG, FROM_PROG_ANG.
  cbn [px py pz pa pb pc pu pv pw].
  rewrite !TO_PROG_LEN_FROM_PROG_LEN. reflexivity.
Qed.


Lemma D2R_plus (s t : R) : D2R (s + t) = D2R s + D2R t.
Proof. unfold D2R. lra. Qed.


Lemma rotate_forth (x y theta : R) :
  (let (x1, y1) := rotate x y (- theta) in rotate x1 y1 theta) = (x, y).
Proof.
  pose proof (rotate_back x y (- theta)) as H.
  rewrite Ropp_involutive in H. exact H.
Qed.

Lemma rotate_and_offset_after_unoffset (c : CanonConfig_t) (q : CANON_POSITION) :
  rotate_and_offset_pos c (unoffset_and_unrotate_pos c q) = q.
Proof.
  destruct q as [x y z a b c0 u v w].
  unfold unoffset_and_unrotate_pos, rotate_and_offset_pos.
  cbn [px py pz pa pb pc pu pv pw].
  pose proof (rotate_forth (unoffset_x c x) (unoffset_y c y) (xy_rotation c)) as Hrot.
  destruct (rotate (unoffset_x c x) (unoffset_y c y) (- xy_rotation c)) as [x1 y1].
  cbn [px py pz pa pb pc pu pv pw].
  rewrite Hrot.
  unfold offset_x, offset_y, offset_z, offset_a, offset_b, offset_c,
    offset_u, offset_v, offset_w,
    unoffset_x, unoffset_y, unoffset_z, unoffset_a, unoffset_b, unoffset_c,
    unoffset_u, unoffset_v, unoffset_w.
  f_equal; ring.
Qed.


(** ** The envelope and the axes that move *)

Lemma MIN_le_l (a b : R) : MIN a b <= a.
Proof. unfold MIN, Rltb. destruct (Rlt_dec a b); lra. Qed.

Lemma MIN_le_r (a b : R) : MIN a b <= b.
Proof. unfold MIN, Rltb. destruct (Rlt_dec a b); lra. Qed.

Lemma MIN_mono (a b a' b' : R) : a <= a' -> b <= b' -> MIN a b <= MIN a' b'.
Proof.
  intros Ha Hb. unfold MIN, Rltb.
  destruct (Rlt_dec a b), (Rlt_dec a' b'); lra.
Qed.

Lemma tiny_pos : 0 < tiny.
Proof. unfold tiny. lra. Qed.

(** The distance [travel] gives an axis is 0 when the axis is still and the
    distance itself, at least [tiny], when it moves. *)
Lemma travel_cases (m : Machine) (n : Z) (target current : R) :
  (axis_still m n target current /\ travel m n target current = 0) \/
  (axis_valid m n = true /\ tiny <= Rabs (target - current) /\
   travel m n target current = Rabs (target - current)).
Proof.
  unfold travel, axis_still.
  destruct (axis_valid m n); cbn [negb orb].
  - unfold Rltb. destruct (Rlt_dec (Rabs (target - current)) tiny).
    + left. auto.
    + right. repeat split; lra.
  - left. auto.
Qed.

Lemma travel_moves (m : Machine) (n : Z) (target current : R) :
  axis_valid m n = true -> tiny <= Rabs (target - current) ->
  0 < travel m n target current.
Proof.
  intros Hv Ht. pose proof tiny_pos.
  destruct (travel_cases m n target current) as [([H1 | H1] & _) | (_ & _ & ->)];
    [congruence | lra | lra].
Qed.

Lemma travel_pos_moves (m : Machine) (n : Z) (target current : R) :
  travel m n target current <> 0 ->
  axis_valid m n = true /\ tiny <= Rabs (target - current).
Proof.
  intros H.
  destruct (travel_cases m n target current) as [(_ & H0) | (Hv & Ht & _)];
    [contradiction | auto].
Qed.

Lemma travel_nonneg (m : Machine) (n : Z) (target current : R) :
  0 <= travel m n target current.
Proof.
  pose proof tiny_pos.
  destruct (travel_cases m n target current) as [(_ & ->) | (_ & Ht & ->)]; lra.
Qed.

Lemma moving_nonzero (d limit : R) : d <> 0 -> moving d limit = limit.
Proof. intros H. unfold moving, nonzero, Rneb. now rewrite Reqb_false. Qed.

Lemma axis_moves_travel (m : Machine) (p e : CANON_POSITION) (n : Z) :
  (0 <= n <= 8)%Z ->
  (axis_moves m p e n <-> coordinate (travels m p e) n <> 0).
Proof.
  intros Hn. unfold axis_moves.
  assert (Hc : coordinate (travels m p e) n =
               travel m n (coordinate p n) (coordinate e n)).
  { assert (n = 0 \/ n = 1 \/ n = 2 \/ n = 3 \/ n = 4 \/ n = 5 \/ n = 6 \/ n = 7
            \/ n = 8)%Z as Hcase by lia.
    repeat (destruct Hcase as [-> | Hcase]; [reflexivity | ]). subst n. reflexivity. }
  rewrite Hc. split.
  - intros (Hv & Ht). pose proof (travel_moves m n _ _ Hv Ht). lra.
  - apply travel_pos_moves.
Qed.

Lemma Rleb_travel (x : R) : 0 <= x -> (Rleb x 0 = true <-> x = 0).
Proof.
  intros H. unfold Rleb. destruct (Rle_dec x 0); split; intros; try easy; lra.
Qed.

Lemma is_cartesian_move_spec (m : Machine) (p e : CANON_POSITION) :
  is_cartesian_move (travels m p e) = true <->
  exists n, (0 <= n <= 8)%Z /\ angular_axis n = false /\ axis_moves m p e n.
Proof.
  unfold is_cartesian_move. rewrite negb_true_iff.
  split.
  - intros H.
    assert (Hex : exists n, (n = 0 \/ n = 1 \/ n = 2 \/ n = 6 \/ n = 7 \/ n = 8)%Z /\
                            coordinate (travels m p e) n <> 0).
    { repeat rewrite andb_false_iff in H.
      assert (Hf : forall n x, x = coordinate (travels m p e) n ->
                               0 <= x -> Rleb x 0 = false -> x <> 0).
      { intros n x _ Hx Hb Hz. apply (Rleb_travel x Hx) in Hz. congruence. }
      destruct H as [[[[[H | H] | H] | H] | H] | H].
      - exists 0%Z. split; [lia | ]. apply (Hf 0%Z); [reflexivity | apply travel_nonneg | exact H].
      - exists 1%Z. split; [lia | ]. apply (Hf 1%Z); [reflexivity | apply travel_nonneg | exact H].
      - exists 2%Z. split; [lia | ]. apply (Hf 2%Z); [reflexivity | apply travel_nonneg | exact H].
      - exists 6%Z. split; [lia | ]. apply (Hf 6%Z); [reflexivity | apply travel_nonneg | exact H].
      - exists 7%Z. split; [lia | ]. apply (Hf 7%Z); [reflexivity | apply travel_nonneg | exact H].
      - exists 8%Z. split; [lia | ]. apply (Hf 8%Z); [reflexivity | apply travel_nonneg | exact H]. }
    destruct Hex as (n & Hn & Hc). exists n.
    split; [lia | ]. split.
    + unfold angular_axis. destruct Hn as [-> | [-> | [-> | [-> | [-> | ->]]]]]; reflexivity.
    + apply axis_moves_travel; [lia | exact Hc].
  - intros (n & Hn & Ha & Hm).
    apply axis_moves_travel in Hm; [ | exact Hn].
    unfold angular_axis in Ha.
    assert (n = 0 \/ n = 1 \/ n = 2 \/ n = 6 \/ n = 7 \/ n = 8)%Z as Hcase.
    { apply andb_false_iff in Ha. rewrite Z.leb_gt, Z.leb_gt in Ha. lia. }
    repeat rewrite andb_false_iff.
    assert (Hf : forall x, 0 <= x -> x <> 0 -> Rleb x 0 = false).
    { intros x Hx Hz. apply Rleb_false. lra. }
    destruct Hcase as [-> | [-> | [-> | [-> | [-> | ->]]]]]; cbn [coordinate] in Hm.
    + do 5 left. apply Hf; [apply travel_nonneg | exact Hm].
    + do 4 left. right. apply Hf; [apply travel_nonneg | exact Hm].
    + do 3 left. right. apply Hf; [apply travel_nonneg | exact Hm].
    + do 2 left. right. apply Hf; [apply travel_nonneg | exact Hm].
    + left. right. apply Hf; [apply travel_nonneg | exact Hm].
    + right. apply Hf; [apply travel_nonneg | exact Hm].
Qed.

Lemma is_angular_move_spec (m : Machine) (p e : CANON_POSITION) :
  is_angular_move (travels m p e) = true <->
  exists n, (0 <= n <= 8)%Z /\ angular_axis n = true /\ axis_moves m p e n.
Proof.
  unfold is_angular_move. rewrite negb_true_iff.
  assert (Hf : forall x, 0 <= x -> (Rleb x 0 = false <-> x <> 0)).
  { intros x Hx. split.
    - intros Hb Hz. apply (Rleb_travel x Hx) in Hz. congruence.
    - intros Hz. apply Rleb_false. lra. }
  split.
  - intros H. repeat rewrite andb_false_iff in H.
    destruct H as [[H | H] | H].
    + exists 3%Z. split; [lia | ]. split; [reflexivity | ].
      apply axis_moves_travel; [lia | ]. apply Hf; [apply travel_nonneg | exact H].
    + exists 4%Z. split; [lia | ]. split; [reflexivity | ].
      apply axis_moves_travel; [lia | ]. apply Hf; [apply travel_nonneg | exact H].
    + exists 5%Z. split; [lia | ]. split; [reflexivity | ].
      apply axis_moves_travel; [lia | ]. apply Hf; [apply travel_nonneg | exact H].
  - intros (n & Hn & Ha & Hm).
    apply axis_moves_travel in Hm; [ | exact Hn].
    unfold angular_axis in Ha. apply andb_true_iff in Ha.
    rewrite Z.leb_le, Z.leb_le in Ha.
    assert (n = 3 \/ n = 4 \/ n = 5)%Z as Hcase by lia.
    repeat rewrite andb_false_iff.
    destruct Hcase as [-> | [-> | ->]]; cbn [coordinate] in Hm.
    + do 2 left. apply Hf; [apply travel_nonneg | exact Hm].
    + left. right. apply Hf; [apply travel_nonneg | exact Hm].
    + right. apply Hf; [apply travel_nonneg | exact Hm].
Qed.

(** X4: when an envelope function returns, [canon.cartesian_move] is set
    exactly when one of the axes x, y, z, u, v, w takes part in the move, and
    [canon.angular_move] exactly when one of a, b, c does; the end point, the
    buffer and the interpreter list are untouched. *)
Theorem move_kind_flags (m : Machine) (p : CANON_POSITION) (w w' : World) (v : R) :
  getStraightVelocity m p w = Ok v w' \/
  getStraightAcceleration m p w = Ok v w' \/
  getStraightJerk m p w = Ok v w' ->
  (cartesian_move (canon w') = true <->
   exists n, (0 <= n <= 8)%Z /\ angular_axis n = false /\
             axis_moves m p (endPoint (canon w)) n) /\
  (angular_move (canon w') = true <->
   exists n, (0 <= n <= 8)%Z /\ angular_axis n = true /\
             axis_moves m p (endPoint (canon w)) n) /\
  endPoint (canon w') = endPoint (canon w) /\
  chained_points w' = chained_points w /\
  interp_list w' = interp_list w.
Proof.
  intros H.
  assert (Hw : w' = classified m p w).
  { destruct H as [H | [H | H]].
    - apply (getStraightVelocity_Ok m p w w' v H).
    - apply (getStraightAcceleration_Ok m p w w' v H).
    - apply (getStraightJerk_Ok m p w w' v H). }
  subst w'. split; [ | split; [ | repeat split]].
  - apply is_cartesian_move_spec.
  - apply is_angular_move_spec.
Qed.

Lemma linear_limit_le (limit : Z -> R) (d : CANON_POSITION) (n : Z) :
  (0 <= n <= 8)%Z -> angular_axis n = false -> coordinate d n <> 0 ->
  linear_limit limit d <= limit n.
Proof.
  intros Hn Ha Hc. unfold angular_axis in Ha.
  apply andb_false_iff in Ha. rewrite Z.leb_gt, Z.leb_gt in Ha.
  assert (n = 0 \/ n = 1 \/ n = 2 \/ n = 6 \/ n = 7 \/ n = 8)%Z as Hcase by lia.
  unfold linear_limit, MIN4, MIN3.
  destruct Hcase as [-> | [-> | [-> | [-> | [-> | ->]]]]]; cbn [coordinate] in Hc.
  - rewrite (moving_nonzero (px d)) by assumption.
    eapply Rle_trans; [apply MIN_le_l | ].
    eapply Rle_trans; [apply MIN_le_l | ].
    eapply Rle_trans; [apply MIN_le_l | ]. apply MIN_le_l.
  - rewrite (moving_nonzero (py d)) by assumption.
    eapply Rle_trans; [apply MIN_le_l | ].
    eapply Rle_trans; [apply MIN_le_l | ].
    eapply Rle_trans; [apply MIN_le_l | ]. apply MIN_le_r.
  - rewrite (moving_nonzero (pz d)) by assumption.
    eapply Rle_trans; [apply MIN_le_l | ].
    eapply Rle_trans; [apply MIN_le_l | ]. apply MIN_le_r.
  - rewrite (moving_nonzero (pu d)) by assumption.
    eapply Rle_trans; [apply MIN_le_l | ]. apply MIN_le_r.
  - rewrite (moving_nonzero (pv d)) by assumption.
    eapply Rle_trans; [apply MIN_le_r | ]. apply MIN_le_l.
  - rewrite (moving_nonzero (pw d)) by assumption.
    eapply Rle_trans; [apply MIN_le_r | ]. apply MIN_le_r.
Qed.

Lemma angular_limit_le (limit : Z -> R) (d : CANON_POSITION) (n : Z) :
  angular_axis n = true -> coordinate d n <> 0 ->
  angular_limit limit d <= limit n.
Proof.
  intros Ha Hc. unfold angular_axis in Ha.
  apply andb_true_iff in Ha. rewrite Z.leb_le, Z.leb_le in Ha.
  assert (n = 3 \/ n = 4 \/ n = 5)%Z as Hcase by lia.
  unfold angular_limit, MIN3.
  destruct Hcase as [-> | [-> | ->]]; cbn [coordinate] in Hc.
  - rewrite (moving_nonzero (pa d)) by assumption.
    eapply Rle_trans; [apply MIN_le_l | ]. apply MIN_le_l.
  - rewrite (moving_nonzero (pb d)) by assumption.
    eapply Rle_trans; [apply MIN_le_l | ]. apply MIN_le_r.
  - rewrite (moving_nonzero (pc d)) by assumption.
    apply MIN_le_r.
Qed.

Lemma Rdiv_le_pos (a b u : R) : 0 < u -> a <= b -> a / u <= b / u.
Proof.
  intros Hu Hab. unfold Rdiv.
  apply Rmult_le_compat_r; [ | exact Hab].
  left. apply Rinv_0_lt_compat, Hu.
Qed.

(** What [straight_limit] returns, by the kind of move. *)
Lemma straight_limit_value (m : Machine) (limit : Z -> R) (nowhere : R)
    (p : CANON_POSITION) (w w' : World) (v : R) :
  straight_limit m limit nowhere p w = Ok v w' ->
  let d := travels m p (endPoint (canon w)) in
  v = (if is_cartesian_move d && negb (is_angular_move d) then
         linear_limit limit d / linearUnits m
       else if negb (is_cartesian_move d) && is_angular_move d then
         angular_limit limit d / angularUnits m
       else if is_cartesian_move d && is_angular_move d then
         MIN (linear_limit limit d / linearUnits m)
             (angular_limit limit d / angularUnits m)
       else nowhere).
Proof.
  unfold straight_limit. intros H. cbv zeta.
  apply bind_Ok in H. destruct H as (c & w0 & E & H).
  unfold get_canon in E. inversion E; subst c w0; clear E.
  cbv zeta in H.
  apply bind_Ok in H. destruct H as (u & w0 & E & H). clear E.
  destruct (is_cartesian_move (travels m p (endPoint (canon w))));
    destruct (is_angular_move (travels m p (endPoint (canon w))));
    cbn [andb negb] in *; bind_inv H;
    repeat match goal with
           | E : FROM_EXT_LEN _ _ _ = Ok _ _ |- _ =>
             apply FROM_EXT_LEN_Ok in E; destruct E as (-> & -> & ?)
           | E : FROM_EXT_ANG _ _ _ = Ok _ _ |- _ =>
             apply FROM_EXT_ANG_Ok in E; destruct E as (-> & -> & ?)
           end;
    inversion H; reflexivity.
Qed.

Lemma straight_limit_within (m : Machine) (limit : Z -> R) (nowhere : R)
    (p : CANON_POSITION) (w w' : World) (v : R) (n : Z) :
  straight_limit m limit nowhere p w = Ok v w' ->
  0 < linearUnits m -> 0 < angularUnits m ->
  (0 <= n <= 8)%Z -> axis_moves m p (endPoint (canon w)) n ->
  v <= limit n / axis_units m n.
Proof.
  intros H Hl Ha Hn Hm.
  apply straight_limit_value in H. cbv zeta in H.
  pose proof (proj1 (axis_moves_travel m p _ n Hn) Hm) as Hc.
  unfold axis_units.
  destruct (angular_axis n) eqn:En.
  - assert (Hang : is_angular_move (travels m p (endPoint (canon w))) = true).
    { apply is_angular_move_spec. exists n. auto. }
    pose proof (angular_limit_le limit _ n En Hc) as Hle.
    apply (Rdiv_le_pos _ _ _ Ha) in Hle.
    rewrite Hang in H.
    destruct (is_cartesian_move (travels m p (endPoint (canon w))));
      cbn [andb negb] in H; subst v.
    + eapply Rle_trans; [apply MIN_le_r | exact Hle].
    + exact Hle.
  - assert (Hcart : is_cartesian_move (travels m p (endPoint (canon w))) = true).
    { apply is_cartesian_move_spec. exists n. auto. }
    pose proof (linear_limit_le limit _ n Hn En Hc) as Hle.
    apply (Rdiv_le_pos _ _ _ Hl) in Hle.
    rewrite Hcart in H.
    destruct (is_angular_move (travels m p (endPoint (canon w))));
      cbn [andb negb] in H; subst v.
    + eapply Rle_trans; [apply MIN_le_l | exact Hle].
    + exact Hle.
Qed.

Lemma getStraightVelocity_value (m : Machine) (p : CANON_POSITION) (w w' : World)
    (v : R) :
  getStraightVelocity m p w = Ok v w' ->
  exists v0,
    straight_limit m (emcAxisGetMaxVelocity m) (vel_indeterminate m) p w =
    Ok v0 (classified m p w) /\
    v = MIN v0 (linearFeedRate (canon w)).
Proof.
  unfold getStraightVelocity. intros H. bind_inv H.
  pose proof (straight_limit_Ok _ _ _ _ _ _ _ E) as ->.
  unfold get_canon in E0. inversion E0; subst. inversion H; subst.
  exists a. split; [exact E | reflexivity].
Qed.

(** X5: with positive external units, the velocity, acceleration and jerk
    the envelope functions return never exceed the limit of an axis that
    takes part in the move (divided by the unit of the axis), and the velocity
    never exceeds the linear feed rate. *)
Theorem envelope_within_axis_limits (m : Machine) (p : CANON_POSITION)
    (w w' : World) (v : R) (n : Z) :
  0 < linearUnits m -> 0 < angularUnits m ->
  (0 <= n <= 8)%Z -> axis_moves m p (endPoint (canon w)) n ->
  (getStraightVelocity m p w = Ok v w' ->
   v <= emcAxisGetMaxVelocity m n / axis_units m n /\
   v <= linearFeedRate (canon w)) /\
  (getStraightAcceleration m p w = Ok v w' ->
   v <= emcAxisGetMaxAcceleration m n / axis_units m n) /\
  (getStraightJerk m p w = Ok v w' ->
   v <= emcAxisGetMaxJerk m n / axis_units m n).
Proof.
  intros Hl Ha Hn Hm. split; [ | split].
  - intros H. apply getStraightVelocity_value in H.
    destruct H as (v0 & H0 & ->).
    pose proof (straight_limit_within _ _ _ _ _ _ _ n H0 Hl Ha Hn Hm) as Hle.
    split.
    + eapply Rle_trans; [apply MIN_le_l | exact Hle].
    + apply MIN_le_r.
  - unfold getStraightAcceleration. intros H.
    apply (straight_limit_within _ _ _ _ _ _ _ n H Hl Ha Hn Hm).
  - unfold getStraightJerk. intros H.
    apply (straight_limit_within _ _ _ _ _ _ _ n H Hl Ha Hn Hm).
Qed.

Lemma scenario_axis_moves :
  axis_moves scenario_machine feed_target (endPoint (canon feeding_world)) 0.
Proof.
  unfold axis_moves. split; [reflexivity | ].
  change (endPoint (canon feeding_world)) with zero_position.
  unfold feed_target, zero_position, tiny. cbn [coordinate px].
  replace (10 - 0) with 10 by ring. rewrite Rabs_pos_eq; lra.
Qed.

Lemma envelope_within_axis_limits_witness :
  0 < linearUnits scenario_machine /\ 0 < angularUnits scenario_machine /\
  axis_moves scenario_machine feed_target (endPoint (canon feeding_world)) 0 /\
  exists v w',
    getStraightAcceleration scenario_machine feed_target feeding_world = Ok v w' /\
    v <= emcAxisGetMaxAcceleration scenario_machine 0 / axis_units scenario_machine 0.
Proof.
  pose proof scenario_machine_ok as Hok.
  destruct Hok as (Hl & Ha & Hlim).
  split; [exact Hl | ]. split; [exact Ha | ]. split; [exact scenario_axis_moves | ].
  destruct (getStraightAcceleration_run scenario_machine feed_target feeding_world
              scenario_machine_ok) as (v & Hv).
  exists v, (classified scenario_machine feed_target feeding_world).
  split; [exact Hv | ].
  exact (proj1 (proj2 (envelope_within_axis_limits scenario_machine feed_target
                         feeding_world _ v 0 Hl Ha ltac:(lia) scenario_axis_moves)) Hv).
Defined.

(** ** Lower limits, lower envelope *)

Lemma moving_mono (d l1 l2 : R) : l1 <= l2 -> moving d l1 <= moving d l2.
Proof. intros H. unfold moving. destruct (nonzero d); lra. Qed.

Lemma linear_limit_mono (limit1 limit2 : Z -> R) (d : CANON_POSITION) :
  (forall n, (0 <= n <= 8)%Z -> limit1 n <= limit2 n) ->
  linear_limit limit1 d <= linear_limit limit2 d.
Proof.
  intros H. unfold linear_limit, MIN4, MIN3.
  repeat apply MIN_mono; apply moving_mono, H; lia.
Qed.

Lemma angular_limit_mono (limit1 limit2 : Z -> R) (d : CANON_POSITION) :
  (forall n, (0 <= n <= 8)%Z -> limit1 n <= limit2 n) ->
  angular_limit limit1 d <= angular_limit limit2 d.
Proof.
  intros H. unfold angular_limit, MIN3.
  repeat apply MIN_mono; apply moving_mono, H; lia.
Qed.

Lemma axis_valid_same_mask (m1 m2 : Machine) (n : Z) :
  axis_mask m1 = axis_mask m2 -> axis_valid m1 n = axis_valid m2 n.
Proof. intros H. unfold axis_valid. rewrite H. reflexivity. Qed.

Lemma travels_same_mask (m1 m2 : Machine) (p e : CANON_POSITION) :
  axis_mask m1 = axis_mask m2 -> travels m1 p e = travels m2 p e.
Proof.
  intros H. unfold travels, travel.
  rewrite !(axis_valid_same_mask m1 m2 _ H). reflexivity.
Qed.

Lemma straight_limit_mono (m1 m2 : Machine) (limit1 limit2 : Z -> R)
    (nowhere : R) (p : CANON_POSITION) (w w1 w2 : World) (v1 v2 : R) :
  axis_mask m1 = axis_mask m2 ->
  linearUnits m1 = linearUnits m2 -> angularUnits m1 = angularUnits m2 ->
  0 < linearUnits m1 -> 0 < angularUnits m1 ->
  (forall n, (0 <= n <= 8)%Z -> limit1 n <= limit2 n) ->
  straight_limit m1 limit1 nowhere p w = Ok v1 w1 ->
  straight_limit m2 limit2 nowhere p w = Ok v2 w2 ->
  v1 <= v2.
Proof.
  intros Hmask Hlu Hau Hl Ha Hlim H1 H2.
  apply straight_limit_value in H1. apply straight_limit_value in H2.
  cbv zeta in H1, H2.
  rewrite <- (travels_same_mask m1 m2 _ _ Hmask), <- Hlu, <- Hau in H2.
  pose proof (linear_limit_mono limit1 limit2
                (travels m1 p (endPoint (canon w))) Hlim) as Hlin.
  pose proof (angular_limit_mono limit1 limit2
                (travels m1 p (endPoint (canon w))) Hlim) as Hang.
  apply (Rdiv_le_pos _ _ _ Hl) in Hlin. apply (Rdiv_le_pos _ _ _ Ha) in Hang.
  destruct (is_cartesian_move (travels m1 p (endPoint (canon w))));
    destruct (is_angular_move (travels m1 p (endPoint (canon w))));
    cbn [andb negb] in H1, H2; subst v1 v2.
  - apply MIN_mono; assumption.
  - exact Hlin.
  - exact Hang.
  - lra.
Qed.


Lemma slow_machine_ok : machine_ok slow_machine.
Proof.
  unfold machine_ok, slow_machine; simpl.
  split; [lra | ]. split; [lra | ].
  intros n _. repeat split; lra.
Defined.


Lemma move_kind_flags_witness :
  exists v w',
    getStraightAcceleration scenario_machine feed_target feeding_world = Ok v w' /\
    (cartesian_move (canon w') = true <->
     exists n, (0 <= n <= 8)%Z /\ angular_axis n = false /\
               axis_moves scenario_machine feed_target
                 (endPoint (canon feeding_world)) n).
Proof.
  destruct (getStraightAcceleration_run scenario_machine feed_target feeding_world
              scenario_machine_ok) as (v & Hv).
  exists v, (classified scenario_machine feed_target feeding_world).
  split; [exact Hv | ].
  exact (proj1 (move_kind_flags scenario_machine feed_target feeding_world _ v
                  (or_intror (or_introl Hv)))).
Defined.

(** ** The segment buffer, further *)

Lemma flush_segments_inv (m : Machine) (w w1 : World) (u : unit) (pos : pt) :
  flush_segments m w = Ok u w1 ->
  back (chained_points w) = Some pos ->
  exists ini acc jerk,
    getStraightVelocity m (pt_pos pos) w = Ok ini (classified m (pt_pos pos) w) /\
    getStraightJerk m (pt_pos pos) (classified m (pt_pos pos) w) =
    Ok jerk (classified m (pt_pos pos) w) /\
    getStraightAcceleration m (pt_pos pos) (classified m (pt_pos pos) w) =
    Ok acc (classified m (pt_pos pos) w) /\
    linearUnits m <> 0 /\ angularUnits m <> 0 /\
    w1 =
    with_chained_points []
      (with_canon (set_endPoint (pt_pos pos))
         (if nonzero (clamp_feed (canon (classified m (pt_pos pos) w)) ini)
             && nonzero acc
             || synched (canon (classified m (pt_pos pos) w))
          then
            interp_append
              (EMC_TRAJ_LINEAR_MOVE
                 (mkLinearMove EMC_MOTION_TYPE_FEED
                    (external_pose m (pt_pos pos))
                    (clamp_feed (canon (classified m (pt_pos pos) w)) ini
                     * velocity_units m (canon (classified m (pt_pos pos) w)))
                    (ini * velocity_units m (canon (classified m (pt_pos pos) w)))
                    (acc * velocity_units m (canon (classified m (pt_pos pos) w)))
                    (jerk * linearUnits m)
                    (feed_mode (canon (classified m (pt_pos pos) w)))))
              (interp_set_line_number (line_no pos) (classified m (pt_pos pos) w))
          else classified m (pt_pos pos) w)).
Proof.
  unfold flush_segments. intros H Hb. rewrite Hb in H. cbv zeta in H.
  bind_inv H.
  repeat match goal with
         | E : TO_EXT_LEN _ _ _ = Ok _ _ |- _ =>
           apply TO_EXT_LEN_Ok in E; destruct E as (-> & -> & ?)
         | E : TO_EXT_ANG _ _ _ = Ok _ _ |- _ =>
           apply TO_EXT_ANG_Ok in E; destruct E as (-> & -> & ?)
         | E : toExtVel _ _ _ = Ok _ _ |- _ =>
           apply toExtVel_Ok in E; destruct E as (-> & ->)
         | E : toExtAcc _ _ _ = Ok _ _ |- _ =>
           apply toExtVel_Ok in E; destruct E as (-> & ->)
         | E : get_canon _ = Ok _ _ |- _ =>
           unfold get_canon in E; inversion E; subst; clear E
         | E : getStraightVelocity _ _ _ = Ok _ ?wb |- _ =>
           is_var wb;
           let Hw := fresh "Hw" in
           pose proof (getStraightVelocity_Ok _ _ _ _ _ E) as Hw; subst wb
         | E : getStraightJerk _ _ _ = Ok _ ?wb |- _ =>
           is_var wb;
           let Hw := fresh "Hw" in
           pose proof (getStraightJerk_Ok _ _ _ _ _ E) as Hw;
           rewrite classified_twice in Hw; subst wb
         | E : getStraightAcceleration _ _ _ = Ok _ ?wb |- _ =>
           is_var wb;
           let Hw := fresh "Hw" in
           pose proof (getStraightAcceleration_Ok _ _ _ _ _ E) as Hw;
           rewrite classified_twice in Hw; subst wb
         | E : canonUpdateEndPoint _ _ = Ok _ _ |- _ =>
           unfold canonUpdateEndPoint, modify in E; inversion E; subst; clear E
         end.
  unfold modify in H. inversion H; subst; clear H.
  match goal with
  | E1 : getStraightVelocity _ _ _ = Ok ?i _,
    E2 : getStraightJerk _ _ _ = Ok ?j _,
    E3 : getStraightAcceleration _ _ _ = Ok ?a _ |- _ =>
    exists i, a, j;
    split; [exact E1 | ]; split; [exact E2 | ]; split; [exact E3 | ]
  end.
  split; [assumption | ]. split; [assumption | ].
  fold (velocity_units m (canon (classified m (pt_pos pos) w))) in *.
  fold (external_pose m (pt_pos pos)) in *.
  match goal with
  | E : (if ?b then _ else _) _ = Ok _ _ |- _ => destruct b
  end.
  - match goal with
    | E : bind _ _ _ = Ok _ _ |- _ =>
      bind_inv E; unfold modify in *;
      repeat match goal with
             | E' : Ok _ _ = Ok _ _ |- _ => inversion E'; subst; clear E'
             end
    end.
    reflexivity.
  - match goal with
    | E : ret _ _ = Ok _ _ |- _ => inversion E; subst
    end.
    reflexivity.
Qed.

Lemma clamp_feed_cartesian (c : CanonConfig_t) (v : R) :
  cartesian_move c = true -> v <= linearFeedRate c -> clamp_feed c v = v.
Proof.
  intros Hc Hv. unfold clamp_feed. rewrite Hc.
  assert (Hg : Rgtb v (linearFeedRate c) = false) by (apply Rgtb_false_iff; exact Hv).
  rewrite Hg. destruct (angular_move c); reflexivity.
Qed.

Lemma getStraightVelocity_le_feed (m : Machine) (p : CANON_POSITION) (w w' : World)
    (v : R) :
  getStraightVelocity m p w = Ok v w' -> v <= linearFeedRate (canon w).
Proof.
  unfold getStraightVelocity. intros H. bind_inv H.
  pose proof (straight_limit_Ok _ _ _ _ _ _ _ E) as ->.
  unfold get_canon in E0. inversion E0; subst. inversion H; subst.
  apply MIN_le_r.
Qed.

(** X7: a flush of a buffer that is not empty moves the end point to the last
    buffered point, empties the buffer and appends at most one message: a feed
    move to the last buffered point, in external units, under the line number
    of that point and the feed mode of the state.  No buffered point before
    the last one is emitted, and when the move has a cartesian part its [vel]
    equals its [ini_maxvel]. *)
Theorem flush_segments_emits_last_point (m : Machine) (w w1 : World) (u : unit)
    (pos : pt) :
  flush_segments m w = Ok u w1 ->
  back (chained_points w) = Some pos ->
  endPoint (canon w1) = pt_pos pos /\
  chained_points w1 = [] /\
  (interp_list w1 = interp_list w \/
   exists msg,
     interp_list w1 = interp_list w ++ [(line_no pos, EMC_TRAJ_LINEAR_MOVE msg)] /\
     lm_type msg = EMC_MOTION_TYPE_FEED /\
     lm_end msg = external_pose m (pt_pos pos) /\
     lm_feed_mode msg = feed_mode (canon w) /\
     (cartesian_move (canon w1) = true -> lm_vel msg = lm_ini_maxvel msg)).
Proof.
  intros H Hb.
  destruct (flush_segments_inv m w w1 u pos H Hb)
    as (ini & acc & jerk & Hv & Hj & Ha & Hl & Hg & ->).
  split; [reflexivity | ]. split; [reflexivity | ].
  match goal with
  | |- context [if ?b then _ else _] => destruct b
  end.
  - right. eexists. split; [reflexivity | ].
    split; [reflexivity | ]. split; [reflexivity | ]. split; [reflexivity | ].
    cbn [canon with_chained_points with_canon interp_append interp_set_line_number
         cartesian_move set_endPoint lm_vel lm_ini_maxvel].
    intros Hc. rewrite clamp_feed_cartesian; [reflexivity | exact Hc | ].
    apply (getStraightVelocity_le_feed _ _ _ _ _ Hv).
  - left. reflexivity.
Qed.

Lemma flush_segments_emits_last_point_witness :
  exists w1,
    flush_segments scenario_machine pending_world = Ok tt w1 /\
    back (chained_points pending_world) = Some (mkPt 10 0 0 0 0 0 0 0 0 10) /\
    endPoint (canon w1) = feed_target /\ chained_points w1 = [].
Proof.
  exists scenario1_final.
  split; [exact FINISH_scenario | ]. split; [reflexivity | ].
  destruct (flush_segments_emits_last_point scenario_machine pending_world
              scenario1_final tt _ FINISH_scenario eq_refl) as (H1 & H2 & _).
  split; [exact H1 | exact H2].
Defined.

(** X8: the zero-motion guard of the flush.  When the last buffered point is
    no motion away from the end point, a flush of a state that is not synched
    appends nothing; it still empties the buffer and sets the end point.  In a
    synched state the flush appends its move all the same. *)
Theorem flush_segments_zero_motion (m : Machine) (w w1 : World) (u : unit)
    (pos : pt) :
  flush_segments m w = Ok u w1 ->
  back (chained_points w) = Some pos ->
  no_motion m (pt_pos pos) (endPoint (canon w)) ->
  endPoint (canon w1) = pt_pos pos /\
  chained_points w1 = [] /\
  (synched (canon w) = false -> interp_list w1 = interp_list w) /\
  (synched (canon w) = true ->
   exists msg,
     interp_list w1 = interp_list w ++ [(line_no pos, EMC_TRAJ_LINEAR_MOVE msg)] /\
     lm_acc msg = 0).
Proof.
  intros H Hb Hn.
  destruct (flush_segments_inv m w w1 u pos H Hb)
    as (ini & acc & jerk & Hv & Hj & Ha & Hl & Hg & ->).
  assert (Hacc : acc = 0).
  { unfold getStraightAcceleration in Ha.
    pose proof (travels_no_motion _ _ _ Hn) as Ht.
    rewrite straight_limit_nowhere in Ha.
    - inversion Ha. reflexivity.
    - rewrite classified_endPoint, Ht. apply zero_position_not_cartesian.
    - rewrite classified_endPoint, Ht. apply zero_position_not_angular. }
  subst acc.
  assert (Hz : nonzero 0 = false).
  { unfold nonzero, Rneb. now rewrite Reqb_true. }
  rewrite Hz, andb_false_r. cbn [orb].
  change (synched (canon (classified m (pt_pos pos) w))) with (synched (canon w)).
  split; [reflexivity | ]. split; [reflexivity | ]. split.
  - intros Hs. rewrite Hs. reflexivity.
  - intros Hs. rewrite Hs. eexists. split; [reflexivity | ].
    cbn [lm_acc]. ring.
Qed.

(** *** Seeing a segment *)

Lemma changed_abc_uvw_false (p e : CANON_POSITION) :
  changed_abc_uvw p e = false <-> same_abc_uvw p e.
Proof.
  unfold changed_abc_uvw, same_abc_uvw.
  rewrite !orb_false_iff, !Rneb_false_iff. tauto.
Qed.

Lemma pt_pos_pos_pt (p : CANON_POSITION) (line_number : Z) :
  pt_pos (pos_pt p line_number) = p.
Proof. destruct p. reflexivity. Qed.

Lemma see_segment_inv (m : Machine) (line_number : Z) (p : CANON_POSITION)
    (w w' : World) (u : unit) :
  see_segment m line_number p w = Ok u w' ->
  exists w1,
    ((chained_points w = [] /\ w1 = w) \/
     (chained_points w <> [] /\ linkable p w = Ok true w /\ w1 = w) \/
     (chained_points w <> [] /\ linkable p w = Ok false w /\
      flush_segments m w = Ok tt w1)) /\
    (if changed_abc_uvw p (endPoint (canon w))
     then flush_segments m (push_point p line_number w1) = Ok tt w'
     else w' = push_point p line_number w1).
Proof.
  unfold see_segment. intros H.
  apply bind_Ok in H. destruct H as (c & w0 & E & H).
  unfold get_canon in E. inversion E; subst c w0; clear E.
  cbv zeta in H.
  apply bind_Ok in H. destruct H as (u1 & w1 & E1 & H).
  apply bind_Ok in H. destruct H as (u2 & w2 & E2 & H).
  unfold modify in E2. inversion E2; subst u2 w2; clear E2.
  exists w1. split.
  - destruct (chained_points w) as [| q l] eqn:Ec.
    + cbn [is_empty negb] in E1. left. inversion E1. split; reflexivity.
    + cbn [is_empty negb] in E1. right.
      apply bind_Ok in E1. destruct E1 as (l0 & w3 & El & E1).
      pose proof (linkable_Ok _ _ _ _ El) as ->.
      destruct l0; cbn [negb] in E1.
      * left. inversion E1; subst. split; [discriminate | ]. split; [exact El | reflexivity].
      * right. split; [discriminate | ]. split; [exact El | ].
        destruct u1. exact E1.
  - fold (push_point p line_number w1) in H.
    fold (changed_abc_uvw p (endPoint (canon w))) in H.
    destruct (changed_abc_uvw p (endPoint (canon w))).
    + destruct u. exact H.
    + inversion H. reflexivity.
Qed.

Lemma dot_self_pos (v : PmCartesian) :
  v <> mkCart 0 0 0 -> 0 < dot v v.
Proof.
  intros H. unfold dot. destruct v as [x y z]. cbn [cx cy cz].
  destruct (Req_dec_T x 0) as [-> | Hx].
  - destruct (Req_dec_T y 0) as [-> | Hy].
    + destruct (Req_dec_T z 0) as [-> | Hz]; [contradiction H; reflexivity | ].
      nra.
    + nra.
  - nra.
Qed.

(** The end of a segment is at distance 0 from the segment. *)
Lemma distance_to_segment_end (B Q : PmCartesian) :
  Q <> B -> distance_to_segment B Q Q = 0.
Proof.
  intros H. unfold distance_to_segment. cbv zeta.
  assert (Hp : 0 < dot (cart_sub Q B) (cart_sub Q B)).
  { apply dot_self_pos. intros E. apply H.
    destruct Q as [x y z], B as [x' y' z'].
    unfold cart_sub in E. cbn [cx cy cz] in E. inversion E.
    f_equal; lra. }
  replace (dot (cart_sub Q B) (cart_sub Q B) / dot (cart_sub Q B) (cart_sub Q B))
    with 1 by (field; lra).
  replace (Rmax 0 (Rmin 1 1)) with 1.
  2: { unfold Rmin. destruct (Rle_dec 1 1); unfold Rmax;
       destruct (Rle_dec 0 1); lra. }
  unfold mag, dot, cart_sub, cart_add, cart_scale. cbn [cx cy cz].
  match goal with
  | |- sqrt ?e = 0 => replace e with 0 by ring
  end.
  apply sqrt_0.
Qed.

Lemma linkable_true_spec (w : World) (p : CANON_POSITION) :
  chained_points w <> [] ->
  linkable p w = Ok true w -> linkable_spec 101 w p.
Proof.
  intros Hne H.
  destruct (linkable_characterised w p Hne) as (l & Hl & Hs).
  rewrite Hl in H. inversion H; subst l. apply Hs. reflexivity.
Qed.

(** X9: fusing is safe.  When [see_segment] leaves two or more points in the
    buffer, it has only pushed the new point: the state and the message list
    are as before, and every buffered point, the new one included, lies within
    the naive-cam tolerance of the straight segment from the end point to the
    new point, so that the single move of the next flush stays within the
    tolerance of every move it replaces. *)
Theorem see_segment_fuses_within_tolerance (m : Machine) (line_number : Z)
    (p : CANON_POSITION) (w w' : World) (u : unit) :
  see_segment m line_number p w = Ok u w' ->
  (2 <= length (chained_points w'))%nat ->
  w' = push_point p line_number w /\
  forall P, In P (chained_points w') ->
    distance_to_segment (xyz_of_pos (endPoint (canon w'))) (xyz_of_pos p)
                        (xyz_of_pt P)
    <= naivecamTolerance (canon w').
Proof.
  intros H Hlen.
  destruct (see_segment_inv _ _ _ _ _ _ H) as (w1 & Hw1 & Hw').
  destruct (changed_abc_uvw p (endPoint (canon w))).
  { apply flush_segments_Ok in Hw'. rewrite Hw' in Hlen. simpl in Hlen. lia. }
  subst w'. unfold push_point in Hlen.
  cbn [chained_points with_chained_points] in Hlen.
  rewrite length_app in Hlen. cbn [length] in Hlen.
  destruct Hw1 as [(He & ->) | [(Hne & Hl & ->) | (Hne & Hl & Hf)]].
  - rewrite He in Hlen. simpl in Hlen. lia.
  - split; [reflexivity | ].
    pose proof (linkable_true_spec _ _ Hne Hl) as (_ & Ht & _ & _ & Hx & Hd).
    intros P HP. unfold push_point in HP |- *.
    cbn [chained_points with_chained_points canon] in HP |- *.
    apply in_app_or in HP. destruct HP as [HP | [<- | []]].
    + apply Hd, HP.
    + replace (xyz_of_pt (pos_pt p line_number)) with (xyz_of_pos p)
        by (destruct p; reflexivity).
      rewrite distance_to_segment_end; [lra | exact Hx].
  - apply flush_segments_Ok in Hf. rewrite Hf in Hlen. simpl in Hlen. lia.
Qed.

Lemma see_segment_full_world :
  see_segment scenario_machine 11 next_target full_world
  = Ok tt (push_point next_target 11 full_world).
Proof.
  unfold see_segment.
  eapply bind_run; [reflexivity | ]. cbv zeta.
  eapply bind_run.
  - change (is_empty (chained_points full_world)) with false. cbn [negb].
    eapply bind_run; [apply linkable_full_world | reflexivity].
  - eapply bind_run; [reflexivity | ].
    change (endPoint (canon full_world)) with zero_position.
    unfold next_target. canon_simpl. rdec. reflexivity.
Qed.

Lemma see_segment_fuses_within_tolerance_witness :
  (2 <= length (chained_points (push_point next_target 11 full_world)))%nat /\
  forall P, In P (chained_points (push_point next_target 11 full_world)) ->
    distance_to_segment (xyz_of_pos zero_position) (xyz_of_pos next_target)
                        (xyz_of_pt P)
    <= 1 / 10.
Proof.
  assert (Hlen : (2 <= length (chained_points (push_point next_target 11 full_world)))%nat).
  { unfold push_point. cbn [chained_points with_chained_points].
    rewrite length_app.
    change (chained_points full_world) with (repeat (mkPt 1 0 0 0 0 0 0 0 0 10) 100).
    rewrite repeat_length. simpl. lia. }
  split; [exact Hlen | ].
  exact (proj2 (see_segment_fuses_within_tolerance scenario_machine 11 next_target
                  full_world _ tt see_segment_full_world Hlen)).
Defined.



Lemma flush_segments_back (m : Machine) (w w1 : World) (u : unit) (pos : pt) :
  flush_segments m w = Ok u w1 ->
  back (chained_points w) = Some pos ->
  endPoint (canon w1) = pt_pos pos.
Proof.
  intros H Hb.
  destruct (flush_segments_inv m w w1 u pos H Hb)
    as (ini & acc & jerk & _ & _ & _ & _ & _ & ->).
  reflexivity.
Qed.

Lemma flush_segments_none (m : Machine) (w w1 : World) (u : unit) :
  flush_segments m w = Ok u w1 ->
  back (chained_points w) = None -> w1 = w.
Proof.
  unfold flush_segments. intros H Hb. rewrite Hb in H. inversion H. reflexivity.
Qed.

Lemma flush_segments_zero_motion_witness :
  exists w1,
    flush_segments scenario_machine still_world = Ok tt w1 /\
    interp_list w1 = interp_list still_world /\
    chained_points w1 = [].
Proof.
  destruct (flush_segments_run scenario_machine still_world scenario_machine_ok)
    as (w1 & H).
  exists w1. split; [exact H | ].
  destruct (flush_segments_zero_motion scenario_machine still_world w1 tt
              (mkPt 0 0 0 0 0 0 0 0 0 10) H eq_refl
              (no_motion_same scenario_machine zero_position))
    as (_ & H2 & H3 & _).
  split; [apply H3; reflexivity | exact H2].
Defined.

Lemma flush_segments_pending (m : Machine) (w w1 : World) (u : unit) :
  flush_segments m w = Ok u w1 ->
  pending_position w1 = pending_position w /\
  endPoint (canon w1) = pending_position w.
Proof.
  intros H.
  pose proof (flush_segments_Ok _ _ _ _ H) as He.
  unfold pending_position. rewrite He. cbn [back].
  destruct (back (chained_points w)) as [pos | ] eqn:Hb.
  - rewrite (flush_segments_back _ _ _ _ _ H Hb). split; reflexivity.
  - rewrite (flush_segments_none _ _ _ _ H Hb). split; reflexivity.
Qed.

(** X11: the flush does not change where the machine is going.  The position
    at which the moves seen so far end, the last buffered point or else the
    end point, is the same before and after a flush; after the flush it is
    the end point. *)
Theorem flush_segments_keeps_pending_position (m : Machine) (w w1 : World)
    (u : unit) :
  flush_segments m w = Ok u w1 ->
  pending_position w1 = pending_position w /\
  endPoint (canon w1) = pending_position w.
Proof.
  intros H.
  pose proof (flush_segments_Ok _ _ _ _ H) as He.
  unfold pending_position. rewrite He. cbn [back].
  destruct (back (chained_points w)) as [pos | ] eqn:Hb.
  - rewrite (flush_segments_back _ _ _ _ _ H Hb). split; reflexivity.
  - rewrite (flush_segments_none _ _ _ _ H Hb). split; reflexivity.
Qed.

Lemma flush_segments_keeps_pending_position_witness :
  pending_position scenario1_final = feed_target /\
  endPoint (canon scenario1_final) = feed_target.
Proof.
  exact (flush_segments_keeps_pending_position scenario_machine pending_world
           scenario1_final tt FINISH_scenario).
Defined.

(** X12: after [see_segment] the moves seen so far end at the point it was
    given, whether the point was fused, queued alone or flushed at once; and
    when a rotary or an auxiliary coordinate of the point differs from that of
    the end point, the buffer is empty afterwards and the end point is the
    point itself. *)
Theorem see_segment_pending_position (m : Machine) (line_number : Z)
    (p : CANON_POSITION) (w w' : World) (u : unit) :
  see_segment m line_number p w = Ok u w' ->
  pending_position w' = p /\
  (~ same_abc_uvw p (endPoint (canon w)) ->
   chained_points w' = [] /\ endPoint (canon w') = p).
Proof.
  intros H.
  destruct (see_segment_inv _ _ _ _ _ _ H) as (w1 & _ & Hw').
  assert (Hp : pending_position (push_point p line_number w1) = p).
  { unfold pending_position, push_point.
    cbn [chained_points with_chained_points].
    rewrite back_app. apply pt_pos_pos_pt. }
  destruct (changed_abc_uvw p (endPoint (canon w))) eqn:Ec.
  - destruct (flush_segments_pending _ _ _ _ Hw') as (H1 & H2).
    rewrite Hp in H1, H2. split; [exact H1 | ].
    intros _. split; [apply (flush_segments_Ok _ _ _ _ Hw') | exact H2].
  - subst w'. split; [exact Hp | ].
    intros Hn. apply changed_abc_uvw_false in Ec. contradiction.
Qed.

Lemma see_segment_pending_position_witness :
  pending_position (push_point next_target 11 full_world) = next_target.
Proof.
  exact (proj1 (see_segment_pending_position scenario_machine 11 next_target
                  full_world _ tt see_segment_full_world)).
Defined.

(** X13: an invariant of the segment buffer.  Every buffered point has the
    rotary and the auxiliary coordinates of the end point: the buffer only
    ever holds moves in x, y and z.  The empty buffer has the invariant, and
    [see_segment], [flush_segments] and [STRAIGHT_FEED] keep it. *)
Theorem buffer_moves_only_xyz (m : Machine) (line_number : Z)
    (p : CANON_POSITION) (w w' : World) (u : unit) :
  buffer_on_end_point_axes w ->
  (see_segment m line_number p w = Ok u w' \/
   STRAIGHT_FEED m line_number p w = Ok u w' \/
   flush_segments m w = Ok u w') ->
  buffer_on_end_point_axes w'.
Proof.
  intros Hinv H.
  assert (Hempty : forall w0, chained_points w0 = [] -> buffer_on_end_point_axes w0).
  { intros w0 E P HP. rewrite E in HP. destruct HP. }
  assert (Hsee : forall q, see_segment m line_number q w = Ok u w' ->
                           buffer_on_end_point_axes w').
  { intros q Hq.
    destruct (see_segment_inv _ _ _ _ _ _ Hq) as (w1 & Hw1 & Hw').
    destruct (changed_abc_uvw q (endPoint (canon w))) eqn:Ec.
    { apply Hempty. apply (flush_segments_Ok _ _ _ _ Hw'). }
    apply changed_abc_uvw_false in Ec.
    destruct Ec as (Ea & Eb & Ec & Eu & Ev & Ew).
    subst w'.
    assert (Hq' : forall e, pa e = pa (endPoint (canon w)) ->
                    pb e = pb (endPoint (canon w)) ->
                    pc e = pc (endPoint (canon w)) ->
                    pu e = pu (endPoint (canon w)) ->
                    pv e = pv (endPoint (canon w)) ->
                    pw e = pw (endPoint (canon w)) ->
                    pt_a (pos_pt q line_number) = pa e /\
                    pt_b (pos_pt q line_number) = pb e /\
                    pt_c (pos_pt q line_number) = pc e /\
                    pt_u (pos_pt q line_number) = pu e /\
                    pt_v (pos_pt q line_number) = pv e /\
                    pt_w (pos_pt q line_number) = pw e).
    { intros e H1 H2 H3 H4 H5 H6. cbn [pos_pt pt_a pt_b pt_c pt_u pt_v pt_w].
      repeat split; congruence. }
    destruct Hw1 as [(He & ->) | [(Hne & Hl & ->) | (Hne & Hl & Hf)]].
    - intros P HP. unfold push_point in HP |- *.
      cbn [chained_points with_chained_points canon] in HP |- *.
      rewrite He in HP. destruct HP as [<- | []].
      apply Hq'; reflexivity.
    - intros P HP. unfold push_point in HP |- *.
      cbn [chained_points with_chained_points canon] in HP |- *.
      apply in_app_or in HP. destruct HP as [HP | [<- | []]].
      + apply Hinv, HP.
      + apply Hq'; reflexivity.
    - destruct (back (chained_points w)) as [pos | ] eqn:Hb;
        [ | apply back_None in Hb; contradiction].
      pose proof (flush_segments_back _ _ _ _ _ Hf Hb) as Hend.
      pose proof (flush_segments_Ok _ _ _ _ Hf) as He.
      destruct (Hinv pos (back_In _ _ Hb)) as (Ia & Ib & Ic & Iu & Iv & Iw).
      intros P HP. unfold push_point in HP |- *.
      cbn [chained_points with_chained_points canon] in HP |- *.
      rewrite He in HP. destruct HP as [<- | []].
      apply Hq'; rewrite Hend; cbn [pt_pos pa pb pc pu pv pw]; assumption. }
  destruct H as [H | [H | H]].
  - apply (Hsee p H).
  - unfold STRAIGHT_FEED in H.
    apply bind_Ok in H. destruct H as (c & w0 & E & H).
    unfold get_canon in E. inversion E; subst c w0; clear E.
    cbv zeta in H. apply (Hsee _ H).
  - apply Hempty. apply (flush_segments_Ok _ _ _ _ H).
Qed.

Lemma buffer_moves_only_xyz_witness :
  buffer_on_end_point_axes feeding_world /\
  buffer_on_end_point_axes pending_world.
Proof.
  assert (H : buffer_on_end_point_axes feeding_world) by (intros P []).
  split; [exact H | ].
  exact (buffer_moves_only_xyz scenario_machine 10 feed_target feeding_world
           pending_world tt H (or_intror (or_introl STRAIGHT_FEED_scenario))).
Defined.

(** ** Writing and reading the canonical state *)

(** A flush writes the end point and the two flags of the kind of move, and
    no other member of [canon]. *)
Lemma flush_segments_canon (m : Machine) (w w1 : World) (u : unit) :
  flush_segments m w = Ok u w1 ->
  exists e cm am,
    canon w1 = set_endPoint e (set_angular_move am (set_cartesian_move cm (canon w))).
Proof.
  intros H. destruct (back (chained_points w)) as [pos | ] eqn:Hb.
  - destruct (flush_segments_inv m w w1 u pos H Hb)
      as (ini & acc & jerk & _ & _ & _ & _ & _ & ->).
    eexists _, _, _.
    match goal with
    | |- context [if ?b then _ else _] => destruct b
    end; reflexivity.
  - rewrite (flush_segments_none _ _ _ _ H Hb).
    exists (endPoint (canon w)), (cartesian_move (canon w)), (angular_move (canon w)).
    destruct (canon w). reflexivity.
Qed.

Lemma flush_segments_lengthUnits (m : Machine) (w w1 : World) (u : unit) :
  flush_segments m w = Ok u w1 -> lengthUnits (canon w1) = lengthUnits (canon w).
Proof.
  intros H. destruct (flush_segments_canon _ _ _ _ H) as (e & cm & am & ->).
  reflexivity.
Qed.

Lemma TO_PROG_LEN_units (c1 c2 : CanonConfig_t) (x : R) :
  lengthUnits c1 = lengthUnits c2 -> TO_PROG_LEN c1 x = TO_PROG_LEN c2 x.
Proof. intros H. unfold TO_PROG_LEN, prog_len_factor. rewrite H. reflexivity. Qed.

Lemma FROM_PROG_LEN_units (c1 c2 : CanonConfig_t) (x : R) :
  lengthUnits c1 = lengthUnits c2 -> FROM_PROG_LEN c1 x = FROM_PROG_LEN c2 x.
Proof. intros H. unfold FROM_PROG_LEN, prog_len_factor. rewrite H. reflexivity. Qed.

Lemma USE_TOOL_LENGTH_OFFSET_canon (m : Machine) (offset : EmcPose)
    (w w' : World) (u : unit) :
  USE_TOOL_LENGTH_OFFSET m offset w = Ok u w' ->
  exists w0,
    flush_segments m w = Ok tt w0 /\
    canon w' =
    set_toolOffset
      (mkPose (mkCart (FROM_PROG_LEN (canon w0) (cx (tran offset)))
                      (FROM_PROG_LEN (canon w0) (cy (tran offset)))
                      (FROM_PROG_LEN (canon w0) (cz (tran offset))))
              (FROM_PROG_ANG (ea offset)) (FROM_PROG_ANG (eb offset))
              (FROM_PROG_ANG (ec offset))
              (FROM_PROG_LEN (canon w0) (eu offset))
              (FROM_PROG_LEN (canon w0) (ev offset))
              (FROM_PROG_LEN (canon w0) (ew offset))) (canon w0).
Proof.
  unfold USE_TOOL_LENGTH_OFFSET. intros H.
  apply bind_Ok in H. destruct H as ([] & w0 & Ef & H).
  exists w0. split; [exact Ef | ].
  apply bind_Ok in H. destruct H as (u1 & w1 & E1 & H).
  unfold modify in E1. inversion E1; subst u1 w1; clear E1.
  apply bind_Ok in H. destruct H as (c & w2 & E2 & H).
  unfold get_canon in E2. inversion E2; subst c w2; clear E2.
  cbv zeta in H.
  bind_inv H.
  repeat match goal with
         | E : TO_EXT_LEN _ _ _ = Ok _ _ |- _ =>
           apply TO_EXT_LEN_Ok in E; destruct E as (-> & -> & _)
         | E : TO_EXT_ANG _ _ _ = Ok _ _ |- _ =>
           apply TO_EXT_ANG_Ok in E; destruct E as (-> & -> & _)
         end.
  unfold modify in H. inversion H; subst w'; clear H.
  match goal with
  | E : (if ?b then _ else _) _ = Ok _ _ |- _ => destruct b
  end.
  - match goal with
    | E : bind _ _ _ = Ok _ _ |- _ =>
      apply bind_Ok in E; destruct E as (msg & w3 & E3 & E4)
    end.
    unfold css_speed_msg in E3. bind_inv E3.
    apply TO_EXT_LEN_Ok in E. destruct E as (-> & -> & _).
    inversion E3; subst. unfold modify in E4. inversion E4; subst. reflexivity.
  - match goal with
    | E : ret _ _ = Ok _ _ |- _ => inversion E; subst
    end. reflexivity.
Qed.


Lemma USE_TOOL_LENGTH_OFFSET_returns (m : Machine) (offset : EmcPose) (w : World) :
  machine_ok m -> exists w', USE_TOOL_LENGTH_OFFSET m offset w = Ok tt w'.
Proof.
  intros Hok. pose proof Hok as (Hl & Ha & _).
  assert (Hl0 : linearUnits m <> 0) by lra.
  assert (Ha0 : angularUnits m <> 0) by lra.
  destruct (flush_segments_run m w Hok) as (w0 & Hf).
  unfold USE_TOOL_LENGTH_OFFSET.
  eapply bind_returns; [exact Hf | ].
  eapply bind_returns; [reflexivity | ].
  eapply bind_returns; [reflexivity | ]. cbv zeta.
  repeat (eapply bind_returns; [run_one | ]).
  match goal with
  | |- context [if ?b then _ else _] => destruct b
  end.
  - eapply bind_returns.
    + eapply bind_run.
      * unfold css_speed_msg. eapply bind_run; [run_one | reflexivity].
      * reflexivity.
    + eexists. reflexivity.
  - eapply bind_returns; [reflexivity | ]. eexists. reflexivity.
Qed.


(** *** The feed rate *)

Lemma SET_FEED_RATE_canon (m : Machine) (rate : R) (w w' : World) (u : unit) :
  SET_FEED_RATE m rate w = Ok u w' ->
  lengthUnits (canon w') = lengthUnits (canon w) /\
  linearFeedRate (canon w') =
    (if negb (feed_mode (canon w) =? 0)%Z then rate
     else FROM_PROG_LEN (canon w) (rate / 60)).
Proof.
  unfold SET_FEED_RATE. intros H.
  apply bind_Ok in H. destruct H as (c & w0 & E & H).
  unfold get_canon in E. inversion E; subst c w0; clear E.
  destruct (negb (feed_mode (canon w) =? 0)%Z).
  - apply bind_Ok in H. destruct H as (u1 & w1 & E1 & H).
    unfold modify in H. inversion H; subst w'; clear H.
    unfold START_SPEED_FEED_SYNCH in E1.
    apply bind_Ok in E1. destruct E1 as ([] & w0 & Ef & E1).
    pose proof (flush_segments_lengthUnits _ _ _ _ Ef) as Hu.
    bind_inv E1.
    unfold get_canon in E. inversion E; subst; clear E.
    apply TO_EXT_LEN_Ok in E0. destruct E0 as (-> & -> & _).
    unfold modify in E2. inversion E2; subst; clear E2.
    unfold modify in E1. inversion E1; subst; clear E1.
    split; [exact Hu | reflexivity].
  - cbv zeta in H.
    apply bind_Ok in H. destruct H as (u1 & w1 & E1 & H).
    bind_inv H. unfold modify in E, H. inversion E; subst; clear E.
    inversion H; subst; clear H.
    cbn [canon with_canon lengthUnits linearFeedRate set_linearFeedRate
         set_angularFeedRate].
    split; [ | reflexivity].
    match type of E1 with
    | (if ?b then _ else _) _ = _ => destruct b
    end.
    + apply (flush_segments_lengthUnits _ _ _ _ E1).
    + inversion E1. reflexivity.
Qed.


Lemma SET_FEED_RATE_inch_world :
  exists w', SET_FEED_RATE scenario_machine 30 inch_world = Ok tt w'.
Proof.
  unfold SET_FEED_RATE.
  eapply bind_returns; [reflexivity | ].
  change (feed_mode (canon inch_world)) with 0%Z. cbn [Z.eqb negb]. cbv zeta.
  eapply bind_returns.
  - match goal with
    | |- (if ?b then _ else _) _ = _ => destruct b
    end.
    + apply flush_segments_empty. reflexivity.
    + reflexivity.
  - eexists. reflexivity.
Qed.


(** *** The motion control mode *)


Lemma SET_MOTION_CONTROL_MODE_returns (m : Machine) (mode : CANON_MOTION_MODE)
    (tolerance : R) (w : World) :
  machine_ok m -> exists w', SET_MOTION_CONTROL_MODE m mode tolerance w = Ok tt w'.
Proof.
  intros Hok. pose proof Hok as (Hl & Ha & _).
  assert (Hl0 : linearUnits m <> 0) by lra.
  destruct (flush_segments_run m w Hok) as (w0 & Hf).
  unfold SET_MOTION_CONTROL_MODE.
  eapply bind_returns; [exact Hf | ].
  eapply bind_returns; [reflexivity | ].
  eapply bind_returns; [reflexivity | ].
  destruct mode.
  - eexists. reflexivity.
  - eapply bind_returns; [reflexivity | ].
    eapply bind_returns; [run_one | ].
    eexists. reflexivity.
Qed.


(** *** The position of the machine *)

Lemma GET_EXTERNAL_POSITION_inv (m : Machine) (pos : EmcPose) (w w' : World)
    (q : CANON_POSITION) :
  GET_EXTERNAL_POSITION m pos w = Ok q w' ->
  linearUnits m <> 0 /\ angularUnits m <> 0 /\
  w' = with_canon
         (set_endPoint
            (mkPos (cx (tran pos) / linearUnits m) (cy (tran pos) / linearUnits m)
                   (cz (tran pos) / linearUnits m)
                   (ea pos / angularUnits m) (eb pos / angularUnits m)
                   (ec pos / angularUnits m)
                   (eu pos / linearUnits m) (ev pos / linearUnits m)
                   (ew pos / linearUnits m)))
         (with_chained_points [] w) /\
  q = to_prog (canon w') (unoffset_and_unrotate_pos (canon w') (endPoint (canon w'))).
Proof.
  unfold GET_EXTERNAL_POSITION. intros H.
  apply bind_Ok in H. destruct H as (u1 & w1 & E1 & H).
  unfold modify in E1. inversion E1; subst u1 w1; clear E1.
  cbv zeta in H. bind_inv H.
  pose proof (FROM_EXT_LEN_Ok _ _ _ _ _ E) as (_ & _ & Hl).
  pose proof (FROM_EXT_ANG_Ok _ _ _ _ _ E2) as (_ & _ & Ha).
  repeat match goal with
         | E : FROM_EXT_LEN _ _ _ = Ok _ _ |- _ =>
           apply FROM_EXT_LEN_Ok in E; destruct E as (-> & -> & _)
         | E : FROM_EXT_ANG _ _ _ = Ok _ _ |- _ =>
           apply FROM_EXT_ANG_Ok in E; destruct E as (-> & -> & _)
         end.
  match goal with
  | E : canonUpdateEndPoint _ _ = Ok _ _ |- _ =>
    unfold canonUpdateEndPoint, modify in E; inversion E; subst; clear E
  end.
  match goal with
  | E : get_canon _ = Ok _ _ |- _ =>
    unfold get_canon in E; inversion E; subst; clear E
  end.
  inversion H; subst; clear H.
  split; [exact Hl | ]. split; [exact Ha | ]. split; reflexivity.
Qed.


Lemma GET_EXTERNAL_POSITION_returns (m : Machine) (pos : EmcPose) (w : World) :
  machine_ok m -> exists q w', GET_EXTERNAL_POSITION m pos w = Ok q w'.
Proof.
  intros Hok. pose proof Hok as (Hl & Ha & _).
  assert (Hl0 : linearUnits m <> 0) by lra.
  assert (Ha0 : angularUnits m <> 0) by lra.
  unfold GET_EXTERNAL_POSITION. eexists _, _.
  eapply bind_run; [reflexivity | ]. cbv zeta.
  run_steps. reflexivity.
Qed.


(** *** Traverse *)

Lemma STOP_SPEED_FEED_SYNCH_empty (m : Machine) (w : World) :
  chained_points w = [] ->
  STOP_SPEED_FEED_SYNCH m w =
  Ok tt (with_canon (set_synched false)
           (interp_append (EMC_TRAJ_SET_SPINDLESYNC 0 false) w)).
Proof.
  intros He. unfold STOP_SPEED_FEED_SYNCH.
  eapply bind_run; [apply flush_segments_empty, He | ].
  eapply bind_run; [reflexivity | ]. reflexivity.
Qed.

Lemma START_SPEED_FEED_SYNCH_empty (m : Machine) (f : R) (vm : bool)
    (w w' : World) (u : unit) :
  chained_points w = [] ->
  START_SPEED_FEED_SYNCH m f vm w = Ok u w' ->
  w' = with_canon (set_synched true)
         (interp_append
            (EMC_TRAJ_SET_SPINDLESYNC (FROM_PROG_LEN (canon w) f * linearUnits m) vm)
            w).
Proof.
  intros He H. unfold START_SPEED_FEED_SYNCH in H.
  apply bind_Ok in H. destruct H as (u1 & w1 & E1 & H).
  rewrite (flush_segments_empty _ _ He) in E1. inversion E1; subst u1 w1; clear E1.
  bind_inv H.
  unfold get_canon in E. inversion E; subst; clear E.
  apply TO_EXT_LEN_Ok in E0. destruct E0 as (-> & -> & _).
  unfold modify in E1, H. inversion E1; subst; clear E1.
  inversion H; subst; clear H. reflexivity.
Qed.

Lemma offsets_after_flush (c : CanonConfig_t) (e : CANON_POSITION) (cm am : bool)
    (p : CANON_POSITION) :
  rotate_and_offset_pos (set_endPoint e (set_angular_move am (set_cartesian_move cm c)))
    (from_prog (set_endPoint e (set_angular_move am (set_cartesian_move cm c))) p)
  = rotate_and_offset_pos c (from_prog c p).
Proof. reflexivity. Qed.

(** The internal end of the move to the program position [p]. *)
Lemma STRAIGHT_TRAVERSE_inv (m : Machine) (line_number : Z) (p : CANON_POSITION)
    (w w' : World) (u : unit) :
  STRAIGHT_TRAVERSE m line_number p w = Ok u w' ->
  exists w0 vel acc jerk,
    flush_segments m w = Ok tt w0 /\
    let q := rotate_and_offset_pos (canon w) (from_prog (canon w) p) in
    let wc := classified m q w0 in
    let msg := mkLinearMove EMC_MOTION_TYPE_TRAVERSE (external_pose m q)
                 (vel * velocity_units m (canon wc))
                 (vel * velocity_units m (canon wc))
                 (acc * velocity_units m (canon wc))
                 (jerk * linearUnits m) 0 in
    let w2 := if negb (feed_mode (canon w) =? 0)%Z
              then with_canon (set_synched false)
                     (interp_append (EMC_TRAJ_SET_SPINDLESYNC 0 false) wc)
              else wc in
    let w3 := if nonzero vel && nonzero acc
              then interp_append (EMC_TRAJ_LINEAR_MOVE msg)
                     (interp_set_line_number line_number w2)
              else w2 in
    let w4 := if negb (feed_mode (canon w) =? 0)%Z
              then with_canon (set_synched true)
                     (interp_append
                        (EMC_TRAJ_SET_SPINDLESYNC
                           (FROM_PROG_LEN (canon w) (linearFeedRate (canon w))
                            * linearUnits m) true) w3)
              else w3 in
    w' = with_canon (set_endPoint q) w4.
Proof.
  unfold STRAIGHT_TRAVERSE. intros H.
  apply bind_Ok in H. destruct H as ([] & w0 & Ef & H).
  pose proof (flush_segments_Ok _ _ _ _ Ef) as He.
  destruct (flush_segments_canon _ _ _ _ Ef) as (e & cm & am & Hc).
  apply bind_Ok in H. destruct H as (c & w1 & E1 & H).
  unfold get_canon in E1. inversion E1; subst c w1; clear E1.
  cbv zeta in H.
  rewrite Hc, offsets_after_flush in H.
  set (q := rotate_and_offset_pos (canon w) (from_prog (canon w) p)) in *.
  apply bind_Ok in H. destruct H as (vel & w1 & Ev & H).
  pose proof (getStraightVelocity_Ok _ _ _ _ _ Ev) as ->.
  apply bind_Ok in H. destruct H as (acc & w1 & Ea & H).
  pose proof (getStraightAcceleration_Ok _ _ _ _ _ Ea) as Hw.
  rewrite classified_twice in Hw. subst w1.
  apply bind_Ok in H. destruct H as (jerk & w1 & Ej & H).
  pose proof (getStraightJerk_Ok _ _ _ _ _ Ej) as Hw.
  rewrite classified_twice in Hw. subst w1.
  apply bind_Ok in H. destruct H as (ext_jerk & w1 & E1 & H).
  apply TO_EXT_LEN_Ok in E1. destruct E1 as (-> & -> & _).
  apply bind_Ok in H. destruct H as (pose & w1 & E1 & H).
  apply to_ext_pose_Ok in E1. destruct E1 as (-> & ->).
  fold (external_pose m q) in H.
  apply bind_Ok in H. destruct H as (ext_vel & w1 & E1 & H).
  apply toExtVel_Ok in E1. destruct E1 as (-> & ->).
  apply bind_Ok in H. destruct H as (ext_acc & w1 & E1 & H).
  apply toExtVel_Ok in E1. destruct E1 as (-> & ->).
  fold (velocity_units m (canon (classified m q w0))) in H.
  apply bind_Ok in H. destruct H as (c1 & w1 & E1 & H).
  unfold get_canon in E1. inversion E1; subst c1 w1; clear E1.
  cbv zeta in H.
  assert (Hfm : feed_mode (canon w0) = feed_mode (canon w)).
  { rewrite Hc. reflexivity. }
  cbn [feed_mode set_angular_move set_cartesian_move] in H.
  rewrite Hfm in H.
  exists w0, vel, acc, jerk. split; [exact Ef | ]. cbv zeta.
  fold q.
  set (wc := classified m q w0) in *.
  assert (Hwc : chained_points wc = []) by exact He.
  apply bind_Ok in H. destruct H as (u2 & w2 & E2 & H).
  apply bind_Ok in H. destruct H as (u3 & w3 & E3 & H).
  apply bind_Ok in H. destruct H as (u4 & w4 & E4 & H).
  unfold canonUpdateEndPoint, modify in H. inversion H; subst w'; clear H.
  f_equal.
  destruct (negb (feed_mode (canon w) =? 0)%Z).
  - rewrite (STOP_SPEED_FEED_SYNCH_empty m wc Hwc) in E2.
    inversion E2; subst u2 w2; clear E2.
    destruct (nonzero vel && nonzero acc).
    + bind_inv E3. unfold modify in E, E3.
      inversion E; subst; clear E. inversion E3; subst; clear E3.
      bind_inv E4. unfold get_canon in E. inversion E; subst; clear E.
      apply START_SPEED_FEED_SYNCH_empty in E4; [ | exact Hwc].
      rewrite E4.
      match goal with
      | |- context [FROM_PROG_LEN ?c ?r] =>
        replace (FROM_PROG_LEN c r)
          with (FROM_PROG_LEN (canon w) (linearFeedRate (canon w)));
        [reflexivity | ]
      end.
      unfold FROM_PROG_LEN, prog_len_factor. subst wc.
      cbn [canon classified with_canon interp_append interp_set_line_number
           lengthUnits linearFeedRate set_synched set_angular_move
           set_cartesian_move].
      rewrite Hc. reflexivity.
    + inversion E3; subst; clear E3.
      bind_inv E4. unfold get_canon in E. inversion E; subst; clear E.
      apply START_SPEED_FEED_SYNCH_empty in E4; [ | exact Hwc].
      rewrite E4.
      match goal with
      | |- context [FROM_PROG_LEN ?c ?r] =>
        replace (FROM_PROG_LEN c r)
          with (FROM_PROG_LEN (canon w) (linearFeedRate (canon w)));
        [reflexivity | ]
      end.
      unfold FROM_PROG_LEN, prog_len_factor. subst wc.
      cbn [canon classified with_canon interp_append interp_set_line_number
           lengthUnits linearFeedRate set_synched set_angular_move
           set_cartesian_move].
      rewrite Hc. reflexivity.
  - inversion E2; subst u2 w2; clear E2.
    destruct (nonzero vel && nonzero acc).
    + bind_inv E3. unfold modify in E, E3.
      inversion E; subst; clear E. inversion E3; subst; clear E3.
      inversion E4; subst. reflexivity.
    + inversion E3; subst; clear E3. inversion E4; subst. reflexivity.
Qed.

Lemma STRAIGHT_TRAVERSE_returns (m : Machine) (line_number : Z)
    (p : CANON_POSITION) (w : World) :
  machine_ok m -> exists w', STRAIGHT_TRAVERSE m line_number p w = Ok tt w'.
Proof.
  intros Hok. pose proof Hok as (Hl & Ha & _).
  assert (Hl0 : linearUnits m <> 0) by lra.
  assert (Ha0 : angularUnits m <> 0) by lra.
  destruct (flush_segments_run m w Hok) as (w0 & Hf).
  pose proof (flush_segments_Ok _ _ _ _ Hf) as He.
  unfold STRAIGHT_TRAVERSE.
  eapply bind_returns; [exact Hf | ].
  eapply bind_returns; [reflexivity | ]. cbv zeta.
  set (q := rotate_and_offset_pos (canon w0) (from_prog (canon w0) p)).
  destruct (getStraightVelocity_run m q w0 Hok) as (vel & Hv).
  destruct (getStraightAcceleration_run m q (classified m q w0) Hok) as (acc & Hacc).
  rewrite classified_twice in Hacc.
  destruct (getStraightJerk_run m q (classified m q w0) Hok) as (jerk & Hj).
  rewrite classified_twice in Hj.
  destruct (to_ext_pose_run m q (classified m q w0) Hl0 Ha0) as (pose & Hp).
  set (wc := classified m q w0) in *.
  assert (Hwc : chained_points wc = []) by exact He.
  repeat (eapply bind_returns; [run_one | cbv beta]).
  destruct (negb (feed_mode (canon wc) =? 0)%Z).
  - eapply bind_returns; [apply STOP_SPEED_FEED_SYNCH_empty, Hwc | ].
    destruct (nonzero vel && nonzero acc).
    + eapply bind_returns; [run_one | ].
      eapply bind_returns.
      * eapply bind_run; [reflexivity | ].
        unfold START_SPEED_FEED_SYNCH.
        eapply bind_run; [apply flush_segments_empty; exact Hwc | ].
        run_steps. reflexivity.
      * eexists. reflexivity.
    + eapply bind_returns; [reflexivity | ].
      eapply bind_returns.
      * eapply bind_run; [reflexivity | ].
        unfold START_SPEED_FEED_SYNCH.
        eapply bind_run; [apply flush_segments_empty; exact Hwc | ].
        run_steps. reflexivity.
      * eexists. reflexivity.
  - eapply bind_returns; [reflexivity | ].
    destruct (nonzero vel && nonzero acc).
    + eapply bind_returns; [run_one | ].
      eapply bind_returns; [reflexivity | ]. eexists. reflexivity.
    + eapply bind_returns; [reflexivity | ].
      eapply bind_returns; [reflexivity | ]. eexists. reflexivity.
Qed.

(** X18: a traverse with the feed mode 0.  [STRAIGHT_TRAVERSE] flushes the
    buffer, then appends at most one message: a traverse move to the
    programmed position, in external units under the line number of the call,
    with the feed mode 0 and [vel] equal to [ini_maxvel].  The end point
    becomes the programmed position in internal coordinates, and the buffer
    is empty. *)
Theorem STRAIGHT_TRAVERSE_feed_mode_0 (m : Machine) (line_number : Z)
    (p : CANON_POSITION) (w w' : World) (u : unit) :
  STRAIGHT_TRAVERSE m line_number p w = Ok u w' ->
  feed_mode (canon w) = 0%Z ->
  endPoint (canon w') = rotate_and_offset_pos (canon w) (from_prog (canon w) p) /\
  chained_points w' = [] /\
  exists w0,
    flush_segments m w = Ok tt w0 /\
    (interp_list w' = interp_list w0 \/
     exists msg,
       interp_list w' = interp_list w0 ++ [(line_number, EMC_TRAJ_LINEAR_MOVE msg)] /\
       lm_type msg = EMC_MOTION_TYPE_TRAVERSE /\
       lm_end msg =
         external_pose m (rotate_and_offset_pos (canon w) (from_prog (canon w) p)) /\
       lm_vel msg = lm_ini_maxvel msg /\
       lm_feed_mode msg = 0%Z).
Proof.
  intros H Hm.
  destruct (STRAIGHT_TRAVERSE_inv _ _ _ _ _ _ H) as (w0 & vel & acc & jerk & Hf & Hw).
  cbv zeta in Hw. rewrite Hm in Hw. cbn [Z.eqb negb] in Hw.
  pose proof (flush_segments_Ok _ _ _ _ Hf) as He.
  subst w'. split; [reflexivity | ].
  destruct (nonzero vel && nonzero acc).
  - split; [exact He | ]. exists w0. split; [exact Hf | ].
    right. eexists. split; [reflexivity | ]. repeat split; reflexivity.
  - split; [exact He | ]. exists w0. split; [exact Hf | ]. left. reflexivity.
Qed.

Lemma STRAIGHT_TRAVERSE_feed_mode_0_witness :
  exists w',
    STRAIGHT_TRAVERSE scenario_machine 20 feed_target pending_world = Ok tt w' /\
    endPoint (canon w') = feed_target /\ chained_points w' = [].
Proof.
  destruct (STRAIGHT_TRAVERSE_returns scenario_machine 20 feed_target pending_world
              scenario_machine_ok) as (w' & H).
  exists w'. split; [exact H | ].
  destruct (STRAIGHT_TRAVERSE_feed_mode_0 scenario_machine 20 feed_target
              pending_world w' tt H eq_refl) as (H1 & H2 & _).
  split; [ | exact H2].
  rewrite H1. apply feed_target_internal.
Defined.

(** X19: a traverse in a feed mode other than 0 is taken out of the
    synchronisation with the spindle.  After the flush the function appends
    the message that stops the synchronisation, then the traverse move if
    there is one, then the message that starts the synchronisation again, in
    velocity mode with the feed rate of the state as the feed per revolution,
    in external units; and it leaves the state synched. *)
Theorem STRAIGHT_TRAVERSE_synchronised (m : Machine) (line_number : Z)
    (p : CANON_POSITION) (w w' : World) (u : unit) :
  STRAIGHT_TRAVERSE m line_number p w = Ok u w' ->
  feed_mode (canon w) <> 0%Z ->
  synched (canon w') = true /\
  endPoint (canon w') = rotate_and_offset_pos (canon w) (from_prog (canon w) p) /\
  exists w0 moves n,
    flush_segments m w = Ok tt w0 /\
    (moves = [] \/
     exists msg, moves = [(line_number, EMC_TRAJ_LINEAR_MOVE msg)] /\
                 lm_type msg = EMC_MOTION_TYPE_TRAVERSE) /\
    interp_list w' =
    interp_list w0 ++
    [(interp_line w0, EMC_TRAJ_SET_SPINDLESYNC 0 false)] ++ moves ++
    [(n, EMC_TRAJ_SET_SPINDLESYNC
           (FROM_PROG_LEN (canon w) (linearFeedRate (canon w)) * linearUnits m)
           true)].
Proof.
  intros H Hm.
  destruct (STRAIGHT_TRAVERSE_inv _ _ _ _ _ _ H) as (w0 & vel & acc & jerk & Hf & Hw).
  cbv zeta in Hw. apply Z.eqb_neq in Hm. rewrite Hm in Hw. cbn [negb] in Hw.
  subst w'. split; [reflexivity | ]. split; [reflexivity | ].
  destruct (nonzero vel && nonzero acc).
  - match goal with
    | |- context [EMC_TRAJ_LINEAR_MOVE ?msg] =>
      exists w0, [(line_number, EMC_TRAJ_LINEAR_MOVE msg)], line_number
    end.
    split; [exact Hf | ]. split.
    + right. eexists. split; reflexivity.
    + cbn [interp_list with_canon interp_append interp_set_line_number interp_line
           classified].
      rewrite <- !app_assoc. reflexivity.
  - exists w0, [], (interp_line w0). split; [exact Hf | ]. split.
    + left. reflexivity.
    + cbn [interp_list with_canon interp_append interp_set_line_number interp_line
           classified].
      rewrite <- !app_assoc. reflexivity.
Qed.

Lemma STRAIGHT_TRAVERSE_synchronised_witness :
  exists w',
    STRAIGHT_TRAVERSE scenario_machine 20 feed_target synched_world = Ok tt w' /\
    synched (canon w') = true.
Proof.
  destruct (STRAIGHT_TRAVERSE_returns scenario_machine 20 feed_target synched_world
              scenario_machine_ok) as (w' & H).
  exists w'. split; [exact H | ].
  assert (Hm : feed_mode (canon synched_world) <> 0%Z) by discriminate.
  exact (proj1 (STRAIGHT_TRAVERSE_synchronised scenario_machine 20 feed_target
                  synched_world w' tt H Hm)).
Defined.

(** *** The tolerance of fusing *)

(** X20: a larger naive-cam tolerance never takes a fusable move away.  When
    [linkable] accepts a point, it accepts it in the state that differs only
    in a larger tolerance. *)
Theorem linkable_tolerance_monotone (p : CANON_POSITION) (w : World) (t : R) :
  linkable p w = Ok true w ->
  naivecamTolerance (canon w) <= t ->
  linkable p (with_canon (set_naivecamTolerance t) w)
  = Ok true (with_canon (set_naivecamTolerance t) w).
Proof.
  intros H Ht.
  assert (Hne : chained_points w <> []).
  { intros E. unfold linkable in H. rewrite E in H. discriminate H. }
  pose proof (linkable_true_spec _ _ Hne H) as (Hm & Hpos & Hlen & Hb & Hx & Hd).
  destruct (linkable_characterised (with_canon (set_naivecamTolerance t) w) p Hne)
    as (l & Hl & Hs).
  rewrite Hl. f_equal. apply Hs.
  unfold linkable_spec.
  change (chained_points (with_canon (set_naivecamTolerance t) w))
    with (chained_points w).
  change (motionMode (canon (with_canon (set_naivecamTolerance t) w)))
    with (motionMode (canon w)).
  change (endPoint (canon (with_canon (set_naivecamTolerance t) w)))
    with (endPoint (canon w)).
  change (naivecamTolerance (canon (with_canon (set_naivecamTolerance t) w)))
    with t.
  split; [exact Hm | ]. split; [lra | ]. split; [exact Hlen | ].
  split; [exact Hb | ]. split; [exact Hx | ].
  intros P HP. specialize (Hd P HP). lra.
Qed.

Lemma linkable_tolerance_monotone_witness :
  linkable next_target (with_canon (set_naivecamTolerance 1) full_world)
  = Ok true (with_canon (set_naivecamTolerance 1) full_world).
Proof.
  apply (linkable_tolerance_monotone next_target full_world 1 linkable_full_world).
  change (naivecamTolerance (canon full_world)) with (1 / 10). lra.
Defined.

(** ** Units and the feed rate *)



(** ** The charge pump *)

Lemma charge_pump_calls_app (l1 l2 : list bool) (out : bool) :
  charge_pump_calls (l1 ++ l2) out = charge_pump_calls l2 (charge_pump_calls l1 out).
Proof. unfold charge_pump_calls. apply fold_left_app. Qed.

(** X22: the charge pump makes a square wave.  Over calls that are all
    enabled the output is the one at the start after an even number of calls
    and its negation after an odd number, so that two calls in a row never
    give the same output; and whatever came before, the output after a call
    that is not enabled is low. *)
Theorem charge_pump_square_wave (enables : list bool) (out : bool) :
  (Forall (fun e => e = true) enables ->
   charge_pump_calls enables out
   = if Nat.even (length enables) then out else negb out) /\
  charge_pump_calls (enables ++ [false]) out = false.
Proof.
  split.
  - intros H. revert out.
    induction H as [| e l He _ IH]; intros out; [reflexivity | ].
    subst e. change (charge_pump_calls (true :: l) out)
      with (charge_pump_calls l (negb out)).
    rewrite IH. cbn [length].
    rewrite Nat.even_succ, <- Nat.negb_even.
    destruct (Nat.even (length l)); cbn [negb];
      [reflexivity | apply negb_involutive].
  - rewrite charge_pump_calls_app. reflexivity.
Qed.

Lemma charge_pump_square_wave_witness :
  charge_pump_calls [true; true; true] false = true.
Proof.
  apply (proj1 (charge_pump_square_wave [true; true; true] false)).
  repeat constructor.
Defined.

(** ** The i/o port *)

Lemma tsoutreg_cleared (Width : nat) (o : list STD_LOGIC) :
  Forall (fun s => s = SL_Z)
    (map (fun d_o : STD_LOGIC * STD_LOGIC =>
            if is_1 (fst d_o) then snd d_o else SL_Z)
         (combine (repeat SL_0 Width) o)).
Proof.
  revert o. induction Width as [| n IH]; intros o; [constructor | ].
  destruct o as [| s o]; [constructor | ].
  cbn [repeat combine map fst snd is_1]. constructor; [reflexivity | apply IH].
Qed.

(** X23: [clear] makes every pin an input.  After a rising edge with [clear]
    at '1' the direction register is all '0', whatever [loadddr] and the bus
    say, and every element of [portdata] is 'Z': no pin is driven.  The
    output register is loaded all the same, and a read of the direction
    register returns [Width] zeros. *)
Theorem ioport_clear_releases_pins (Width : nat) (loadport loadddr : STD_LOGIC)
    (ibus : list STD_LOGIC) (r : ioport) :
  length ibus = Width -> length (outreg r) = Width ->
  let r' := ioport_rising_edge Width SL_1 loadport loadddr ibus r in
  ddrreg r' = repeat SL_0 Width /\
  length (portdata r') = Width /\
  Forall (fun s => s = SL_Z) (portdata r') /\
  outreg r' = (if is_1 loadport then ibus else outreg r) /\
  obus Width SL_1 r' = repeat SL_0 Width.
Proof.
  intros Hi Ho r'. subst r'. unfold ioport_rising_edge. cbv zeta.
  cbn [is_1 ddrreg outreg].
  split; [reflexivity | ]. split.
  - unfold portdata, tsoutreg. cbn [ddrreg outreg].
    rewrite length_map, length_combine, repeat_length.
    destruct (is_1 loadport); [rewrite Hi | rewrite Ho]; apply Nat.min_id.
  - split; [ | split; reflexivity].
    unfold portdata, tsoutreg. cbn [ddrreg outreg]. apply tsoutreg_cleared.
Qed.

Lemma ioport_clear_releases_pins_witness :
  Forall (fun s => s = SL_Z)
    (portdata (ioport_rising_edge 2 SL_1 SL_1 SL_1 [SL_1; SL_1]
                 (mkIoport [SL_0; SL_1] [SL_1; SL_1]))).
Proof.
  exact (proj1 (proj2 (proj2
           (ioport_clear_releases_pins 2 SL_1 SL_1 [SL_1; SL_1]
              (mkIoport [SL_0; SL_1] [SL_1; SL_1]) eq_refl eq_refl)))).
Defined.

(** ** Messages of feeds *)

Lemma flush_segments_appends (m : Machine) (w w1 : World) (u : unit) :
  flush_segments m w = Ok u w1 ->
  exists l, interp_list w1 = interp_list w ++ l /\
            (length l <= 1)%nat /\ feed_moves l.
Proof.
  intros H. destruct (back (chained_points w)) as [pos | ] eqn:Hb.
  - destruct (flush_segments_inv m w w1 u pos H Hb)
      as (ini & acc & jerk & _ & _ & _ & _ & _ & ->).
    match goal with
    | |- context [if ?b then _ else _] => destruct b
    end.
    + eexists [_]. split; [reflexivity | ]. split; [simpl; lia | ].
      constructor; [ | constructor].
      eexists. split; reflexivity.
    + exists []. split; [ | split; [simpl; lia | constructor]].
      cbn [interp_list with_chained_points with_canon classified].
      rewrite app_nil_r. reflexivity.
  - rewrite (flush_segments_none _ _ _ _ H Hb).
    exists []. rewrite app_nil_r.
    split; [reflexivity | split; [simpl; lia | constructor]].
Qed.

Lemma see_segment_appends (m : Machine) (line_number : Z) (p : CANON_POSITION)
    (w w' : World) (u : unit) :
  see_segment m line_number p w = Ok u w' ->
  exists l, interp_list w' = interp_list w ++ l /\
            (length l <= 2)%nat /\ feed_moves l.
Proof.
  intros H.
  destruct (see_segment_inv _ _ _ _ _ _ H) as (w1 & Hw1 & Hw').
  assert (H1 : exists l1, interp_list w1 = interp_list w ++ l1 /\
                          (length l1 <= 1)%nat /\ feed_moves l1).
  { destruct Hw1 as [(_ & ->) | [(_ & _ & ->) | (_ & _ & Hf)]].
    - exists []. rewrite app_nil_r.
      split; [reflexivity | split; [simpl; lia | constructor]].
    - exists []. rewrite app_nil_r.
      split; [reflexivity | split; [simpl; lia | constructor]].
    - apply (flush_segments_appends _ _ _ _ Hf). }
  destruct H1 as (l1 & E1 & Hn1 & Hm1).
  destruct (changed_abc_uvw p (endPoint (canon w))).
  - destruct (flush_segments_appends _ _ _ _ Hw') as (l2 & E2 & Hn2 & Hm2).
    exists (l1 ++ l2). split.
    + rewrite E2. unfold push_point. cbn [interp_list with_chained_points].
      rewrite E1, app_assoc. reflexivity.
    + split; [rewrite length_app; lia | ].
      apply Forall_app. split; assumption.
  - subst w'. exists l1. split; [exact E1 | ]. split; [lia | exact Hm1].
Qed.

(** X24: messages are only ever added, and few at a time.  [flush_segments]
    leaves the message list as it was and adds at most one message;
    [see_segment] and [STRAIGHT_FEED] add at most two; and every message that
    they add is a linear move of the type feed. *)
Theorem feeds_append_feed_moves (m : Machine) (line_number : Z)
    (p : CANON_POSITION) (w w' : World) (u : unit) :
  (flush_segments m w = Ok u w' ->
   exists l, interp_list w' = interp_list w ++ l /\
             (length l <= 1)%nat /\ feed_moves l) /\
  (see_segment m line_number p w = Ok u w' \/
   STRAIGHT_FEED m line_number p w = Ok u w' ->
   exists l, interp_list w' = interp_list w ++ l /\
             (length l <= 2)%nat /\ feed_moves l).
Proof.
  split; [apply flush_segments_appends | ].
  intros [H | H]; [apply (see_segment_appends _ _ _ _ _ _ H) | ].
  unfold STRAIGHT_FEED in H.
  apply bind_Ok in H. destruct H as (c & w0 & E & H).
  unfold get_canon in E. inversion E; subst c w0; clear E.
  cbv zeta in H. apply (see_segment_appends _ _ _ _ _ _ H).
Qed.

Lemma feeds_append_feed_moves_witness :
  exists l, interp_list scenario1_final = interp_list pending_world ++ l /\
            (length l <= 1)%nat /\ feed_moves l.
Proof.
  exact (proj1 (feeds_append_feed_moves scenario_machine 0 zero_position
                  pending_world scenario1_final tt) FINISH_scenario).
Defined.

(** X25: a feed and then [FINISH], from an empty buffer.  The two calls
    together bring the end point to the programmed position in internal
    coordinates, leave the buffer empty, and add at most one message: a feed
    move to that position, in external units under the line number of the
    feed. *)
Theorem STRAIGHT_FEED_then_FINISH (m : Machine) (line_number : Z)
    (p : CANON_POSITION) (w w1 w2 : World) (u1 u2 : unit) :
  chained_points w = [] ->
  STRAIGHT_FEED m line_number p w = Ok u1 w1 ->
  FINISH m w1 = Ok u2 w2 ->
  let q := rotate_and_offset_pos (canon w) (from_prog (canon w) p) in
  endPoint (canon w2) = q /\
  chained_points w2 = [] /\
  (interp_list w2 = interp_list w \/
   exists msg,
     interp_list w2 = interp_list w ++ [(line_number, EMC_TRAJ_LINEAR_MOVE msg)] /\
     lm_type msg = EMC_MOTION_TYPE_FEED /\
     lm_end msg = external_pose m q /\
     lm_feed_mode msg = feed_mode (canon w)).
Proof.
  intros He H1 H2 q.
  unfold STRAIGHT_FEED in H1.
  apply bind_Ok in H1. destruct H1 as (c & w0 & E & H1).
  unfold get_canon in E. inversion E; subst c w0; clear E.
  cbv zeta in H1. fold q in H1.
  unfold FINISH in H2.
  destruct (see_segment_inv _ _ _ _ _ _ H1) as (w' & Hw' & Hw1).
  assert (w' = w) as ->.
  { destruct Hw' as [(_ & ->) | [(Hne & _) | (Hne & _)]];
      [reflexivity | contradiction | contradiction]. }
  assert (Hflush : exists u, flush_segments m (push_point q line_number w) = Ok u w2).
  { destruct (changed_abc_uvw q (endPoint (canon w))).
    - pose proof (flush_segments_Ok _ _ _ _ Hw1) as He1.
      rewrite (flush_segments_empty _ _ He1) in H2. inversion H2; subst w2.
      exists tt. exact Hw1.
    - subst w1. exists u2. exact H2. }
  destruct Hflush as (u & Hf).
  assert (Hb : back (chained_points (push_point q line_number w))
               = Some (pos_pt q line_number)).
  { unfold push_point. cbn [chained_points with_chained_points]. apply back_app. }
  destruct (flush_segments_inv m _ w2 u _ Hf Hb)
    as (ini & acc & jerk & _ & _ & _ & _ & _ & Hw2).
  rewrite pt_pos_pos_pt in Hw2.
  rewrite Hw2. split; [reflexivity | ]. split; [reflexivity | ].
  match goal with
  | |- context [if ?b then _ else _] => destruct b
  end.
  - right. eexists. split; [reflexivity | ].
    split; [reflexivity | ]. split; reflexivity.
  - left. reflexivity.
Qed.

Lemma STRAIGHT_FEED_then_FINISH_witness :
  endPoint (canon scenario1_final) = feed_target /\
  chained_points scenario1_final = [].
Proof.
  destruct (STRAIGHT_FEED_then_FINISH scenario_machine 10 feed_target
              feeding_world pending_world scenario1_final tt tt eq_refl
              STRAIGHT_FEED_scenario FINISH_scenario) as (H1 & H2 & _).
  split; [ | exact H2].
  rewrite H1. apply feed_target_internal.
Defined.

(** ** The origin *)

(** X26: the messages of a new origin.  [SET_ORIGIN_OFFSETS] stores the
    origin in internal units, flushes the buffer, and then appends the origin
    in external units as the last message; with constant surface speed a
    spindle speed message comes just before it, with the x offset of the new
    origin and the tool in external units.  The end point is the one the
    flush left. *)
Theorem SET_ORIGIN_OFFSETS_messages (m : Machine) (p : CANON_POSITION)
    (w w' : World) (u : unit) :
  SET_ORIGIN_OFFSETS m p w = Ok u w' ->
  programOrigin (canon w') = from_prog (canon w) p /\
  chained_points w' = [] /\
  exists w0,
    flush_segments m (with_canon (set_programOrigin (from_prog (canon w) p)) w)
    = Ok tt w0 /\
    endPoint (canon w') = endPoint (canon w0) /\
    interp_list w' =
    interp_list w0 ++
    css_update m (canon w) (from_prog (canon w) p) (interp_line w0) ++
    [(interp_line w0,
      EMC_TRAJ_SET_ORIGIN (external_pose m (from_prog (canon w) p)))].
Proof.
  unfold SET_ORIGIN_OFFSETS. intros H.
  apply bind_Ok in H. destruct H as (c & w1 & E & H).
  unfold get_canon in E. inversion E; subst c w1; clear E.
  apply bind_Ok in H. destruct H as (u1 & w1 & E & H).
  unfold modify in E. inversion E; subst u1 w1; clear E.
  set (o := from_prog (canon w) p) in *.
  unfold send_origin_msg in H.
  apply bind_Ok in H. destruct H as ([] & w0 & Ef & H).
  pose proof (flush_segments_Ok _ _ _ _ Ef) as He.
  destruct (flush_segments_canon _ _ _ _ Ef) as (e & cm & am & Hc).
  apply bind_Ok in H. destruct H as (c & w1 & E & H).
  unfold get_canon in E. inversion E; subst c w1; clear E.
  assert (Ho : programOrigin (canon w0) = o) by (rewrite Hc; reflexivity).
  assert (Hm : css_maximum (canon w0) = css_maximum (canon w))
    by (rewrite Hc; reflexivity).
  assert (Hn : css_numerator (canon w0) = css_numerator (canon w))
    by (rewrite Hc; reflexivity).
  assert (Ht : toolOffset (canon w0) = toolOffset (canon w))
    by (rewrite Hc; reflexivity).
  cbv zeta in H. rewrite Ho, Hm in H.
  bind_inv H.
  repeat match goal with
         | E : TO_EXT_LEN _ _ _ = Ok _ _ |- _ =>
           apply TO_EXT_LEN_Ok in E; destruct E as (-> & -> & _)
         | E : TO_EXT_ANG _ _ _ = Ok _ _ |- _ =>
           apply TO_EXT_ANG_Ok in E; destruct E as (-> & -> & _)
         end.
  fold (external_pose m o) in H.
  unfold modify in H. inversion H; subst w'; clear H.
  unfold css_update.
  match goal with
  | E : (if ?b then _ else _) _ = Ok _ _ |- _ => destruct b
  end.
  - match goal with
    | E : bind _ _ _ = Ok _ _ |- _ =>
      apply bind_Ok in E; destruct E as (msg & w3 & E3 & E4)
    end.
    unfold css_speed_msg in E3. bind_inv E3.
    apply TO_EXT_LEN_Ok in E. destruct E as (-> & -> & _).
    inversion E3; subst msg w3; clear E3.
    unfold modify in E4. inversion E4; subst; clear E4.
    rewrite Ho, Hn, Ht, Hm.
    split; [exact Ho | ]. split; [exact He | ].
    exists w0. split; [exact Ef | ]. split; [reflexivity | ].
    cbn [interp_list interp_append interp_line].
    rewrite <- app_assoc. reflexivity.
  - match goal with
    | E : ret _ _ = Ok _ ?wx |- _ => inversion E; subst wx
    end.
    split; [exact Ho | ]. split; [exact He | ].
    exists w0. split; [exact Ef | ]. split; reflexivity.
Qed.

Lemma SET_ORIGIN_OFFSETS_returns (m : Machine) (p : CANON_POSITION) (w : World) :
  machine_ok m -> exists w', SET_ORIGIN_OFFSETS m p w = Ok tt w'.
Proof.
  intros Hok. pose proof Hok as (Hl & Ha & _).
  assert (Hl0 : linearUnits m <> 0) by lra.
  assert (Ha0 : angularUnits m <> 0) by lra.
  unfold SET_ORIGIN_OFFSETS.
  eapply bind_returns; [reflexivity | ].
  eapply bind_returns; [reflexivity | ].
  unfold send_origin_msg.
  match goal with
  | |- exists w2, bind (flush_segments m) _ ?w1 = _ =>
    destruct (flush_segments_run m w1 Hok) as (w0 & Hf)
  end.
  eapply bind_returns; [exact Hf | ].
  eapply bind_returns; [reflexivity | ]. cbv zeta.
  repeat (eapply bind_returns; [run_one | ]).
  match goal with
  | |- context [if ?b then _ else _] => destruct b
  end.
  - eapply bind_returns.
    + eapply bind_run.
      * unfold css_speed_msg. eapply bind_run; [run_one | reflexivity].
      * reflexivity.
    + eexists. reflexivity.
  - eapply bind_returns; [reflexivity | ]. eexists. reflexivity.
Qed.

Lemma SET_ORIGIN_OFFSETS_messages_witness :
  exists w',
    SET_ORIGIN_OFFSETS scenario_machine feed_target css_pending_world = Ok tt w' /\
    programOrigin (canon w') = feed_target /\
    chained_points w' = [].
Proof.
  destruct (SET_ORIGIN_OFFSETS_returns scenario_machine feed_target
              css_pending_world scenario_machine_ok) as (w' & H).
  exists w'. split; [exact H | ].
  destruct (SET_ORIGIN_OFFSETS_messages scenario_machine feed_target
              css_pending_world w' tt H) as (H1 & H2 & _).
  split; [ | exact H2].
  rewrite H1.
  unfold from_prog, feed_target, FROM_PROG_LEN, FROM_PROG_ANG, prog_len_factor.
  cbn [px py pz pa pb pc pu pv pw canon with_canon css_pending_world pending_world
       with_chained_points scenario_world scenario_canon lengthUnits
       set_css_maximum set_angularFeedRate set_linearFeedRate].
  f_equal; ring.
Defined.

(** ** Feeds along one line *)

Lemma distance_to_segment_on (B Q P : PmCartesian) :
  Q <> B -> on_segment B Q P -> distance_to_segment B Q P = 0.
Proof.
  intros H (t & Ht & ->). unfold distance_to_segment. cbv zeta.
  assert (Hp : 0 < dot (cart_sub Q B) (cart_sub Q B)).
  { apply dot_self_pos. intros E. apply H.
    destruct Q as [x y z], B as [x' y' z'].
    unfold cart_sub in E. cbn [cx cy cz] in E. inversion E.
    f_equal; lra. }
  set (M0 := cart_sub Q B) in *.
  replace (dot M0 (cart_sub (cart_add B (cart_scale t M0)) B) / dot M0 M0) with t.
  2: { replace (dot M0 (cart_sub (cart_add B (cart_scale t M0)) B))
         with (t * dot M0 M0).
       - field. lra.
       - unfold dot, cart_sub, cart_add, cart_scale. cbn [cx cy cz]. ring. }
  replace (Rmax 0 (Rmin 1 t)) with t.
  2: { unfold Rmin. destruct (Rle_dec 1 t); unfold Rmax.
       - destruct (Rle_dec 0 1); lra.
       - destruct (Rle_dec 0 t); lra. }
  unfold mag, dot, cart_sub, cart_add, cart_scale. cbn [cx cy cz].
  match goal with
  | |- sqrt ?e = 0 => replace e with 0 by ring
  end.
  apply sqrt_0.
Qed.

(** X27: feeds along one straight line are fused.  In the continuous mode
    with a positive naive-cam tolerance, a point whose rotary and auxiliary
    coordinates are those of the last buffered point and whose x, y, z differ
    from the end point is linkable whenever the buffer holds at most 100
    points and each of them lies on the straight segment from the end point
    to the new point. *)
Theorem collinear_feeds_fuse (p : CANON_POSITION) (w : World) (pos : pt) :
  motionMode (canon w) = CANON_CONTINUOUS ->
  0 < naivecamTolerance (canon w) ->
  (length (chained_points w) <= 100)%nat ->
  back (chained_points w) = Some pos ->
  same_abc_uvw p (pt_pos pos) ->
  xyz_of_pos p <> xyz_of_pos (endPoint (canon w)) ->
  (forall P, In P (chained_points w) ->
     on_segment (xyz_of_pos (endPoint (canon w))) (xyz_of_pos p) (xyz_of_pt P)) ->
  linkable p w = Ok true w.
Proof.
  intros Hm Ht Hlen Hb Hs Hx Hon.
  pose proof (back_Some_nonempty _ _ Hb) as Hne.
  destruct (linkable_characterised w p Hne) as (l & Hl & Hspec).
  rewrite Hl. f_equal. apply Hspec.
  unfold linkable_spec.
  split; [exact Hm | ]. split; [exact Ht | ]. split; [lia | ].
  split.
  - exists pos. split; [exact Hb | ]. exact Hs.
  - split; [exact Hx | ].
    intros P HP. rewrite (distance_to_segment_on _ _ _ Hx (Hon P HP)). lra.
Qed.

Lemma collinear_feeds_fuse_witness :
  linkable next_target full_world = Ok true full_world.
Proof.
  apply (collinear_feeds_fuse next_target full_world (mkPt 1 0 0 0 0 0 0 0 0 10)).
  - reflexivity.
  - change (naivecamTolerance (canon full_world)) with (1 / 10). lra.
  - change (chained_points full_world) with (repeat (mkPt 1 0 0 0 0 0 0 0 0 10) 100).
    rewrite repeat_length. lia.
  - apply (back_repeat _ 99).
  - repeat split.
  - unfold xyz_of_pos, next_target. cbn. intros H. inversion H. lra.
  - intros P HP.
    change (chained_points full_world)
      with (repeat (mkPt 1 0 0 0 0 0 0 0 0 10) 100) in HP.
    apply repeat_spec in HP. subst P.
    exists (1 / 2). split; [lra | ].
    unfold xyz_of_pt, xyz_of_pos, next_target, cart_add, cart_scale, cart_sub.
    change (endPoint (canon full_world)) with zero_position.
    cbn [zero_position px py pz pt_x pt_y pt_z cx cy cz].
    f_equal; lra.
Defined.

(** ** The programmed position reads back *)

Lemma unoffset_after_rotate_and_offset (c : CanonConfig_t) (p : CANON_POSITION) :
  unoffset_and_unrotate_pos c (rotate_and_offset_pos c p) = p.
Proof.
  destruct p as [x y z a b c0 u v w].
  unfold unoffset_and_unrotate_pos, rotate_and_offset_pos.
  cbn [px py pz pa pb pc pu pv pw].
  pose proof (rotate_back x y (xy_rotation c)) as Hrot.
  destruct (rotate x y (xy_rotation c)) as [x1 y1].
  cbn [px py pz pa pb pc pu pv pw].
  replace (unoffset_x c (offset_x c x1)) with x1
    by (unfold unoffset_x, offset_x; ring).
  replace (unoffset_y c (offset_y c y1)) with y1
    by (unfold unoffset_y, offset_y; ring).
  rewrite Hrot.
  unfold unoffset_z, offset_z, unoffset_a, offset_a, unoffset_b, offset_b,
    unoffset_c, offset_c, unoffset_u, offset_u, unoffset_v, offset_v,
    unoffset_w, offset_w.
  f_equal; ring.
Qed.

Lemma unoffset_and_unrotate_pos_settings (c1 c2 : CanonConfig_t) (x : CANON_POSITION) :
  programOrigin c1 = programOrigin c2 -> toolOffset c1 = toolOffset c2 ->
  xy_rotation c1 = xy_rotation c2 ->
  unoffset_and_unrotate_pos c1 x = unoffset_and_unrotate_pos c2 x.
Proof.
  intros Ho Ht Hr.
  unfold unoffset_and_unrotate_pos, unoffset_x, unoffset_y, unoffset_z,
    unoffset_a, unoffset_b, unoffset_c, unoffset_u, unoffset_v, unoffset_w.
  rewrite Ho, Ht, Hr. reflexivity.
Qed.

Lemma to_prog_units (c1 c2 : CanonConfig_t) (x : CANON_POSITION) :
  lengthUnits c1 = lengthUnits c2 -> to_prog c1 x = to_prog c2 x.
Proof.
  intros H. unfold to_prog.
  rewrite !(TO_PROG_LEN_units c1 c2 _ H). reflexivity.
Qed.

Lemma STRAIGHT_TRAVERSE_settings (m : Machine) (line_number : Z)
    (p : CANON_POSITION) (w w1 : World) (u : unit) :
  STRAIGHT_TRAVERSE m line_number p w = Ok u w1 ->
  endPoint (canon w1) = rotate_and_offset_pos (canon w) (from_prog (canon w) p) /\
  programOrigin (canon w1) = programOrigin (canon w) /\
  toolOffset (canon w1) = toolOffset (canon w) /\
  xy_rotation (canon w1) = xy_rotation (canon w) /\
  lengthUnits (canon w1) = lengthUnits (canon w).
Proof.
  intros H.
  destruct (STRAIGHT_TRAVERSE_inv _ _ _ _ _ _ H) as (w0 & vel & acc & jerk & Hf & Hw).
  cbv zeta in Hw.
  destruct (flush_segments_canon _ _ _ _ Hf) as (e & cm & am & Hc).
  subst w1.
  destruct (negb (feed_mode (canon w) =? 0)%Z), (nonzero vel && nonzero acc);
    cbn [canon with_canon interp_append interp_set_line_number classified
         endPoint programOrigin toolOffset xy_rotation lengthUnits
         set_endPoint set_synched set_angular_move set_cartesian_move];
    rewrite Hc; repeat split; reflexivity.
Qed.


